(** * Morphing sphere: the particle field, the pointer interaction and
      the radial morph, embedded over the real numbers.

    The program computes with JavaScript numbers.  They are idealised here
    as real numbers: rounding, overflow and signed zeros are left out.  The
    special values that an exact computation still produces (a division by
    zero, the square root of a negative number) are kept in [jsnum], which
    the constructor of the particle field computes with. *)

From Stdlib Require Import Reals Lra Lia List ZArith RNsatz.
From stdpp Require Import base list.

Open Scope R_scope.

#[global] Instance R_inhabited : Inhabited R := populate 0.

(** ** JavaScript numbers *)

Module JS.

Inductive jsnum : Type :=
| Fin (r : R)
| PInf
| NInf
| NaN.

(** Truncation toward zero, as [%] uses it. *)
Definition trunc (x : R) : Z :=
  if Rle_dec 0 x then Int_part x else (- Int_part (- x))%Z.

Definition jneg (a : jsnum) : jsnum :=
  match a with
  | Fin x => Fin (- x)
  | PInf => NInf
  | NInf => PInf
  | NaN => NaN
  end.

Definition jadd (a b : jsnum) : jsnum :=
  match a, b with
  | NaN, _ | _, NaN => NaN
  | Fin x, Fin y => Fin (x + y)
  | PInf, NInf | NInf, PInf => NaN
  | PInf, _ | _, PInf => PInf
  | NInf, _ | _, NInf => NInf
  end.

Definition jsub (a b : jsnum) : jsnum := jadd a (jneg b).

(** The infinity with the sign of [x]; [x] is not zero where it is used. *)
Definition inf_of_sign (x : R) : jsnum :=
  if Rlt_dec 0 x then PInf else NInf.

Definition jmul (a b : jsnum) : jsnum :=
  match a, b with
  | NaN, _ | _, NaN => NaN
  | Fin x, Fin y => Fin (x * y)
  | PInf, Fin y | Fin y, PInf =>
      if Req_dec_T y 0 then NaN else inf_of_sign y
  | NInf, Fin y | Fin y, NInf =>
      if Req_dec_T y 0 then NaN else inf_of_sign (- y)
  | PInf, PInf | NInf, NInf => PInf
  | PInf, NInf | NInf, PInf => NInf
  end.

Definition jdiv (a b : jsnum) : jsnum :=
  match a, b with
  | NaN, _ | _, NaN => NaN
  | Fin x, Fin y =>
      if Req_dec_T y 0
      then (if Req_dec_T x 0 then NaN else inf_of_sign x)
      else Fin (x / y)
  | Fin _, _ => Fin 0
  | PInf, Fin y => if Rlt_dec y 0 then NInf else PInf
  | NInf, Fin y => if Rlt_dec y 0 then PInf else NInf
  | _, _ => NaN
  end.

(** [a % b]: the remainder has the sign of the dividend. *)
Definition jmod (a b : jsnum) : jsnum :=
  match a, b with
  | Fin x, Fin y =>
      if Req_dec_T y 0 then NaN else Fin (x - y * IZR (trunc (x / y)))
  | Fin x, (PInf | NInf) => Fin x
  | _, _ => NaN
  end.

Definition jsqrt (a : jsnum) : jsnum :=
  match a with
  | Fin x => if Rlt_dec x 0 then NaN else Fin (sqrt x)
  | PInf => PInf
  | _ => NaN
  end.

Definition jcos (a : jsnum) : jsnum :=
  match a with Fin x => Fin (cos x) | _ => NaN end.

Definition jsin (a : jsnum) : jsnum :=
  match a with Fin x => Fin (sin x) | _ => NaN end.

Definition finite (a : jsnum) : option R :=
  match a with Fin x => Some x | _ => None end.

End JS.

Import JS.

(** ** Math.* on finite arguments *)

(** [Math.max] and [Math.min]. *)
Definition Math_max (a b : R) : R := Rmax a b.
Definition Math_min (a b : R) : R := Rmin a b.

(** [Math.pow x y] for [0 <= x] and [0 < y], the only way the program calls
    it: zero to a positive power is zero. *)
Definition Math_pow (x y : R) : R :=
  if Req_dec_T x 0 then 0 else Rpower x y.

(** [Math.atan2 y x], signed zeros left out. *)
Definition Math_atan2 (y x : R) : R :=
  if Rlt_dec 0 x then atan (y / x)
  else if Rlt_dec x 0 then
    (if Rle_dec 0 y then atan (y / x) + PI else atan (y / x) - PI)
  else if Rlt_dec 0 y then PI / 2
  else if Rlt_dec y 0 then - (PI / 2)
  else 0.

(** ** three.js vectors and quaternions *)

Record Vector2 : Type := Vec2 { x2 : R; y2 : R }.

Record Vector3 : Type := Vec3 { vx : R; vy : R; vz : R }.

#[global] Instance Vector3_inhabited : Inhabited Vector3 := populate (Vec3 0 0 0).

Record Quaternion : Type := Quat { qx : R; qy : R; qz : R; qw : R }.

Module V3.

Definition add (a b : Vector3) : Vector3 :=
  Vec3 (vx a + vx b) (vy a + vy b) (vz a + vz b).

Definition sub (a b : Vector3) : Vector3 :=
  Vec3 (vx a - vx b) (vy a - vy b) (vz a - vz b).

Definition multiplyScalar (a : Vector3) (s : R) : Vector3 :=
  Vec3 (vx a * s) (vy a * s) (vz a * s).

Definition dot (a b : Vector3) : R :=
  vx a * vx b + vy a * vy b + vz a * vz b.

Definition length (a : Vector3) : R :=
  sqrt (vx a * vx a + vy a * vy a + vz a * vz a).

(** [divideScalar s] is [multiplyScalar (1 / s)]. *)
Definition divideScalar (a : Vector3) (s : R) : Vector3 :=
  multiplyScalar a (1 / s).

(** [normalize] divides by [length () || 1]: the zero vector stays zero. *)
Definition normalize (a : Vector3) : Vector3 :=
  divideScalar a (if Req_dec_T (length a) 0 then 1 else length a).

(** [applyQuaternion q]: v + w t + u x t with t = 2 (u x v), u the vector
    part of [q]. *)
Definition applyQuaternion (v : Vector3) (q : Quaternion) : Vector3 :=
  let tx := 2 * (qy q * vz v - qz q * vy v) in
  let ty := 2 * (qz q * vx v - qx q * vz v) in
  let tz := 2 * (qx q * vy v - qy q * vx v) in
  Vec3 (vx v + qw q * tx + qy q * tz - qz q * ty)
       (vy v + qw q * ty + qz q * tx - qx q * tz)
       (vz v + qw q * tz + qx q * ty - qy q * tx).

End V3.

(** [Quaternion.invert]: the conjugate (the quaternion is taken to be of
    unit length). *)
Definition invert (q : Quaternion) : Quaternion :=
  Quat (- qx q) (- qy q) (- qz q) (qw q).

Definition unitQuat (q : Quaternion) : Prop :=
  qx q * qx q + qy q * qy q + qz q * qz q + qw q * qw q = 1.

(** ** mathUtils.js *)

Definition lerpVec3 (a b : Vector3) (t : R) : Vector3 :=
  Vec3 (vx a + (vx b - vx a) * t)
       (vy a + (vy b - vy a) * t)
       (vz a + (vz b - vz a) * t).

Definition easeInOutSine (t : R) : R := - (cos (PI * t) - 1) / 2.

Definition clamp (val min max : R) : R := Math_max min (Math_min max val).

(** ** ParticleSphere.js: the particle field *)

(** The arrays of a [ParticleSphere].  [originalPositions] and
    [spreadOffsets] are flat, three entries for a dot.  The constructor
    computes the positions with JavaScript's arithmetic, hence the parameter
    [num]; the frame update works on a field of real numbers.  The arrays
    that no method reads after construction ([morphTargets], [spreadVels],
    [spreadReturnT], [colors]) are left out; [positions] holds what
    [getGeometry] copies into the render buffer. *)
Record ParticleSphereOf (num : Type) : Type := mkParticleSphere {
  DOT_COUNT : nat;
  RADIUS : R;
  positions : list num;
  originalPositions : list num;
  spreadOffsets : list R;
  spreadTimers : list R;
  spreadKickT : list R;
  spreadKickDir : list Vector3;
  spreadKickStart : list Vector3
}.

Arguments mkParticleSphere {num}.
Arguments DOT_COUNT {num}.
Arguments RADIUS {num}.
Arguments positions {num}.
Arguments originalPositions {num}.
Arguments spreadOffsets {num}.
Arguments spreadTimers {num}.
Arguments spreadKickT {num}.
Arguments spreadKickDir {num}.
Arguments spreadKickStart {num}.

Abbreviation ParticleSphere := (ParticleSphereOf R).

Module Construction.

(** The coordinates of dot [i] before the scaling by [RADIUS]. *)
Definition lattice_y (count i : nat) : jsnum :=
  jsub (Fin 1) (jmul (jdiv (Fin (INR i)) (Fin (INR count - 1))) (Fin 2)).

Definition lattice_radius (count i : nat) : jsnum :=
  let y := lattice_y count i in
  jsqrt (jsub (Fin 1) (jmul y y)).

Definition lattice_theta (i : nat) : jsnum :=
  jmul (jmul (Fin PI) (Fin 2)) (jmod (jmul (Fin (INR i)) (Fin 1.618034)) (Fin 1)).

(** One turn of the loop of [initParticles]. *)
Definition initParticles_body (ps : ParticleSphereOf jsnum) (i : nat)
  : ParticleSphereOf jsnum :=
  let y := lattice_y (DOT_COUNT ps) i in
  let radius := lattice_radius (DOT_COUNT ps) i in
  let theta := lattice_theta i in
  let x := jmul (jcos theta) radius in
  let z := jmul (jsin theta) radius in
  let R_ := Fin (RADIUS ps) in
  mkParticleSphere (DOT_COUNT ps) (RADIUS ps)
    (positions ps ++ [jmul x R_; jmul y R_; jmul z R_])
    (originalPositions ps ++ [jmul x R_; jmul y R_; jmul z R_])
    (spreadOffsets ps ++ [0; 0; 0])
    (spreadTimers ps ++ [0])
    (spreadKickT ps ++ [1])
    (spreadKickDir ps ++ [Vec3 0 0 0])
    (spreadKickStart ps ++ [Vec3 0 0 0]).

Definition initParticles (ps : ParticleSphereOf jsnum) : ParticleSphereOf jsnum :=
  fold_left initParticles_body (seq 0 (DOT_COUNT ps)) ps.

(** [new ParticleSphere({ dotCount, radius })]. *)
Definition new (dotCount : nat) (radius : R) : ParticleSphereOf jsnum :=
  initParticles (mkParticleSphere dotCount radius [] [] [] [] [] [] []).

(** The field read back as real numbers, when every position is finite. *)
Definition finiteField (ps : ParticleSphereOf jsnum) : option ParticleSphere :=
  pos ← mapM finite (positions ps);
  orig ← mapM finite (originalPositions ps);
  Some (mkParticleSphere (DOT_COUNT ps) (RADIUS ps) pos orig
          (spreadOffsets ps) (spreadTimers ps) (spreadKickT ps)
          (spreadKickDir ps) (spreadKickStart ps)).

End Construction.

(** ParticleFactory.createDefaultSphere *)
Definition createDefaultSphere : ParticleSphereOf jsnum :=
  Construction.new 1600 2.

(** ** Assignments to the arrays of a real-valued field

    An assignment [a[k] = v] is stdpp's [<[k:=v]>]; a read [a[k]] is
    [a !!! k].  Every index the program uses is below the length of its
    array (see [wf]), so that JavaScript's out-of-range behaviour never
    shows. *)

Definition offset_set (k : nat) (v : R) (ps : ParticleSphere) : ParticleSphere :=
  mkParticleSphere (DOT_COUNT ps) (RADIUS ps) (positions ps) (originalPositions ps)
    (<[k:=v]> (spreadOffsets ps)) (spreadTimers ps) (spreadKickT ps)
    (spreadKickDir ps) (spreadKickStart ps).

Definition timer_set (i : nat) (v : R) (ps : ParticleSphere) : ParticleSphere :=
  mkParticleSphere (DOT_COUNT ps) (RADIUS ps) (positions ps) (originalPositions ps)
    (spreadOffsets ps) (<[i:=v]> (spreadTimers ps)) (spreadKickT ps)
    (spreadKickDir ps) (spreadKickStart ps).

Definition kickT_set (i : nat) (v : R) (ps : ParticleSphere) : ParticleSphere :=
  mkParticleSphere (DOT_COUNT ps) (RADIUS ps) (positions ps) (originalPositions ps)
    (spreadOffsets ps) (spreadTimers ps) (<[i:=v]> (spreadKickT ps))
    (spreadKickDir ps) (spreadKickStart ps).

Definition kickDir_set (i : nat) (v : Vector3) (ps : ParticleSphere) : ParticleSphere :=
  mkParticleSphere (DOT_COUNT ps) (RADIUS ps) (positions ps) (originalPositions ps)
    (spreadOffsets ps) (spreadTimers ps) (spreadKickT ps)
    (<[i:=v]> (spreadKickDir ps)) (spreadKickStart ps).

Definition kickStart_set (i : nat) (v : Vector3) (ps : ParticleSphere) : ParticleSphere :=
  mkParticleSphere (DOT_COUNT ps) (RADIUS ps) (positions ps) (originalPositions ps)
    (spreadOffsets ps) (spreadTimers ps) (spreadKickT ps)
    (spreadKickDir ps) (<[i:=v]> (spreadKickStart ps)).

(** The three offset entries of a dot written at once, in the order of the
    source. *)
Definition offsets_set3 (i : nat) (v : Vector3) (ps : ParticleSphere) : ParticleSphere :=
  offset_set (i * 3 + 2) (vz v) (offset_set (i * 3 + 1) (vy v) (offset_set (i * 3) (vx v) ps)).

(** The array lengths that the constructor establishes and every method
    keeps. *)
Record wf (ps : ParticleSphere) : Prop := mkWf {
  wf_orig : length (originalPositions ps) = (DOT_COUNT ps * 3)%nat;
  wf_off : length (spreadOffsets ps) = (DOT_COUNT ps * 3)%nat;
  wf_timers : length (spreadTimers ps) = DOT_COUNT ps;
  wf_kickT : length (spreadKickT ps) = DOT_COUNT ps;
  wf_kickDir : length (spreadKickDir ps) = DOT_COUNT ps;
  wf_kickStart : length (spreadKickStart ps) = DOT_COUNT ps
}.

(** ** ParticleInteractionService.js *)

Record Ray : Type := mkRay { origin : Vector3; direction : Vector3 }.

Record Camera : Type := mkCamera { position : Vector3 }.

(** What the service takes from its host: the size of the window and
    three.js's [Raycaster.setFromCamera], which turns a point in normalised
    device coordinates and a camera into a ray. *)
Record Host : Type := mkHost {
  innerWidth : R;
  innerHeight : R;
  setFromCamera : Vector2 -> Camera -> Ray
}.

(** The [THREE.Points] object: its rotation about the y axis with the
    quaternion three.js keeps in step with it, its scale, and the two
    attribute arrays of its geometry. *)
Record Points : Type := mkPoints {
  rotation_y : R;
  scale : Vector3;
  quaternion : Quaternion;
  position_array : list R;
  color_array : list R
}.

Record Service : Type := mkService {
  particleSphere : ParticleSphere;
  morphLerp : R;
  morphTarget : R;
  (** set by the host only; the constructor does not declare it *)
  enableMorph : bool
}.

(** [new ParticleInteractionService(particleSphere)]; [enableMorph] is
    undefined, hence falsy, until the host assigns it. *)
Definition newService (ps : ParticleSphere) : Service :=
  mkService ps 1 1 false.

Record FrameParams : Type := mkFrame {
  time : R;
  pointer : option Vector2;
  lastPointer : option Vector2;
  (** the event itself is never read, only tested for null *)
  lastPointerEvent : bool;
  points : option Points;
  camera : option Camera
}.

(** *** animateSpreadReturn *)

#[global] Instance Rlt_decision (x y : R) : Decision (x < y) := Rlt_dec x y.
#[global] Instance Rgt_decision (x y : R) : Decision (x > y) := Rgt_dec x y.
#[global] Instance Rge_decision (x y : R) : Decision (x >= y) := Rge_dec x y.

Definition animateSpreadReturn_body (ps : ParticleSphere) (i : nat) : ParticleSphere :=
  if decide (spreadKickT ps !!! i < 1) then
    let ps := kickT_set i (spreadKickT ps !!! i + 0.035) ps in
    let ps := if decide (spreadKickT ps !!! i > 1) then kickT_set i 1 ps else ps in
    let ease := easeInOutSine (spreadKickT ps !!! i) in
    let ps := offset_set (i * 3)
                (vx (spreadKickStart ps !!! i) + vx (spreadKickDir ps !!! i) * ease) ps in
    let ps := offset_set (i * 3 + 1)
                (vy (spreadKickStart ps !!! i) + vy (spreadKickDir ps !!! i) * ease) ps in
    offset_set (i * 3 + 2)
      (vz (spreadKickStart ps !!! i) + vz (spreadKickDir ps !!! i) * ease) ps
  else if decide (spreadTimers ps !!! i > 0) then
    let ps := timer_set i (spreadTimers ps !!! i - 0.017) ps in
    if decide (spreadTimers ps !!! i < 0) then timer_set i 0 ps else ps
  else
    let ps := offset_set (i * 3)
                (spreadOffsets ps !!! (i * 3)%nat
                 + (0 - spreadOffsets ps !!! (i * 3)%nat) * 0.03) ps in
    let ps := offset_set (i * 3 + 1)
                (spreadOffsets ps !!! (i * 3 + 1)%nat
                 + (0 - spreadOffsets ps !!! (i * 3 + 1)%nat) * 0.03) ps in
    offset_set (i * 3 + 2)
      (spreadOffsets ps !!! (i * 3 + 2)%nat
       + (0 - spreadOffsets ps !!! (i * 3 + 2)%nat) * 0.03) ps.

Definition animateSpreadReturn (ps : ParticleSphere) : ParticleSphere :=
  fold_left animateSpreadReturn_body (seq 0 (DOT_COUNT ps)) ps.

(** *** spreadDots *)

(** The cursor in world space for one pointer sample: the ray through the
    sample is cut with the sphere, with a fallback when it misses.  The
    source writes this computation out twice, for the current and for the
    previous sample. *)
Definition resolveCursorWorld (h : Host) (ps : ParticleSphere) (camera : Camera)
    (pointer : Vector2) : Vector3 :=
  let mouseNDC := Vec2 (x2 pointer / innerWidth h * 2 - 1)
                       (- (y2 pointer / innerHeight h) * 2 + 1) in
  let ray := setFromCamera h mouseNDC camera in
  let rayOrigin := origin ray in
  let rayDir := direction ray in
  let a := V3.dot rayDir rayDir in
  let b := 2 * V3.dot rayOrigin rayDir in
  let c := V3.dot rayOrigin rayOrigin - RADIUS ps * RADIUS ps in
  let discriminant := b * b - 4 * a * c in
  if decide (discriminant >= 0) then
    let t := (- b - sqrt discriminant) / (2 * a) in
    V3.add rayOrigin (V3.multiplyScalar rayDir t)
  else
    let camToPointer := V3.add rayOrigin (V3.multiplyScalar rayDir 5) in
    let dir := V3.normalize (V3.sub camToPointer (position camera)) in
    V3.add (position camera) (V3.multiplyScalar dir (RADIUS ps)).

Definition steps : nat := 12.
Definition MAX_KICKS_PER_STEP : nat := 2.

(** The state of the loop over the dots within one interpolation step. *)
Record StepState : Type := mkStep {
  st_ps : ParticleSphere;
  touchedThisFrame : list bool;
  kicksThisStep : nat
}.

(** The body of the loop over the dots (lines 180-228). *)
Definition spreadDots_dot (pointer : Vector2) (lastPointer : option Vector2)
    (sphereQuat : Quaternion) (cursorWorld interpCursor : Vector3)
    (st : StepState) (i : nat) : StepState :=
  let ps := st_ps st in
  let invQuat := invert sphereQuat in
  let CURSOR_RADIUS := RADIUS ps * 0.38 in
  if decide (spreadKickT ps !!! i < 1) then st
  else
    let px := originalPositions ps !!! (i * 3)%nat in
    let py := originalPositions ps !!! (i * 3 + 1)%nat in
    let pz := originalPositions ps !!! (i * 3 + 2)%nat in
    let dotLocal := Vec3 px py pz in
    let dotWorld := V3.applyQuaternion dotLocal sphereQuat in
    let toCursor := V3.sub dotWorld interpCursor in
    let dist := V3.length toCursor in
    if decide (dist < CURSOR_RADIUS) then
      let exclusionSurfaceWorld :=
        V3.add interpCursor
          (V3.multiplyScalar (V3.normalize toCursor) (CURSOR_RADIUS + 0.001)) in
      let exclusionSurfaceLocal := V3.applyQuaternion exclusionSurfaceWorld invQuat in
      let dx := match lastPointer with
                | Some lp => x2 pointer - x2 lp | None => 0 end in
      let dy := match lastPointer with
                | Some lp => y2 pointer - y2 lp | None => 0 end in
      let pointerSpeed := sqrt (dx * dx + dy * dy) in
      let force := pointerSpeed / 5 in
      let onBoundary := Vec3 (vx exclusionSurfaceLocal - px)
                             (vy exclusionSurfaceLocal - py)
                             (vz exclusionSurfaceLocal - pz) in
      let st :=
        if bool_decide (force > 0.5)
           && bool_decide (kicksThisStep st < MAX_KICKS_PER_STEP)%nat
        then
          let spreadAmt :=
            clamp (0.7 * Math_pow (Math_max 0 (force - 1.0)) 1.15) 0 (RADIUS ps * 0.7) in
          let radial := V3.normalize toCursor in
          let ps := kickStart_set i onBoundary ps in
          let ps := kickT_set i 0 ps in
          let kickDirWorld := V3.multiplyScalar radial spreadAmt in
          let ps := kickDir_set i (V3.applyQuaternion kickDirWorld invQuat) ps in
          let ps := offsets_set3 i onBoundary ps in
          mkStep ps (touchedThisFrame st) (S (kicksThisStep st))
        else
          mkStep (offsets_set3 i onBoundary ps) (touchedThisFrame st) (kicksThisStep st) in
      mkStep (st_ps st) (<[i:=true]> (touchedThisFrame st)) (kicksThisStep st)
    else if decide (dist < CURSOR_RADIUS + 0.18) then
      let target :=
        V3.add cursorWorld
          (V3.multiplyScalar (V3.normalize toCursor) (CURSOR_RADIUS + 0.001)) in
      let targetLocal := V3.applyQuaternion target invQuat in
      let ps := offset_set (i * 3)
                  (spreadOffsets ps !!! (i * 3)%nat
                   + (vx targetLocal - (px + spreadOffsets ps !!! (i * 3)%nat)) * 0.18) ps in
      let ps := offset_set (i * 3 + 1)
                  (spreadOffsets ps !!! (i * 3 + 1)%nat
                   + (vy targetLocal - (py + spreadOffsets ps !!! (i * 3 + 1)%nat)) * 0.18) ps in
      let ps := offset_set (i * 3 + 2)
                  (spreadOffsets ps !!! (i * 3 + 2)%nat
                   + (vz targetLocal - (pz + spreadOffsets ps !!! (i * 3 + 2)%nat)) * 0.18) ps in
      let ps := timer_set i 0.4 ps in
      mkStep ps (<[i:=true]> (touchedThisFrame st)) (kicksThisStep st)
    else st.

(** The sample of the cursor path for step [s]. *)
Definition interpCursorAt (prevCursorWorld : option Vector3) (cursorWorld : Vector3)
    (s : nat) : Vector3 :=
  match prevCursorWorld with
  | Some prev => lerpVec3 prev cursorWorld (INR s / INR steps)
  | None => cursorWorld
  end.

(** One interpolation step (one turn of the loop over [s]): the counter of
    kicks starts at zero, and the loop over the dots runs. *)
Definition spreadDots_step (pointer : Vector2) (lastPointer : option Vector2)
    (sphereQuat : Quaternion) (prevCursorWorld : option Vector3)
    (cursorWorld : Vector3) (ps : ParticleSphere) (touched : list bool)
    (s : nat) : StepState :=
  fold_left
    (spreadDots_dot pointer lastPointer sphereQuat cursorWorld
       (interpCursorAt prevCursorWorld cursorWorld s))
    (seq 0 (DOT_COUNT ps))
    (mkStep ps touched 0).

(** The last loop: the timer of a dot that no step touched is reset. *)
Definition resetUntouched (touched : list bool) (ps : ParticleSphere) (i : nat)
  : ParticleSphere :=
  if negb (touched !!! i) then timer_set i 0 ps else ps.

(** The loop over the interpolation steps [ss], on the field and the marks
    of the touched dots. *)
Definition spreadDots_pass (pointer : Vector2) (lastPointer : option Vector2)
    (sphereQuat : Quaternion) (prevCursorWorld : option Vector3)
    (cursorWorld : Vector3) (ss : list nat) (st : ParticleSphere * list bool)
  : ParticleSphere * list bool :=
  fold_left
    (fun (st : ParticleSphere * list bool) s =>
       let r := spreadDots_step pointer lastPointer sphereQuat prevCursorWorld
                  cursorWorld (fst st) (snd st) s in
       (st_ps r, touchedThisFrame r))
    ss st.

(** The previous cursor, when there is a previous sample. *)
Definition prevCursorWorldOf (h : Host) (ps : ParticleSphere) (cam : Camera)
    (lastPointer : option Vector2) (lastPointerEvent : bool) : option Vector3 :=
  match lastPointer with
  | Some lp =>
      if lastPointerEvent then Some (resolveCursorWorld h ps cam lp) else None
  | None => None
  end.

Definition spreadDots (h : Host) (ps : ParticleSphere) (pointer : Vector2)
    (lastPointer : option Vector2) (lastPointerEvent : bool)
    (pts : Points) (cam : Camera) : ParticleSphere :=
  let cursorWorld := resolveCursorWorld h ps cam pointer in
  let sphereQuat := quaternion pts in
  let prevCursorWorld := prevCursorWorldOf h ps cam lastPointer lastPointerEvent in
  let touchedThisFrame0 := replicate (DOT_COUNT ps) false in
  let st :=
    spreadDots_pass pointer lastPointer sphereQuat prevCursorWorld cursorWorld
      (seq 0 (steps + 1)) (ps, touchedThisFrame0) in
  fold_left (resetUntouched (snd st)) (seq 0 (DOT_COUNT ps)) (fst st).

(** *** update *)

(** How a call ends: normally, or with the [TypeError] of reading a
    property of [null] or [undefined]. *)
Inductive completion (A : Type) : Type :=
| Normal (a : A)
| ThrowTypeError.

Arguments Normal {A}.
Arguments ThrowTypeError {A}.

(** The radial morph of dot [i], written into the position buffer (lines
    42-57).  The buffer is a typed array: a write out of range is ignored,
    as [<[_:=_]>] does. *)
Definition morph_body (time : R) (ps : ParticleSphere) (morphLerp : R)
    (positions : list R) (i : nat) : list R :=
  let waveSpeed1 := 0.002 in
  let waveSpeed2 := 0.001 in
  let ampRadius := RADIUS ps * 0.15 in
  let orig := originalPositions ps in
  let off := spreadOffsets ps in
  let idx := (i * 3)%nat in
  let x0 := orig !!! idx in
  let y0 := orig !!! (idx + 1)%nat in
  let z0 := orig !!! (idx + 2)%nat in
  let ux := x0 / RADIUS ps in
  let uy := y0 / RADIUS ps in
  let uz := z0 / RADIUS ps in
  let uyClamped := clamp uy (-1) 1 in
  let theta := acos uyClamped in
  let phi := Math_atan2 uz ux in
  let wave1 := sin (time * waveSpeed1 + theta * 5 + phi * 3) in
  let wave2 := cos (time * waveSpeed2 + theta * 3 - phi * 2) in
  let baseOffset := (wave1 + wave2) * 0.5 * ampRadius in
  let radOffset := baseOffset * morphLerp in
  let r := RADIUS ps + radOffset in
  <[(idx + 2)%nat := uz * r + off !!! (idx + 2)%nat]>
    (<[(idx + 1)%nat := uy * r + off !!! (idx + 1)%nat]>
       (<[idx := ux * r + off !!! idx]> positions)).

(** The blink of dot [i], written into the colour buffer (lines 63-75). *)
Definition blink_body (time : R) (colorArr : list R) (i : nat) : list R :=
  let blinkSpeed := 0.01 in
  let idx := (i * 3)%nat in
  if decide (sin (time * blinkSpeed + INR i) > 0) then
    <[(idx + 2)%nat := 1.0]> (<[(idx + 1)%nat := 0.5647]> (<[idx := 0.1176]> colorArr))
  else
    <[(idx + 2)%nat := 1.0]> (<[(idx + 1)%nat := 1.0]> (<[idx := 1.0]> colorArr)).

(** [update]: the new state of the service, and the points object with its
    buffers rewritten.  When [points] is missing, the read of
    [points.geometry] throws after the field and [morphLerp] have been
    updated. *)
Definition update (h : Host) (sv : Service) (p : FrameParams)
  : Service * completion Points :=
  let ps := animateSpreadReturn (particleSphere sv) in
  let lerp := morphLerp sv + (morphTarget sv - morphLerp sv) * 0.05 in
  let ps :=
    match pointer p, points p, camera p with
    | Some ptr, Some pts, Some cam =>
        spreadDots h ps ptr (lastPointer p) (lastPointerEvent p) pts cam
    | _, _, _ => ps
    end in
  let sv := mkService ps lerp (morphTarget sv) (enableMorph sv) in
  match points p with
  | None => (sv, ThrowTypeError)
  | Some pts =>
      let count := DOT_COUNT ps in
      let positions :=
        fold_left (morph_body (time p) ps lerp) (seq 0 count) (position_array pts) in
      let colorArr :=
        fold_left (blink_body (time p)) (seq 0 count) (color_array pts) in
      (sv, Normal (mkPoints (rotation_y pts) (scale pts) (quaternion pts)
                     positions colorArr))
  end.

(** ** main.js: the composition root *)

Record App : Type := mkApp {
  app_points : Points;
  interactionService : Service;
  app_pointer : option Vector2;
  app_lastPointer : option Vector2;
  app_lastPointerEvent : bool;
  app_camera : Camera
}.

(** [points.rotation.y = ry]: three.js recomputes the quaternion from the
    Euler angles, here a rotation about the y axis alone. *)
Definition setRotationY (pts : Points) (ry : R) : Points :=
  mkPoints ry (scale pts) (Quat 0 (sin (ry / 2)) 0 (cos (ry / 2)))
    (position_array pts) (color_array pts).

Definition setScale (pts : Points) (s : Vector3) : Points :=
  mkPoints (rotation_y pts) s (quaternion pts) (position_array pts) (color_array pts).

(** One frame at the time [time] that [requestAnimationFrame] passes.  (The
    first call, made by the script itself, passes none: the buffers of that
    frame hold NaN and are overwritten by the next one; the field and
    [morphLerp] do not depend on the time.)  The callback calls [update]
    with a [points] object, so that [update] does not throw; the branch for
    a throw is there for the match to be complete. *)
Definition animate (h : Host) (time : R) (app : App) : App :=
  let pts := app_points app in
  let pts := setRotationY pts (rotation_y pts + 0.002) in
  let breath := 1 + sin (time * 0.001) * 0.05 in
  let pts :=
    if enableMorph (interactionService app)
    then setScale pts (Vec3 breath breath breath)
    else setScale pts (Vec3 1 1 1) in
  let r := update h (interactionService app)
             (mkFrame time (app_pointer app) (app_lastPointer app)
                (app_lastPointerEvent app) (Some pts) (Some (app_camera app))) in
  match snd r with
  | Normal pts' =>
      mkApp pts' (fst r) (app_pointer app) (app_lastPointer app)
        (app_lastPointerEvent app) (app_camera app)
  | ThrowTypeError =>
      mkApp pts (fst r) (app_pointer app) (app_lastPointer app)
        (app_lastPointerEvent app) (app_camera app)
  end.

(** The [change] listener of the toggle switch. *)
Definition onMorphToggle (checked : bool) (app : App) : App :=
  let sv := interactionService app in
  mkApp (app_points app)
    (mkService (particleSphere sv) (morphLerp sv) (morphTarget sv) checked)
    (app_pointer app) (app_lastPointer app) (app_lastPointerEvent app) (app_camera app).

(** The [pointermove] listener. *)
Definition onPointerMove (clientX clientY : R) (app : App) : App :=
  mkApp (app_points app) (interactionService app)
    (Some (Vec2 clientX clientY)) (app_pointer app) true (app_camera app).

(** What the host does between two looks at the application. *)
Inductive HostEvent : Type :=
| Frame (time : R)
| MorphToggle (checked : bool)
| PointerMove (clientX clientY : R).

Definition handle (h : Host) (app : App) (e : HostEvent) : App :=
  match e with
  | Frame t => animate h t app
  | MorphToggle c => onMorphToggle c app
  | PointerMove x y => onPointerMove x y app
  end.

Definition run (h : Host) (app : App) (es : list HostEvent) : App :=
  fold_left (handle h) es app.

(** The application as the composition root sets it up around a field
    [ps]: the service is new, the flag is read from the toggle switch, no
    pointer has been seen. *)
Definition startApp (ps : ParticleSphere) (pts : Points) (cam : Camera)
    (checked : bool) : App :=
  onMorphToggle checked (mkApp pts (newService ps) None None false cam).

(** * Notions for the statements *)

(** ** The field, dot by dot *)

(** The part of the field that belongs to one dot. *)
Record Dot : Type := mkDot {
  offset : Vector3;
  kickT : R;
  timer : R;
  kickStart : Vector3;
  kickDir : Vector3
}.

(** The offset of dot [i], its home, and all that belongs to it. *)
Definition offsetOf (ps : ParticleSphere) (i : nat) : Vector3 :=
  Vec3 (spreadOffsets ps !!! (i * 3)%nat)
       (spreadOffsets ps !!! (i * 3 + 1)%nat)
       (spreadOffsets ps !!! (i * 3 + 2)%nat).

Definition originalOf (ps : ParticleSphere) (i : nat) : Vector3 :=
  Vec3 (originalPositions ps !!! (i * 3)%nat)
       (originalPositions ps !!! (i * 3 + 1)%nat)
       (originalPositions ps !!! (i * 3 + 2)%nat).

Definition dotOf (ps : ParticleSphere) (i : nat) : Dot :=
  mkDot (offsetOf ps i) (spreadKickT ps !!! i) (spreadTimers ps !!! i)
        (spreadKickStart ps !!! i) (spreadKickDir ps !!! i).

(** Every dot of the field satisfies [Q]. *)
Definition allDots (Q : Dot -> Prop) (ps : ParticleSphere) : Prop :=
  forall j : nat, (j < DOT_COUNT ps)%nat -> Q (dotOf ps j).

(** What no method changes. *)
Definition sameShape (ps ps' : ParticleSphere) : Prop :=
  DOT_COUNT ps' = DOT_COUNT ps /\ RADIUS ps' = RADIUS ps /\
  originalPositions ps' = originalPositions ps.

(** [ps'] is a well-formed field of the shape of [ps] that differs from it
    at dot [i] only. *)
Definition touchesOnly (i : nat) (ps ps' : ParticleSphere) : Prop :=
  wf ps' /\ sameShape ps ps' /\ forall j : nat, j <> i -> dotOf ps' j = dotOf ps j.

(** The kick progress stays at most 1 and the timer at least 0. *)
Definition regimeOk (d : Dot) : Prop := kickT d <= 1 /\ 0 <= timer d.

(** The dot is at home and at rest. *)
Definition restDot (d : Dot) : Prop :=
  kickT d = 1 /\ timer d = 0 /\ offset d = Vec3 0 0 0.

(** ** The methods, on one dot *)

(** What [animateSpreadReturn] does to one dot. *)
Definition animateDot (d : Dot) : Dot :=
  if decide (kickT d < 1) then
    let t := if decide (kickT d + 0.035 > 1) then 1 else kickT d + 0.035 in
    mkDot (V3.add (kickStart d) (V3.multiplyScalar (kickDir d) (easeInOutSine t)))
          t (timer d) (kickStart d) (kickDir d)
  else if decide (timer d > 0) then
    mkDot (offset d) (kickT d)
          (if decide (timer d - 0.017 < 0) then 0 else timer d - 0.017)
          (kickStart d) (kickDir d)
  else
    mkDot (V3.multiplyScalar (offset d) 0.97) (kickT d) (timer d)
          (kickStart d) (kickDir d).

(** The dot with its timer at zero. *)
Definition resetTimer (d : Dot) : Dot :=
  mkDot (offset d) (kickT d) 0 (kickStart d) (kickDir d).

(** What one turn of the loop of [spreadDots] does to one dot.  The dot
    [d] has its home at [p]; [touched] is its mark and [kicks] the counter
    of the step.  The result is the dot, its mark and the counter after the
    turn. *)
Definition spreadDot (radius : R) (pointer : Vector2) (lastPointer : option Vector2)
    (sphereQuat : Quaternion) (cursorWorld interpCursor : Vector3)
    (p : Vector3) (d : Dot) (touched : bool) (kicks : nat) : Dot * bool * nat :=
  let invQuat := invert sphereQuat in
  let CURSOR_RADIUS := radius * 0.38 in
  if decide (kickT d < 1) then (d, touched, kicks)
  else
    let toCursor := V3.sub (V3.applyQuaternion p sphereQuat) interpCursor in
    let dist := V3.length toCursor in
    if decide (dist < CURSOR_RADIUS) then
      let exclusionSurfaceLocal :=
        V3.applyQuaternion
          (V3.add interpCursor
             (V3.multiplyScalar (V3.normalize toCursor) (CURSOR_RADIUS + 0.001)))
          invQuat in
      let dx := match lastPointer with
                | Some lp => x2 pointer - x2 lp | None => 0 end in
      let dy := match lastPointer with
                | Some lp => y2 pointer - y2 lp | None => 0 end in
      let force := sqrt (dx * dx + dy * dy) / 5 in
      let onBoundary := V3.sub exclusionSurfaceLocal p in
      if bool_decide (force > 0.5) && bool_decide (kicks < MAX_KICKS_PER_STEP)%nat
      then
        let spreadAmt :=
          clamp (0.7 * Math_pow (Math_max 0 (force - 1.0)) 1.15) 0 (radius * 0.7) in
        let kickDirWorld := V3.multiplyScalar (V3.normalize toCursor) spreadAmt in
        (mkDot onBoundary 0 (timer d) onBoundary
           (V3.applyQuaternion kickDirWorld invQuat), true, S kicks)
      else
        (mkDot onBoundary (kickT d) (timer d) (kickStart d) (kickDir d), true, kicks)
    else if decide (dist < CURSOR_RADIUS + 0.18) then
      let targetLocal :=
        V3.applyQuaternion
          (V3.add cursorWorld
             (V3.multiplyScalar (V3.normalize toCursor) (CURSOR_RADIUS + 0.001)))
          invQuat in
      let eased :=
        Vec3 (vx (offset d) + (vx targetLocal - (vx p + vx (offset d))) * 0.18)
             (vy (offset d) + (vy targetLocal - (vy p + vy (offset d))) * 0.18)
             (vz (offset d) + (vz targetLocal - (vz p + vz (offset d))) * 0.18) in
      (mkDot eased (kickT d) 0.4 (kickStart d) (kickDir d), true, kicks)
    else (d, touched, kicks).

(** The same for the first dot of the field, at step [s] of the pass: the
    counter of kicks is zero when its turn comes. *)
Definition dotStepAt (radius : R) (pointer : Vector2) (lastPointer : option Vector2)
    (q : Quaternion) (prev : option Vector3) (cw p : Vector3)
    (dt : Dot * bool) (s : nat) : Dot * bool :=
  fst (spreadDot radius pointer lastPointer q cw (interpCursorAt prev cw s) p
         (fst dt) (snd dt) 0).

(** The dot [j] went into a kick between the two fields. *)
Definition enteredKicking (before after : ParticleSphere) (j : nat) : bool :=
  bool_decide (~ spreadKickT before !!! j < 1)
  && bool_decide (spreadKickT after !!! j < 1).

(** The dots that a pass kicked. *)
Definition newKicks (before after : ParticleSphere) : list nat :=
  List.filter (enteredKicking before after) (seq 0 (DOT_COUNT before)).

(** The force of the pointer, as the loop computes it: a fifth of the
    distance between the last two samples, zero when there is one only. *)
Definition pointerForce (pointer : Vector2) (lastPointer : option Vector2) : R :=
  let dx := match lastPointer with
            | Some lp => x2 pointer - x2 lp | None => 0 end in
  let dy := match lastPointer with
            | Some lp => y2 pointer - y2 lp | None => 0 end in
  sqrt (dx * dx + dy * dy) / 5.

(** The distance, in world space, from the home [p] of a dot to the cursor
    sample [ic]. *)
Definition cursorDistance (q : Quaternion) (ic p : Vector3) : R :=
  V3.length (V3.sub (V3.applyQuaternion p q) ic).

(** The home of dot [i] plus its offset, in the local frame: the point that
    the radial wave of [update] then moves along the home direction. *)
Definition displaced (ps : ParticleSphere) (i : nat) : Vector3 :=
  V3.add (originalOf ps i) (offsetOf ps i).

(** The three numbers of dot [i] in a flat buffer. *)
Definition tripleAt (arr : list R) (i : nat) : Vector3 :=
  Vec3 (arr !!! (i * 3)%nat) (arr !!! (i * 3 + 1)%nat) (arr !!! (i * 3 + 2)%nat).

(** ** Dots out of reach of the cursor *)

(** The dot is out of reach of the cursor sample [ic]: it is in its kick, or
    beyond the soft band. *)
Definition outOfReach (radius : R) (q : Quaternion) (ic p : Vector3) (d : Dot) : Prop :=
  kickT d < 1 \/
  ~ V3.length (V3.sub (V3.applyQuaternion p q) ic) < radius * 0.38 + 0.18.

(** Dot [j] of [ps] is out of reach of the sample of step [s]. *)
Definition outOfReachAt (q : Quaternion) (prev : option Vector3) (cw : Vector3)
    (ps : ParticleSphere) (j s : nat) : Prop :=
  outOfReach (RADIUS ps) q (interpCursorAt prev cw s) (originalOf ps j) (dotOf ps j).

(** No sample of the cursor path of this frame reaches dot [j]. *)
Definition outOfReachInFrame (h : Host) (pointer : Vector2)
    (lastPointer : option Vector2) (lastPointerEvent : bool) (pts : Points)
    (cam : Camera) (ps : ParticleSphere) (j : nat) : Prop :=
  forall s : nat, (s <= steps)%nat ->
    outOfReachAt (quaternion pts)
      (prevCursorWorldOf h ps cam lastPointer lastPointerEvent)
      (resolveCursorWorld h ps cam pointer) ps j s.

(** The pointer pass runs when the three of them are there. *)
Definition pointerPassRuns (p : FrameParams) : bool :=
  match pointer p, points p, camera p with
  | Some _, Some _, Some _ => true
  | _, _, _ => false
  end.

(** No cursor sample of the frame [p] reaches dot [j]: the pointer pass does
    not run, or the dot is out of reach of the 13 samples. *)
Definition quietFrame (h : Host) (j : nat) (sv : Service) (p : FrameParams) : Prop :=
  match pointer p, points p, camera p with
  | Some ptr, Some pts, Some cam =>
      outOfReachInFrame h ptr (lastPointer p) (lastPointerEvent p) pts cam
        (animateSpreadReturn (particleSphere sv)) j
  | _, _, _ => True
  end.

(** A frame in which no cursor sample reaches the dot: [animateSpreadReturn]
    runs, and the untouched rule when the pointer pass runs ([b]). *)
Definition quietStep (b : bool) (d : Dot) : Dot :=
  if b then resetTimer (animateDot d) else animateDot d.

(** A run of such frames. *)
Definition quietRun (bs : list bool) (d : Dot) : Dot :=
  fold_left (fun d b => quietStep b d) bs d.

(** ** Runs of frames *)

(** The service after the frames, one [update] for each. *)
Definition runFrames (h : Host) (sv : Service) (frames : list FrameParams) : Service :=
  fold_left (fun sv p => fst (update h sv p)) frames sv.

(** No cursor sample of any frame of the run reaches dot [j]. *)
Fixpoint quietFrames (h : Host) (j : nat) (sv : Service) (frames : list FrameParams)
  : Prop :=
  match frames with
  | [] => True
  | p :: rest => quietFrame h j sv p /\ quietFrames h j (fst (update h sv p)) rest
  end.

(** Every component is at most [B], or below [eps], in absolute value. *)
Definition bounded (B : R) (v : Vector3) : Prop :=
  Rabs (vx v) <= B /\ Rabs (vy v) <= B /\ Rabs (vz v) <= B.

Definition within (eps : R) (v : Vector3) : Prop :=
  Rabs (vx v) < eps /\ Rabs (vy v) < eps /\ Rabs (vz v) < eps.

(** ** The constructor *)

(** The three numbers [initParticles] pushes for dot [i]. *)
Definition pushed (count : nat) (radius : R) (i : nat) : list jsnum :=
  let x := jmul (jcos (Construction.lattice_theta i))
                (Construction.lattice_radius count i) in
  let z := jmul (jsin (Construction.lattice_theta i))
                (Construction.lattice_radius count i) in
  [jmul x (Fin radius); jmul (Construction.lattice_y count i) (Fin radius);
   jmul z (Fin radius)].

(** The three real numbers of dot [i] of the Fibonacci lattice. *)
Definition latticePoint (count : nat) (radius : R) (i : nat) : list R :=
  let y := 1 - 2 * INR i / (INR count - 1) in
  let r := sqrt (1 - y * y) in
  let theta := 2 * PI * frac_part (INR i * 0.618034) in
  [cos theta * r * radius; y * radius; sin theta * r * radius].

(** ** The host *)

(** What three.js's raycaster gives for a perspective camera: the ray
    starts at the camera and has a direction. *)
Definition perspectiveHost (h : Host) : Prop :=
  forall (ndc : Vector2) (cam : Camera),
    origin (setFromCamera h ndc cam) = position cam /\
    0 < V3.dot (direction (setFromCamera h ndc cam))
               (direction (setFromCamera h ndc cam)).

(** A host for the examples: a window of 800 by 600 and a camera that
    looks down the negative z axis, the ray through a point of the image
    plane normalised as three.js does. *)
Definition pinholeRay (ndc : Vector2) (cam : Camera) : Ray :=
  mkRay (position cam) (V3.normalize (Vec3 (x2 ndc) (y2 ndc * 0.75) (-1))).

Definition pinholeHost : Host := mkHost 800 600 pinholeRay.

(** The camera of [ThreeSceneController]: on the z axis, five units out. *)
Definition sceneCamera : Camera := mkCamera (Vec3 0 0 5).

(** The frames among the events of the host, and whether the pointer
    moves among them. *)
Definition isFrame (e : HostEvent) : bool :=
  match e with Frame _ => true | _ => false end.

Definition isPointerMove (e : HostEvent) : bool :=
  match e with PointerMove _ _ => true | _ => false end.

Definition frameCount (es : list HostEvent) : nat :=
  length (List.filter isFrame es).

(** ** Fields and frames for the examples *)

(** The field of two dots and radius 2: the poles of the sphere. *)
Definition poles : ParticleSphere :=
  mkParticleSphere 2 2 [0; 2; 0; 0; -2; 0] [0; 2; 0; 0; -2; 0]
    [0; 0; 0; 0; 0; 0] [0; 0] [1; 1]
    [Vec3 0 0 0; Vec3 0 0 0] [Vec3 0 0 0; Vec3 0 0 0].

(** The poles, dot 0 just kicked. *)
Definition polesKicked : ParticleSphere :=
  mkParticleSphere 2 2 [0; 2; 0; 0; -2; 0] [0; 2; 0; 0; -2; 0]
    [0; 0.1; 0; 0; 0; 0] [0; 0] [0; 1]
    [Vec3 0 0.5 0; Vec3 0 0 0] [Vec3 0 0.1 0; Vec3 0 0 0].

(** Two dots of a sphere of radius 2, at rest: one faces the camera. *)
Definition facingDots : ParticleSphere :=
  mkParticleSphere 2 2 [0; 0; 2; 0; 0; -2] [0; 0; 2; 0; 0; -2]
    [0; 0; 0; 0; 0; 0] [0; 0] [1; 1]
    [Vec3 0 0 0; Vec3 0 0 0] [Vec3 0 0 0; Vec3 0 0 0].

(** Three dots of a sphere of radius 2, at rest.  Seen from the point
    (0, 0, 2) that faces the camera, the first is inside the zone (at
    0.40), the second in the soft band (at 0.78), the third out of reach. *)
Definition zoneDots : ParticleSphere :=
  mkParticleSphere 3 2
    [40 / 101; 0; 198 / 101; 10 / 13; 0; 24 / 13; 0; 0; -2]
    [40 / 101; 0; 198 / 101; 10 / 13; 0; 24 / 13; 0; 0; -2]
    [0; 0; 0; 0; 0; 0; 0; 0; 0] [0; 0; 0] [1; 1; 1]
    [Vec3 0 0 0; Vec3 0 0 0; Vec3 0 0 0] [Vec3 0 0 0; Vec3 0 0 0; Vec3 0 0 0].

(** Three dots of a sphere of radius 2, at rest, all of them inside the
    zone of a cursor at the point (0, 0, 2) that faces the camera, at 0.40
    from it. *)
Definition crowdedDots : ParticleSphere :=
  mkParticleSphere 3 2
    [40 / 101; 0; 198 / 101; - 40 / 101; 0; 198 / 101; 0; 40 / 101; 198 / 101]
    [40 / 101; 0; 198 / 101; - 40 / 101; 0; 198 / 101; 0; 40 / 101; 198 / 101]
    [0; 0; 0; 0; 0; 0; 0; 0; 0] [0; 0; 0] [1; 1; 1]
    [Vec3 0 0 0; Vec3 0 0 0; Vec3 0 0 0] [Vec3 0 0 0; Vec3 0 0 0; Vec3 0 0 0].

(** The points object, not rotated, with buffers for two dots. *)
Definition stillPoints : Points :=
  mkPoints 0 (Vec3 1 1 1) (Quat 0 0 0 1) (replicate 6 0) (replicate 6 1).

(** A frame at time 0 for which no pointer has been seen. *)
Definition idleFrame : FrameParams :=
  mkFrame 0 None None false (Some stillPoints) (Some sceneCamera).

(** The pointer has moved from (700, 300) to the middle of the window since
    the frame before; the points object is not rotated. *)
Definition swipeFrame : FrameParams :=
  mkFrame 0 (Some (Vec2 400 300)) (Some (Vec2 700 300)) true
    (Some stillPoints) (Some sceneCamera).

(** The host has seen no pointer, the flag is off, the field is that of
    the two poles, at rest. *)
Definition idleApp (app : App) : Prop :=
  app_pointer app = None /\
  enableMorph (interactionService app) = false /\
  morphLerp (interactionService app) = 1 /\
  morphTarget (interactionService app) = 1 /\
  wf (particleSphere (interactionService app)) /\
  sameShape poles (particleSphere (interactionService app)) /\
  allDots restDot (particleSphere (interactionService app)) /\
  length (position_array (app_points app)) = 6%nat.

(** * Properties *)

(** ** Construction: the Fibonacci lattice *)

Section ConstructionFacts.

Import Construction.

Lemma initParticles_fold (l : list nat) (ps : ParticleSphereOf jsnum) :
  let ps' := fold_left initParticles_body l ps in
  DOT_COUNT ps' = DOT_COUNT ps /\ RADIUS ps' = RADIUS ps /\
  originalPositions ps' =
    originalPositions ps ++ flat_map (pushed (DOT_COUNT ps) (RADIUS ps)) l /\
  spreadOffsets ps' = spreadOffsets ps ++ flat_map (fun _ => [0; 0; 0]) l /\
  spreadTimers ps' = spreadTimers ps ++ map (fun _ => 0) l /\
  spreadKickT ps' = spreadKickT ps ++ map (fun _ => 1) l.
Proof.
  revert ps. induction l as [|i l IH]; intros ps; simpl.
  - rewrite !app_nil_r. tauto.
  - destruct (IH (initParticles_body ps i)) as (Hc & Hr & Ho & Hs & Ht & Hk).
    simpl in *. rewrite Hc, Hr, Ho, Hs, Ht, Hk.
    rewrite <- !app_assoc. simpl. tauto.
Qed.

Lemma flat_map_seq_length {A : Type} (f : nat -> list A) (n : nat) :
  (forall j, length (f j) = 3%nat) -> length (flat_map f (seq 0 n)) = (n * 3)%nat.
Proof.
  intros Hlen. induction n as [|n IH]; [done|].
  rewrite seq_S, flat_map_app, length_app. simpl.
  rewrite app_nil_r, IH, Hlen. lia.
Qed.

Lemma flat_map_seq_lookup {A : Type} (f : nat -> list A) (n i k : nat) :
  (forall j, length (f j) = 3%nat) -> (i < n)%nat -> (k < 3)%nat ->
  flat_map f (seq 0 n) !! (i * 3 + k)%nat = f i !! k.
Proof.
  intros Hlen. induction n as [|n IH]; intros Hi Hk; [lia|].
  rewrite seq_S, flat_map_app. simpl. rewrite app_nil_r.
  pose proof (flat_map_seq_length f n Hlen) as Hl.
  destruct (decide (i = n)) as [->|Hne].
  - rewrite lookup_app_r by lia. f_equal. lia.
  - rewrite lookup_app_l by lia. apply IH; lia.
Qed.

(** For an index of a field of two dots or more, [y] is a real number
    between -1 and 1. *)
Lemma lattice_y_finite (count i : nat) :
  (2 <= count)%nat ->
  lattice_y count i = Fin (1 - 2 * INR i / (INR count - 1)).
Proof.
  intros Hc. unfold lattice_y, jdiv.
  assert (2 <= INR count) by (apply (le_INR 2); lia).
  destruct (Req_dec_T (INR count - 1) 0) as [E|_]; [lra|].
  simpl. f_equal. field. lra.
Qed.

Lemma lattice_y_range (count i : nat) :
  (2 <= count)%nat -> (i < count)%nat ->
  -1 <= 1 - 2 * INR i / (INR count - 1) <= 1.
Proof.
  intros Hc Hi.
  assert (2 <= INR count) by (apply (le_INR 2); lia).
  assert (0 <= INR i) by apply pos_INR.
  assert (INR i <= INR count - 1).
  { replace (INR count - 1) with (INR (count - 1)).
    - apply le_INR. lia.
    - rewrite minus_INR by lia. simpl. lra. }
  assert (0 <= INR i / (INR count - 1) <= 1).
  { split.
    - apply Rmult_le_pos; [lra|]. left. apply Rinv_0_lt_compat. lra.
    - apply (Rmult_le_reg_r (INR count - 1)); [lra|]. field_simplify; lra. }
  lra.
Qed.

Lemma lattice_radius_finite (count i : nat) :
  (2 <= count)%nat -> (i < count)%nat ->
  let y := 1 - 2 * INR i / (INR count - 1) in
  lattice_radius count i = Fin (sqrt (1 - y * y)).
Proof.
  intros Hc Hi y. unfold lattice_radius. rewrite lattice_y_finite by done.
  fold y. simpl. pose proof (lattice_y_range count i Hc Hi) as Hy. fold y in Hy.
  destruct (Rlt_dec (1 + - (y * y)) 0) as [Hn|_]; [nra|].
  f_equal.
Qed.

(** [x % 1] of a number that is not negative is its fractional part. *)
Lemma jmod_1_nonneg (x : R) :
  0 <= x -> jmod (Fin x) (Fin 1) = Fin (frac_part x).
Proof.
  intros Hx. unfold jmod, trunc.
  destruct (Req_dec_T 1 0) as [E|_]; [lra|].
  replace (x / 1) with x by field.
  destruct (Rle_dec 0 x) as [_|Hn]; [|lra].
  f_equal. unfold frac_part. ring.
Qed.

(** Adding a whole number does not change the fractional part: the golden
    ratio and its fractional part give the same angle. *)
Lemma frac_part_golden (i : nat) :
  frac_part (INR i * 1.618034) = frac_part (INR i * 0.618034).
Proof.
  destruct (Int_part_frac_part_spec (INR i * 1.618034)
              (Z.of_nat i + Int_part (INR i * 0.618034))
              (frac_part (INR i * 0.618034))) as [_ Hf].
  - pose proof (base_fp (INR i * 0.618034)). lra.
  - rewrite plus_IZR, <- INR_IZR_INZ.
    pose proof (Rplus_Int_part_frac_part (INR i * 0.618034)). lra.
  - symmetry. exact Hf.
Qed.

Lemma lattice_theta_finite (i : nat) :
  lattice_theta i = Fin (2 * PI * frac_part (INR i * 0.618034)).
Proof.
  unfold lattice_theta. simpl jmul at 3.
  rewrite jmod_1_nonneg.
  - simpl. rewrite frac_part_golden. f_equal. ring.
  - apply Rmult_le_pos; [apply pos_INR | lra].
Qed.

Lemma pushed_finite (count : nat) (radius : R) (i : nat) :
  (2 <= count)%nat -> (i < count)%nat ->
  let y := 1 - 2 * INR i / (INR count - 1) in
  let r := sqrt (1 - y * y) in
  let theta := 2 * PI * frac_part (INR i * 0.618034) in
  pushed count radius i =
    [Fin (cos theta * r * radius); Fin (y * radius); Fin (sin theta * r * radius)].
Proof.
  intros Hc Hi y r theta. unfold pushed.
  rewrite lattice_theta_finite, lattice_radius_finite, lattice_y_finite by done.
  reflexivity.
Qed.

Lemma on_sphere (theta y radius : R) :
  -1 <= y <= 1 -> 0 < radius ->
  let r := sqrt (1 - y * y) in
  sqrt ((cos theta * r * radius) * (cos theta * r * radius)
        + (y * radius) * (y * radius)
        + (sin theta * r * radius) * (sin theta * r * radius)) = radius.
Proof.
  intros Hy Hr r.
  assert (Hrr : r * r = 1 - y * y) by (apply sqrt_sqrt; nra).
  pose proof (sin2_cos2 theta) as Hsc. unfold Rsqr in Hsc.
  replace (_ + _ + _) with (radius * radius).
  - apply sqrt_square. lra.
  - transitivity (radius * radius * ((sin theta * sin theta + cos theta * cos theta) * (r * r) + y * y)).
    + rewrite Hsc, Hrr. ring.
    + ring.
Qed.

End ConstructionFacts.

(** C3: for a field of [count >= 2] dots and a positive radius, the
    constructor places [count] dots, dot [i] at
    [(cos theta * r, y, sin theta * r) * radius] with
    [y = 1 - 2 i / (count - 1)], [r = sqrt (1 - y^2)] and
    [theta = 2 pi frac (i * 0.618034)], and every dot lies at distance
    [radius] from the origin. *)
Theorem fibonacci_lattice_on_sphere (count : nat) (radius : R) :
  (2 <= count)%nat -> 0 < radius ->
  let ps := Construction.new count radius in
  DOT_COUNT ps = count /\
  length (originalPositions ps) = (count * 3)%nat /\
  forall i : nat, (i < count)%nat ->
    let y := 1 - 2 * INR i / (INR count - 1) in
    let r := sqrt (1 - y * y) in
    let theta := 2 * PI * frac_part (INR i * 0.618034) in
    let p := Vec3 (cos theta * r * radius) (y * radius) (sin theta * r * radius) in
    originalPositions ps !! (i * 3)%nat = Some (Fin (vx p)) /\
    originalPositions ps !! (i * 3 + 1)%nat = Some (Fin (vy p)) /\
    originalPositions ps !! (i * 3 + 2)%nat = Some (Fin (vz p)) /\
    V3.length p = radius.
Proof.
  intros Hc Hr ps.
  destruct (initParticles_fold (seq 0 count)
              (mkParticleSphere count radius [] [] [] [] [] [] []))
    as (Hcount & _ & Horig & _).
  simpl in Hcount, Horig.
  change (DOT_COUNT ps = count) in Hcount.
  change (originalPositions ps = flat_map (pushed count radius) (seq 0 count)) in Horig.
  split; [exact Hcount|]. split.
  { rewrite Horig. apply flat_map_seq_length. reflexivity. }
  intros i Hi y r theta p.
  pose proof (pushed_finite count radius i Hc Hi) as Hp. simpl in Hp.
  fold y in Hp. fold r in Hp. fold theta in Hp.
  repeat split.
  - rewrite Horig. replace (i * 3)%nat with (i * 3 + 0)%nat by lia.
    rewrite flat_map_seq_lookup by (reflexivity || lia). rewrite Hp. reflexivity.
  - rewrite Horig, flat_map_seq_lookup by (reflexivity || lia). rewrite Hp. reflexivity.
  - rewrite Horig, flat_map_seq_lookup by (reflexivity || lia). rewrite Hp. reflexivity.
  - unfold V3.length, p. simpl. apply on_sphere; [|exact Hr].
    apply lattice_y_range; assumption.
Qed.

Lemma fibonacci_lattice_on_sphere_witness :
  let ps := Construction.new 2 1 in
  DOT_COUNT ps = 2%nat /\
  length (originalPositions ps) = 6%nat /\
  forall i : nat, (i < 2)%nat ->
    let y := 1 - 2 * INR i / (INR 2 - 1) in
    let r := sqrt (1 - y * y) in
    let theta := 2 * PI * frac_part (INR i * 0.618034) in
    let p := Vec3 (cos theta * r * 1) (y * 1) (sin theta * r * 1) in
    originalPositions ps !! (i * 3)%nat = Some (Fin (vx p)) /\
    originalPositions ps !! (i * 3 + 1)%nat = Some (Fin (vy p)) /\
    originalPositions ps !! (i * 3 + 2)%nat = Some (Fin (vz p)) /\
    V3.length p = 1.
Proof.
  apply (fibonacci_lattice_on_sphere 2 1); [lia | lra].
Defined.

(** C4: with one dot the lattice formula divides zero by zero: the three
    coordinates of dot 0 are NaN, not (0, 1, 0), whatever the radius. *)
Theorem single_dot_is_NaN (radius : R) :
  originalPositions (Construction.new 1 radius) = [NaN; NaN; NaN] /\
  Construction.finiteField (Construction.new 1 radius) = None.
Proof.
  assert (Hy : Construction.lattice_y 1 0 = NaN).
  { unfold Construction.lattice_y, jdiv. simpl INR.
    destruct (Req_dec_T (1 - 1) 0) as [_|Hn]; [|lra].
    destruct (Req_dec_T 0 0) as [_|Hn]; [|lra]. reflexivity. }
  assert (Hr : Construction.lattice_radius 1 0 = NaN).
  { unfold Construction.lattice_radius. rewrite Hy. reflexivity. }
  assert (Hm : forall a, jmul a NaN = NaN) by (intros []; reflexivity).
  assert (Ho : originalPositions (Construction.new 1 radius) = [NaN; NaN; NaN]).
  { unfold Construction.new, Construction.initParticles. simpl.
    rewrite Hy, Hr, !Hm. reflexivity. }
  split; [exact Ho|].
  unfold Construction.finiteField.
  assert (Hp : positions (Construction.new 1 radius) = [NaN; NaN; NaN]).
  { unfold Construction.new, Construction.initParticles. simpl.
    rewrite Hy, Hr, !Hm. reflexivity. }
  rewrite Hp. reflexivity.
Qed.

(** ** Vectors and rotations *)

Section VectorFacts.

Lemma vec3_eq (a b : Vector3) :
  vx a = vx b -> vy a = vy b -> vz a = vz b -> a = b.
Proof. destruct a, b; simpl; intros; subst; reflexivity. Qed.

Lemma dot_self_nonneg (v : Vector3) : 0 <= V3.dot v v.
Proof. unfold V3.dot. nra. Qed.

Lemma length_dot (v : Vector3) : V3.length v = sqrt (V3.dot v v).
Proof. reflexivity. Qed.

Lemma length_sq (v : Vector3) : V3.length v * V3.length v = V3.dot v v.
Proof. rewrite length_dot. apply sqrt_sqrt, dot_self_nonneg. Qed.

Lemma length_of_sq (v : Vector3) (l : R) :
  0 <= l -> V3.dot v v = l * l -> V3.length v = l.
Proof. intros Hl H. rewrite length_dot, H. apply sqrt_square, Hl. Qed.

Lemma length_pos (v : Vector3) : 0 < V3.dot v v -> 0 < V3.length v.
Proof. intros H. rewrite length_dot. apply sqrt_lt_R0, H. Qed.

(** A vector that is not zero is normalised to unit length. *)
Lemma normalize_unit (v : Vector3) :
  V3.length v <> 0 -> V3.dot (V3.normalize v) (V3.normalize v) = 1.
Proof.
  intros Hl. unfold V3.normalize, V3.divideScalar.
  destruct (Req_dec_T (V3.length v) 0) as [E|_]; [contradiction|].
  pose proof (length_sq v) as Hs. unfold V3.dot in *. simpl.
  transitivity ((vx v * vx v + vy v * vy v + vz v * vz v)
                / (V3.length v * V3.length v)).
  - field. exact Hl.
  - rewrite Hs. field. nra.
Qed.



(** A unit quaternion rotates: lengths are kept, the conjugate undoes it,
    and the map is linear. *)
Lemma rot_dot (v : Vector3) (q : Quaternion) :
  unitQuat q ->
  V3.dot (V3.applyQuaternion v q) (V3.applyQuaternion v q) = V3.dot v v.
Proof.
  unfold unitQuat, V3.dot. destruct q as [a b c d], v as [x y z]; simpl.
  intros H. nsatz.
Qed.

Lemma rot_invert (v : Vector3) (q : Quaternion) :
  unitQuat q -> V3.applyQuaternion (V3.applyQuaternion v (invert q)) q = v.
Proof.
  unfold unitQuat. destruct q as [a b c d], v as [x y z]; simpl. intros H.
  apply vec3_eq; simpl; nsatz.
Qed.


Lemma unitQuat_invert (q : Quaternion) : unitQuat q -> unitQuat (invert q).
Proof. unfold unitQuat. destruct q; simpl. intros H. nra. Qed.

Lemma rot_sub (a b : Vector3) (q : Quaternion) :
  V3.applyQuaternion (V3.sub a b) q
  = V3.sub (V3.applyQuaternion a q) (V3.applyQuaternion b q).
Proof. apply vec3_eq; simpl; ring. Qed.

Lemma rot_length (v : Vector3) (q : Quaternion) :
  unitQuat q -> V3.length (V3.applyQuaternion v q) = V3.length v.
Proof. intros H. rewrite !length_dot, rot_dot by exact H. reflexivity. Qed.

(** The rotation of the points object is a unit quaternion. *)
Lemma setRotationY_unit (pts : Points) (ry : R) :
  unitQuat (quaternion (setRotationY pts ry)).
Proof.
  unfold unitQuat. simpl. pose proof (sin2_cos2 (ry / 2)) as H.
  unfold Rsqr in H. lra.
Qed.

End VectorFacts.

(** ** The pointer geometry resolver *)

Section Resolver.

Variable h : Host.
Variable ps : ParticleSphere.
Variable cam : Camera.
Variable pointer : Vector2.

Let ray : Ray :=
  setFromCamera h
    (Vec2 (x2 pointer / innerWidth h * 2 - 1)
          (- (y2 pointer / innerHeight h) * 2 + 1)) cam.
Let a : R := V3.dot (direction ray) (direction ray).
Let b : R := 2 * V3.dot (origin ray) (direction ray).
Let c : R := V3.dot (origin ray) (origin ray) - RADIUS ps * RADIUS ps.
Let discriminant : R := b * b - 4 * a * c.

Lemma resolver_hit :
  0 < a -> 0 < RADIUS ps -> discriminant >= 0 ->
  let t := (- b - sqrt discriminant) / (2 * a) in
  resolveCursorWorld h ps cam pointer
    = V3.add (origin ray) (V3.multiplyScalar (direction ray) t) /\
  V3.length (resolveCursorWorld h ps cam pointer) = RADIUS ps.
Proof.
  intros Ha Hr Hd t.
  assert (E : resolveCursorWorld h ps cam pointer
              = V3.add (origin ray) (V3.multiplyScalar (direction ray) t)).
  { unfold resolveCursorWorld. fold ray. fold a. fold b. fold c. fold discriminant.
    destruct (decide (discriminant >= 0)) as [_|N]; [reflexivity | contradiction]. }
  split; [exact E|]. rewrite E.
  apply length_of_sq; [lra|].
  assert (Hs : sqrt discriminant * sqrt discriminant = b * b - 4 * a * c).
  { apply sqrt_sqrt, Rge_le, Hd. }
  assert (Ht : a * t * t + b * t + c = 0).
  { transitivity ((sqrt discriminant * sqrt discriminant - (b * b - 4 * a * c))
                  / (4 * a)).
    - unfold t. field. lra.
    - rewrite Hs. field. lra. }
  transitivity (a * t * t + b * t + c + RADIUS ps * RADIUS ps); [|lra].
  unfold a, b, c, V3.dot. simpl. ring.
Qed.

Lemma resolver_miss :
  0 < a -> 0 < RADIUS ps -> origin ray = position cam -> discriminant < 0 ->
  let dir :=
    V3.normalize
      (V3.sub (V3.add (origin ray) (V3.multiplyScalar (direction ray) 5))
              (position cam)) in
  resolveCursorWorld h ps cam pointer
    = V3.add (position cam) (V3.multiplyScalar dir (RADIUS ps)) /\
  V3.dot dir dir = 1 /\
  V3.length (V3.sub (resolveCursorWorld h ps cam pointer) (position cam)) = RADIUS ps.
Proof.
  intros Ha Hr Ho Hd dir.
  assert (E : resolveCursorWorld h ps cam pointer
              = V3.add (position cam) (V3.multiplyScalar dir (RADIUS ps))).
  { unfold resolveCursorWorld. fold ray. fold a. fold b. fold c. fold discriminant.
    destruct (decide (discriminant >= 0)) as [P|_]; [lra | reflexivity]. }
  assert (Hu : V3.dot dir dir = 1).
  { apply normalize_unit. apply Rgt_not_eq, length_pos.
    rewrite Ho.
    replace (V3.dot _ _) with (25 * a); [lra|].
    unfold a, V3.dot. simpl. ring. }
  split; [exact E|]. split; [exact Hu|]. rewrite E.
  apply length_of_sq; [lra|].
  transitivity (V3.dot dir dir * (RADIUS ps * RADIUS ps)); [|rewrite Hu; ring].
  unfold V3.dot. simpl. ring.
Qed.

End Resolver.

Lemma pinholeHost_perspective : perspectiveHost pinholeHost.
Proof.
  intros ndc cam. split; [reflexivity|]. simpl.
  rewrite normalize_unit; [lra|].
  apply Rgt_not_eq, length_pos. unfold V3.dot. simpl. nra.
Qed.

Lemma poles_wf : wf poles.
Proof. split; reflexivity. Qed.

(** C5: the resolver is a total function of the pointer sample.  For a ray
    that starts at the camera, and a positive radius: when the discriminant
    is not negative the result is [origin + t * dir] for the nearer root
    [t], at distance [RADIUS] from the world origin; when it is negative the
    result is the camera position plus [RADIUS] times the normalised
    direction from the camera to the point 5 units along the ray, at
    distance [RADIUS] from the camera.  One of the two cases always
    applies. *)
Theorem resolver_postcondition (h : Host) (ps : ParticleSphere) (cam : Camera)
    (pointer : Vector2) :
  perspectiveHost h -> 0 < RADIUS ps ->
  let ray := setFromCamera h
               (Vec2 (x2 pointer / innerWidth h * 2 - 1)
                     (- (y2 pointer / innerHeight h) * 2 + 1)) cam in
  let a := V3.dot (direction ray) (direction ray) in
  let b := 2 * V3.dot (origin ray) (direction ray) in
  let c := V3.dot (origin ray) (origin ray) - RADIUS ps * RADIUS ps in
  let disc := b * b - 4 * a * c in
  let p := resolveCursorWorld h ps cam pointer in
  (disc >= 0 ->
     p = V3.add (origin ray)
           (V3.multiplyScalar (direction ray) ((- b - sqrt disc) / (2 * a))) /\
     V3.length p = RADIUS ps) /\
  (disc < 0 ->
     let dir := V3.normalize
                  (V3.sub (V3.add (origin ray) (V3.multiplyScalar (direction ray) 5))
                          (position cam)) in
     p = V3.add (position cam) (V3.multiplyScalar dir (RADIUS ps)) /\
     V3.length dir = 1 /\
     V3.length (V3.sub p (position cam)) = RADIUS ps) /\
  (disc >= 0 \/ disc < 0).
Proof.
  intros Hh Hr ray a b c disc p.
  destruct (Hh (Vec2 (x2 pointer / innerWidth h * 2 - 1)
                     (- (y2 pointer / innerHeight h) * 2 + 1)) cam) as [Ho Ha].
  split; [|split].
  - intros Hd. apply resolver_hit; assumption.
  - intros Hd dir.
    destruct (resolver_miss h ps cam pointer Ha Hr Ho Hd) as (E & Hu & Hl).
    split; [exact E|]. split; [|exact Hl].
    apply length_of_sq; [lra|]. etransitivity; [exact Hu | ring].
  - destruct (Rge_dec disc 0); [left; assumption | right; lra].
Qed.

Lemma resolver_postcondition_witness :
  perspectiveHost pinholeHost /\ 0 < RADIUS poles /\
  let pointer := Vec2 400 300 in
  let ray := setFromCamera pinholeHost
               (Vec2 (x2 pointer / innerWidth pinholeHost * 2 - 1)
                     (- (y2 pointer / innerHeight pinholeHost) * 2 + 1)) sceneCamera in
  let a := V3.dot (direction ray) (direction ray) in
  let b := 2 * V3.dot (origin ray) (direction ray) in
  let c := V3.dot (origin ray) (origin ray) - RADIUS poles * RADIUS poles in
  let disc := b * b - 4 * a * c in
  let p := resolveCursorWorld pinholeHost poles sceneCamera pointer in
  (disc >= 0 ->
     p = V3.add (origin ray)
           (V3.multiplyScalar (direction ray) ((- b - sqrt disc) / (2 * a))) /\
     V3.length p = RADIUS poles) /\
  (disc < 0 ->
     let dir := V3.normalize
                  (V3.sub (V3.add (origin ray) (V3.multiplyScalar (direction ray) 5))
                          (position sceneCamera)) in
     p = V3.add (position sceneCamera) (V3.multiplyScalar dir (RADIUS poles)) /\
     V3.length dir = 1 /\
     V3.length (V3.sub p (position sceneCamera)) = RADIUS poles) /\
  (disc >= 0 \/ disc < 0).
Proof.
  split; [exact pinholeHost_perspective|].
  split; [simpl; lra|].
  apply (resolver_postcondition pinholeHost poles sceneCamera (Vec2 400 300)).
  - exact pinholeHost_perspective.
  - simpl; lra.
Defined.

(** ** The field, dot by dot *)

Lemma dot_eq (a b : Dot) :
  offset a = offset b -> kickT a = kickT b -> timer a = timer b ->
  kickStart a = kickStart b -> kickDir a = kickDir b -> a = b.
Proof. destruct a, b; simpl; intros; subst; reflexivity. Qed.

(** Reads of arrays after assignments. *)
Ltac fields :=
  cbn [DOT_COUNT RADIUS positions originalPositions spreadOffsets spreadTimers
       spreadKickT spreadKickDir spreadKickStart st_ps touchedThisFrame
       kicksThisStep offset_set timer_set kickT_set kickDir_set kickStart_set
       offsets_set3].

Ltac lookups :=
  fields;
  repeat first
    [ rewrite list_lookup_total_insert_eq by (rewrite ?length_insert; lia)
    | rewrite list_lookup_total_insert_ne by lia ].

Ltac wf_tac H :=
  destruct H; split; fields; rewrite ?length_insert; assumption.

Ltac dot_tac :=
  apply dot_eq; cbn [dotOf offset kickT timer kickStart kickDir]; lookups;
  try reflexivity;
  try (apply vec3_eq; unfold offsetOf; cbn [vx vy vz]; lookups; try reflexivity).

Lemma sameShape_refl (ps : ParticleSphere) : sameShape ps ps.
Proof. repeat split. Qed.

Lemma sameShape_trans (a b c : ParticleSphere) :
  sameShape a b -> sameShape b c -> sameShape a c.
Proof. intros (?&?&?) (?&?&?). repeat split; congruence. Qed.

Lemma animateSpreadReturn_body_spec (ps : ParticleSphere) (i : nat) :
  wf ps -> (i < DOT_COUNT ps)%nat ->
  touchesOnly i ps (animateSpreadReturn_body ps i) /\
  dotOf (animateSpreadReturn_body ps i) i = animateDot (dotOf ps i).
Proof.
  intros Hwf Hi.
  pose proof (wf_off ps Hwf) as Hoff. pose proof (wf_timers ps Hwf) as Htm.
  pose proof (wf_kickT ps Hwf) as Hk.
  unfold animateSpreadReturn_body, animateDot. cbn [kickT timer dotOf].
  destruct (decide (spreadKickT ps !!! i < 1)) as [Hlt|Hge].
  - lookups.
    destruct (decide (spreadKickT ps !!! i + 0.035 > 1)) as [Hc|Hc].
    + split; [split; [wf_tac Hwf | split; [by repeat split|]]|].
      * intros j Hj. dot_tac.
      * dot_tac.
    + split; [split; [wf_tac Hwf | split; [by repeat split|]]|].
      * intros j Hj. dot_tac.
      * dot_tac.
  - destruct (decide (spreadTimers ps !!! i > 0)) as [Ht|Ht].
    + lookups.
      destruct (decide (spreadTimers ps !!! i - 0.017 < 0)) as [Hc|Hc].
      * split; [split; [wf_tac Hwf | split; [by repeat split|]]|].
        -- intros j Hj. dot_tac.
        -- dot_tac.
      * split; [split; [wf_tac Hwf | split; [by repeat split|]]|].
        -- intros j Hj. dot_tac.
        -- dot_tac.
    + split; [split; [wf_tac Hwf | split; [by repeat split|]]|].
      * intros j Hj. dot_tac.
      * dot_tac; unfold V3.multiplyScalar; cbn [vx vy vz]; lra.
Qed.

(** A loop over the dots whose body handles dot [i] by [g i] and leaves the
    others alone handles every dot below the bound by [g]. *)
Lemma fold_dots (f : ParticleSphere -> nat -> ParticleSphere) (g : nat -> Dot -> Dot) :
  (forall ps i, wf ps -> (i < DOT_COUNT ps)%nat ->
     touchesOnly i ps (f ps i) /\ dotOf (f ps i) i = g i (dotOf ps i)) ->
  forall (n : nat) (ps : ParticleSphere), wf ps -> (n <= DOT_COUNT ps)%nat ->
    let ps' := fold_left f (seq 0 n) ps in
    wf ps' /\ sameShape ps ps' /\
    forall j : nat,
      dotOf ps' j = if decide (j < n)%nat then g j (dotOf ps j) else dotOf ps j.
Proof.
  intros Hf n. induction n as [|n IH]; intros ps Hwf Hn.
  - simpl. split; [exact Hwf|]. split; [apply sameShape_refl|].
    intros j. destruct (decide (j < 0)%nat); [lia | reflexivity].
  - rewrite seq_S, fold_left_app. simpl.
    destruct (IH ps Hwf ltac:(lia)) as (Hwf' & Hs & Hd).
    set (ps1 := fold_left f (seq 0 n) ps) in *.
    assert (Hc : DOT_COUNT ps1 = DOT_COUNT ps) by apply Hs.
    destruct (Hf ps1 n Hwf' ltac:(lia)) as ((Hwf2 & Hs2 & Ho) & Hi).
    split; [exact Hwf2|]. split; [eapply sameShape_trans; eassumption|].
    intros j. destruct (decide (j = n)) as [->|Hne].
    + rewrite Hi, Hd.
      destruct (decide (n < n)%nat); [lia|].
      destruct (decide (n < S n)%nat); [reflexivity | lia].
    + rewrite Ho, Hd by exact Hne.
      destruct (decide (j < n)%nat), (decide (j < S n)%nat); try lia; reflexivity.
Qed.

Lemma animateSpreadReturn_spec (ps : ParticleSphere) :
  wf ps ->
  let ps' := animateSpreadReturn ps in
  wf ps' /\ sameShape ps ps' /\
  forall j : nat, (j < DOT_COUNT ps)%nat -> dotOf ps' j = animateDot (dotOf ps j).
Proof.
  intros Hwf ps'.
  destruct (fold_dots animateSpreadReturn_body (fun _ => animateDot)
              animateSpreadReturn_body_spec (DOT_COUNT ps) ps Hwf ltac:(lia))
    as (Hwf' & Hs & Hd).
  split; [exact Hwf'|]. split; [exact Hs|].
  intros j Hj. unfold ps', animateSpreadReturn. rewrite Hd.
  destruct (decide (j < DOT_COUNT ps)%nat); [reflexivity | lia].
Qed.

(** *** What one turn of the loop of [spreadDots] does to one dot *)

Lemma triple_eq {A B C : Type} (a a' : A) (b b' : B) (c c' : C) :
  a = a' -> b = b' -> c = c' -> (a, b, c) = (a', b', c').
Proof. intros; subst; reflexivity. Qed.

Lemma spreadDots_dot_spec (pointer : Vector2) (lastPointer : option Vector2)
    (q : Quaternion) (cw ic : Vector3) (st : StepState) (i : nat) :
  wf (st_ps st) -> (i < DOT_COUNT (st_ps st))%nat ->
  length (touchedThisFrame st) = DOT_COUNT (st_ps st) ->
  let st' := spreadDots_dot pointer lastPointer q cw ic st i in
  let r := spreadDot (RADIUS (st_ps st)) pointer lastPointer q cw ic
             (originalOf (st_ps st) i) (dotOf (st_ps st) i)
             (touchedThisFrame st !!! i) (kicksThisStep st) in
  touchesOnly i (st_ps st) (st_ps st') /\
  length (touchedThisFrame st') = length (touchedThisFrame st) /\
  (forall j : nat, j <> i -> touchedThisFrame st' !!! j = touchedThisFrame st !!! j) /\
  (dotOf (st_ps st') i, touchedThisFrame st' !!! i, kicksThisStep st') = r.
Proof.
  intros Hwf Hi Hlen. destruct st as [ps touched kicks]. cbn in Hwf, Hi, Hlen.
  pose proof (wf_off ps Hwf) as Hoff. pose proof (wf_timers ps Hwf) as Htm.
  pose proof (wf_kickT ps Hwf) as Hk. pose proof (wf_kickDir ps Hwf) as Hkd.
  pose proof (wf_kickStart ps Hwf) as Hks.
  unfold spreadDots_dot, spreadDot.
  cbn [st_ps touchedThisFrame kicksThisStep dotOf kickT timer offset kickStart kickDir].
  destruct (decide (spreadKickT ps !!! i < 1)) as [Hlt|Hge].
  { cbn. split; [|split; [|split]]; try reflexivity.
    split; [exact Hwf|]. split; [apply sameShape_refl | reflexivity]. }
  fold (originalOf ps i).
  set (toCursor := V3.sub (V3.applyQuaternion (originalOf ps i) q) ic).
  destruct (decide (V3.length toCursor < RADIUS ps * 0.38)) as [Hin|Hout].
  - set (exL := V3.applyQuaternion _ (invert q)).
    set (force := sqrt _ / 5).
    set (kd := V3.applyQuaternion _ (invert q)).
    clearbody exL force kd.
    destruct (bool_decide (force > 0.5) && bool_decide (kicks < MAX_KICKS_PER_STEP)%nat).
    + fields.
      split; [split; [wf_tac Hwf | split; [by repeat split|]]|].
      { intros j Hj. dot_tac. }
      split; [apply length_insert|].
      split; [intros j Hj; lookups; reflexivity|].
      apply triple_eq; [| |reflexivity].
      * dot_tac.
      * lookups. reflexivity.
    + fields.
      split; [split; [wf_tac Hwf | split; [by repeat split|]]|].
      { intros j Hj. dot_tac. }
      split; [apply length_insert|].
      split; [intros j Hj; lookups; reflexivity|].
      apply triple_eq; [| |reflexivity].
      * dot_tac.
      * lookups. reflexivity.
  - destruct (decide (V3.length toCursor < RADIUS ps * 0.38 + 0.18)) as [Hband|Hfar].
    + set (tl := V3.applyQuaternion _ (invert q)). clearbody tl.
      fields.
      split; [split; [wf_tac Hwf | split; [by repeat split|]]|].
      { intros j Hj. dot_tac. }
      split; [apply length_insert|].
      split; [intros j Hj; lookups; reflexivity|].
      apply triple_eq; [| |reflexivity].
      * dot_tac.
      * lookups. reflexivity.
    + cbn. split; [|split; [|split]]; try reflexivity.
      split; [exact Hwf|]. split; [apply sameShape_refl | reflexivity].
Qed.

(** *** Facts about one dot in one turn *)

Section SpreadDotFacts.

Variables (radius : R) (pointer : Vector2) (lastPointer : option Vector2)
  (q : Quaternion) (cw ic : Vector3) (p : Vector3).

Local Abbreviation spread := (spreadDot radius pointer lastPointer q cw ic p).

Lemma spreadDot_outOfReach (d : Dot) (t : bool) (k : nat) :
  outOfReach radius q ic p d -> spread d t k = (d, t, k).
Proof.
  intros Hfar. unfold spreadDot.
  destruct (decide (kickT d < 1)) as [|Hge]; [reflexivity|].
  destruct Hfar as [Hlt|Hfar]; [contradiction|].
  destruct (decide (_ < radius * 0.38)) as [Hin|_]; [exfalso; apply Hfar; lra|].
  destruct (decide (_ < radius * 0.38 + 0.18)) as [Hband|_]; [contradiction|].
  reflexivity.
Qed.

(** A turn either leaves the kick progress and the counter alone, or it
    kicks: the counter was below the cap and goes up by one, the dot was
    not in a kick and its progress is set to zero. *)
Lemma spreadDot_kicks (d d' : Dot) (t t' : bool) (k k' : nat) :
  spread d t k = (d', t', k') ->
  (k' = k /\ kickT d' = kickT d) \/
  (k' = S k /\ (k < MAX_KICKS_PER_STEP)%nat /\ ~ kickT d < 1 /\ kickT d' = 0).
Proof.
  unfold spreadDot.
  destruct (decide (kickT d < 1)) as [|Hge]; [intros [= <- <- <-]; left; done|].
  destruct (decide (_ < radius * 0.38)) as [Hin|_].
  - destruct (bool_decide (_ > 0.5)) eqn:Hf; cbn [andb].
    + destruct (bool_decide (k < MAX_KICKS_PER_STEP)%nat) eqn:Hk.
      * apply bool_decide_eq_true in Hk.
        intros [= <- <- <-]. right. done.
      * intros [= <- <- <-]. left. done.
    + intros [= <- <- <-]. left. done.
  - destruct (decide (_ < radius * 0.38 + 0.18)) as [Hband|_];
      intros [= <- <- <-]; left; done.
Qed.

Lemma spreadDot_regimeOk (d d' : Dot) (t t' : bool) (k k' : nat) :
  spread d t k = (d', t', k') -> regimeOk d -> regimeOk d'.
Proof.
  unfold spreadDot, regimeOk.
  destruct (decide (kickT d < 1)) as [|Hge]; [intros [= <- <- <-]; done|].
  destruct (decide (_ < radius * 0.38)) as [Hin|_].
  - destruct (_ && _); intros [= <- <- <-]; cbn; lra.
  - destruct (decide (_ < radius * 0.38 + 0.18)) as [Hband|_];
      intros [= <- <- <-]; cbn; lra.
Qed.

End SpreadDotFacts.

(** *** One interpolation step *)

Section StepFacts.

Variables (pointer : Vector2) (lastPointer : option Vector2)
  (q : Quaternion) (cw ic : Vector3).

Local Abbreviation body := (spreadDots_dot pointer lastPointer q cw ic).

Lemma sameShape_originalOf (ps ps' : ParticleSphere) (j : nat) :
  sameShape ps ps' -> originalOf ps' j = originalOf ps j.
Proof. intros (_ & _ & H). unfold originalOf. rewrite H. reflexivity. Qed.

Lemma inner_loop_spec (ps : ParticleSphere) (touched : list bool) (n : nat) :
  wf ps -> length touched = DOT_COUNT ps -> (n <= DOT_COUNT ps)%nat ->
  let st := fold_left body (seq 0 n) (mkStep ps touched 0) in
  wf (st_ps st) /\ sameShape ps (st_ps st) /\
  length (touchedThisFrame st) = DOT_COUNT ps /\
  (forall j : nat, (n <= j)%nat ->
     dotOf (st_ps st) j = dotOf ps j /\
     touchedThisFrame st !!! j = touched !!! j) /\
  (forall j : nat, (j < n)%nat ->
     spreadDot (RADIUS ps) pointer lastPointer q cw ic
       (originalOf ps j) (dotOf ps j) (touched !!! j)
       (kicksThisStep (fold_left body (seq 0 j) (mkStep ps touched 0)))
     = (dotOf (st_ps st) j, touchedThisFrame st !!! j,
        kicksThisStep (fold_left body (seq 0 (S j)) (mkStep ps touched 0)))) /\
  (kicksThisStep st <= MAX_KICKS_PER_STEP)%nat /\
  length (List.filter (enteredKicking ps (st_ps st)) (seq 0 n)) = kicksThisStep st.
Proof.
  intros Hwf Hlen. induction n as [|n IH]; intros Hn.
  - cbn. split; [exact Hwf|]. split; [apply sameShape_refl|].
    split; [exact Hlen|]. split; [done|]. split; [intros; lia|].
    unfold MAX_KICKS_PER_STEP. split; [lia | reflexivity].
  - rewrite seq_S, fold_left_app. cbn [fold_left Nat.add].
    destruct (IH ltac:(lia)) as (Hwf1 & Hs1 & Hl1 & Hrest & Hdone & Hcap & Hcount).
    set (st1 := fold_left body (seq 0 n) (mkStep ps touched 0)) in *.
    assert (Hc1 : DOT_COUNT (st_ps st1) = DOT_COUNT ps) by apply Hs1.
    destruct (spreadDots_dot_spec pointer lastPointer q cw ic st1 n Hwf1
                ltac:(lia) ltac:(lia)) as ((Hwf2 & Hs2 & Ho) & Hl2 & Ht2 & Hr).
    set (st2 := body st1 n) in *.
    assert (Hs : sameShape ps (st_ps st2)) by (eapply sameShape_trans; eassumption).
    destruct (Hrest n ltac:(lia)) as [Hdn Htn].
    rewrite (sameShape_originalOf ps (st_ps st1) n Hs1) in Hr.
    assert (HR : RADIUS (st_ps st1) = RADIUS ps) by apply Hs1.
    rewrite HR, Hdn, Htn in Hr.
    split; [exact Hwf2|]. split; [exact Hs|]. split; [lia|].
    split; [|split; [|split]].
    + intros j Hj. destruct (Hrest j ltac:(lia)) as [Hd Ht].
      rewrite Ho, Ht2 by lia. done.
    + intros j Hj. destruct (decide (j = n)) as [->|Hne].
      * rewrite (seq_S n 0), fold_left_app. symmetry. exact Hr.
      * rewrite Ho, Ht2 by exact Hne. apply Hdone. lia.
    + symmetry in Hr. destruct (spreadDot_kicks _ _ _ _ _ _ _ _ _ _ _ _ _ Hr)
        as [[-> _]|(-> & Hlt & _)]; [exact Hcap|].
      unfold MAX_KICKS_PER_STEP in *. lia.
    + rewrite List.filter_app, length_app.
      assert (Hsame : List.filter (enteredKicking ps (st_ps st2)) (seq 0 n)
                      = List.filter (enteredKicking ps (st_ps st1)) (seq 0 n)).
      { apply List.filter_ext_in. intros j Hj. apply in_seq in Hj.
        unfold enteredKicking.
        assert (E : dotOf (st_ps st2) j = dotOf (st_ps st1) j) by (apply Ho; lia).
        apply (f_equal kickT) in E. cbn in E. rewrite E. reflexivity. }
      rewrite Hsame, Hcount. cbn [List.filter].
      symmetry in Hr. unfold enteredKicking.
      assert (Ekn : spreadKickT (st_ps st2) !!! n = kickT (dotOf (st_ps st2) n))
        by reflexivity.
      assert (Ek0 : spreadKickT ps !!! n = kickT (dotOf ps n)) by reflexivity.
      rewrite Ekn, Ek0.
      destruct (spreadDot_kicks _ _ _ _ _ _ _ _ _ _ _ _ _ Hr)
        as [[-> Hkeep]|(-> & Hlt & Hnot & Hzero)].
      * rewrite Hkeep.
        destruct (bool_decide (¬ kickT (dotOf ps n) < 1)) eqn:E1;
          destruct (bool_decide (kickT (dotOf ps n) < 1)) eqn:E2; cbn; try lia.
        apply bool_decide_eq_true in E1, E2. contradiction.
      * rewrite Hzero.
        rewrite (bool_decide_eq_true_2 _ Hnot).
        rewrite (bool_decide_eq_true_2 (0 < 1) ltac:(lra)). cbn. lia.
Qed.

End StepFacts.

(** *** The pass over the steps, and the whole of [spreadDots] *)

Section PassFacts.

Variables (pointer : Vector2) (lastPointer : option Vector2)
  (q : Quaternion) (prev : option Vector3) (cw : Vector3).

Local Abbreviation pass := (spreadDots_pass pointer lastPointer q prev cw).

Lemma spreadDots_step_spec (ps : ParticleSphere) (touched : list bool) (s : nat) :
  wf ps -> length touched = DOT_COUNT ps ->
  let st := spreadDots_step pointer lastPointer q prev cw ps touched s in
  wf (st_ps st) /\ sameShape ps (st_ps st) /\
  length (touchedThisFrame st) = DOT_COUNT ps /\
  (allDots regimeOk ps -> allDots regimeOk (st_ps st)) /\
  (forall j : nat, (j < DOT_COUNT ps)%nat -> outOfReachAt q prev cw ps j s ->
     dotOf (st_ps st) j = dotOf ps j /\ touchedThisFrame st !!! j = touched !!! j) /\
  (length (newKicks ps (st_ps st)) <= MAX_KICKS_PER_STEP)%nat.
Proof.
  intros Hwf Hlen st.
  destruct (inner_loop_spec pointer lastPointer q cw (interpCursorAt prev cw s)
              ps touched (DOT_COUNT ps) Hwf Hlen ltac:(lia))
    as (Hwf' & Hs & Hl & _ & Hdone & Hcap & Hcount).
  fold (spreadDots_step pointer lastPointer q prev cw ps touched s) in *.
  fold st in Hwf', Hs, Hl, Hdone, Hcap, Hcount.
  assert (Hc : DOT_COUNT (st_ps st) = DOT_COUNT ps) by apply Hs.
  split; [exact Hwf'|]. split; [exact Hs|]. split; [exact Hl|].
  split; [|split].
  - intros Hall j Hj. rewrite Hc in Hj.
    eapply spreadDot_regimeOk; [exact (Hdone j Hj) | apply Hall, Hj].
  - intros j Hj Hfar. pose proof (Hdone j Hj) as Hk.
    rewrite spreadDot_outOfReach in Hk by exact Hfar.
    pose proof (f_equal (fun x => fst (fst x)) Hk) as E1.
    pose proof (f_equal (fun x => snd (fst x)) Hk) as E2.
    cbn [fst snd] in E1, E2. split; congruence.
  - unfold newKicks. rewrite Hcount. exact Hcap.
Qed.

Lemma spreadDots_pass_spec (ss : list nat) (ps : ParticleSphere) (touched : list bool) :
  wf ps -> length touched = DOT_COUNT ps ->
  let r := pass ss (ps, touched) in
  wf (fst r) /\ sameShape ps (fst r) /\ length (snd r) = DOT_COUNT ps /\
  (allDots regimeOk ps -> allDots regimeOk (fst r)) /\
  (forall j : nat, (j < DOT_COUNT ps)%nat ->
     (forall s : nat, In s ss -> outOfReachAt q prev cw ps j s) ->
     dotOf (fst r) j = dotOf ps j /\ snd r !!! j = touched !!! j).
Proof.
  revert ps touched. induction ss as [|s ss IH]; intros ps touched Hwf Hlen.
  - cbn. split; [exact Hwf|]. split; [apply sameShape_refl|]. split; [exact Hlen|].
    split; [done|]. done.
  - cbn [spreadDots_pass fold_left fst snd].
    destruct (spreadDots_step_spec ps touched s Hwf Hlen)
      as (Hwf1 & Hs1 & Hl1 & Hinv1 & Hfar1 & _).
    set (st := spreadDots_step pointer lastPointer q prev cw ps touched s) in *.
    assert (Hc : DOT_COUNT (st_ps st) = DOT_COUNT ps) by apply Hs1.
    destruct (IH (st_ps st) (touchedThisFrame st) Hwf1 ltac:(lia))
      as (Hwf2 & Hs2 & Hl2 & Hinv2 & Hfar2).
    fold (pass ss (st_ps st, touchedThisFrame st)).
    set (r := pass ss (st_ps st, touchedThisFrame st)) in *.
    split; [exact Hwf2|]. split; [eapply sameShape_trans; eassumption|].
    split; [lia|]. split; [tauto|].
    intros j Hj Hfar.
    assert (Hfs : outOfReachAt q prev cw ps j s) by (apply Hfar; left; reflexivity).
    destruct (Hfar1 j Hj Hfs) as [Hd1 Ht1].
    assert (Hj2 : (j < DOT_COUNT (st_ps st))%nat) by lia.
    assert (Hfar' : forall s' : nat, In s' ss -> outOfReachAt q prev cw (st_ps st) j s').
    { intros s' Hs'. unfold outOfReachAt.
      rewrite Hd1, (sameShape_originalOf ps (st_ps st) j Hs1).
      replace (RADIUS (st_ps st)) with (RADIUS ps) by (symmetry; apply Hs1).
      apply Hfar. right. exact Hs'. }
    destruct (Hfar2 j Hj2 Hfar') as [Hd2 Ht2].
    rewrite Hd2, Ht2. done.
Qed.

End PassFacts.

Lemma resetUntouched_spec (touched : list bool) (ps : ParticleSphere) (i : nat) :
  wf ps -> (i < DOT_COUNT ps)%nat ->
  touchesOnly i ps (resetUntouched touched ps i) /\
  dotOf (resetUntouched touched ps i) i
  = (if (touched !!! i : bool) then dotOf ps i else resetTimer (dotOf ps i)).
Proof.
  intros Hwf Hi. pose proof (wf_timers ps Hwf) as Htm.
  unfold resetUntouched. destruct (touched !!! i); cbn [negb].
  - split; [|reflexivity]. split; [exact Hwf|]. split; [apply sameShape_refl|done].
  - split; [split; [wf_tac Hwf | split; [by repeat split|]]|].
    + intros j Hj. dot_tac.
    + unfold resetTimer. dot_tac.
Qed.

Lemma regimeOk_resetTimer (d : Dot) : regimeOk d -> regimeOk (resetTimer d).
Proof. unfold regimeOk. cbn. lra. Qed.

Section SpreadDotsFacts.

Variables (h : Host) (pointer : Vector2) (lastPointer : option Vector2)
  (lastPointerEvent : bool) (pts : Points) (cam : Camera).

Lemma spreadDots_spec (ps : ParticleSphere) :
  wf ps ->
  let ps' := spreadDots h ps pointer lastPointer lastPointerEvent pts cam in
  wf ps' /\ sameShape ps ps' /\
  (allDots regimeOk ps -> allDots regimeOk ps') /\
  (forall j : nat, (j < DOT_COUNT ps)%nat ->
     outOfReachInFrame h pointer lastPointer lastPointerEvent pts cam ps j ->
     dotOf ps' j = resetTimer (dotOf ps j)).
Proof.
  intros Hwf ps'. unfold spreadDots in ps'.
  set (cw := resolveCursorWorld h ps cam pointer) in *.
  set (prev := prevCursorWorldOf h ps cam lastPointer lastPointerEvent) in *.
  destruct (spreadDots_pass_spec pointer lastPointer (quaternion pts) prev cw
              (seq 0 (steps + 1)) ps (replicate (DOT_COUNT ps) false) Hwf
              ltac:(apply length_replicate))
    as (Hwf1 & Hs1 & Hl1 & Hinv1 & Hfar1).
  set (r := spreadDots_pass pointer lastPointer (quaternion pts) prev cw
              (seq 0 (steps + 1)) (ps, replicate (DOT_COUNT ps) false)) in *.
  assert (Hc : DOT_COUNT (fst r) = DOT_COUNT ps) by apply Hs1.
  destruct (fold_dots (resetUntouched (snd r))
              (fun j d => if (snd r !!! j : bool) then d else resetTimer d)
              (resetUntouched_spec (snd r)) (DOT_COUNT ps) (fst r) Hwf1 ltac:(lia))
    as (Hwf2 & Hs2 & Hd2).
  fold ps' in Hwf2, Hs2, Hd2.
  split; [exact Hwf2|]. split; [eapply sameShape_trans; eassumption|].
  split.
  - intros Hall j Hj.
    assert (Hc2 : DOT_COUNT ps' = DOT_COUNT ps)
      by (destruct Hs2 as (-> & _); exact Hc).
    rewrite Hc2 in Hj. rewrite Hd2.
    destruct (decide (j < DOT_COUNT ps)%nat); [|lia].
    pose proof (Hinv1 Hall j ltac:(lia)) as Hok.
    destruct (snd r !!! j); [exact Hok | apply regimeOk_resetTimer, Hok].
  - intros j Hj Hfar. rewrite Hd2.
    destruct (decide (j < DOT_COUNT ps)%nat); [|lia].
    assert (Hall : forall s : nat, In s (seq 0 (steps + 1)) ->
                     outOfReachAt (quaternion pts) prev cw ps j s).
    { intros s Hs. apply in_seq in Hs. apply Hfar. lia. }
    destruct (Hfar1 j Hj Hall) as [Hd Ht].
    rewrite Ht, lookup_total_replicate_2, Hd by exact Hj. reflexivity.
Qed.

End SpreadDotsFacts.

(** *** update, on the field *)

Lemma update_field (h : Host) (sv : Service) (p : FrameParams) :
  particleSphere (fst (update h sv p))
  = match pointer p, points p, camera p with
    | Some ptr, Some pts, Some cam =>
        spreadDots h (animateSpreadReturn (particleSphere sv)) ptr
          (lastPointer p) (lastPointerEvent p) pts cam
    | _, _, _ => animateSpreadReturn (particleSphere sv)
    end.
Proof. unfold update. destruct (points p); reflexivity. Qed.

Lemma update_morph (h : Host) (sv : Service) (p : FrameParams) :
  morphLerp (fst (update h sv p))
    = morphLerp sv + (morphTarget sv - morphLerp sv) * 0.05 /\
  morphTarget (fst (update h sv p)) = morphTarget sv /\
  enableMorph (fst (update h sv p)) = enableMorph sv.
Proof. unfold update. destruct (points p); cbn; done. Qed.

Lemma update_spec (h : Host) (sv : Service) (p : FrameParams) :
  wf (particleSphere sv) ->
  let ps' := particleSphere (fst (update h sv p)) in
  wf ps' /\ sameShape (particleSphere sv) ps' /\
  (allDots regimeOk (particleSphere sv) -> allDots regimeOk ps').
Proof.
  intros Hwf ps'. unfold ps'. rewrite update_field.
  destruct (animateSpreadReturn_spec (particleSphere sv) Hwf) as (Hwf1 & Hs1 & Hd1).
  assert (Hinv1 : allDots regimeOk (particleSphere sv) ->
                  allDots regimeOk (animateSpreadReturn (particleSphere sv))).
  { intros Hall j Hj.
    assert (Hj' : (j < DOT_COUNT (particleSphere sv))%nat)
      by (destruct Hs1 as (<- & _); exact Hj).
    rewrite Hd1 by exact Hj'. specialize (Hall j Hj').
    revert Hall. generalize (dotOf (particleSphere sv) j). intros d [Hk Ht].
    unfold animateDot, regimeOk.
    repeat (destruct (decide _)); cbn; lra. }
  destruct (pointer p) as [ptr|]; [|tauto].
  destruct (points p) as [pts|]; [|tauto].
  destruct (camera p) as [cam|]; [|tauto].
  destruct (spreadDots_spec h ptr (lastPointer p) (lastPointerEvent p) pts cam
              (animateSpreadReturn (particleSphere sv)) Hwf1) as (Hwf2 & Hs2 & Hinv2 & _).
  split; [exact Hwf2|]. split; [eapply sameShape_trans; eassumption | tauto].
Qed.

(** ** The kick animation *)

Lemma easeInOutSine_0 : easeInOutSine 0 = 0.
Proof. unfold easeInOutSine. rewrite Rmult_0_r, cos_0. lra. Qed.

Lemma easeInOutSine_1 : easeInOutSine 1 = 1.
Proof. unfold easeInOutSine. rewrite Rmult_1_r, cos_PI. lra. Qed.

(** A dot in its kick after [animateSpreadReturn]. *)
Lemma animateDot_kicking (d : Dot) :
  kickT d < 1 ->
  let t' := Rmin (kickT d + 0.035) 1 in
  animateDot d
  = mkDot (V3.add (kickStart d) (V3.multiplyScalar (kickDir d) (easeInOutSine t')))
          t' (timer d) (kickStart d) (kickDir d).
Proof.
  intros Hlt t'. unfold animateDot.
  destruct (decide (kickT d < 1)) as [_|N]; [|contradiction].
  assert (E : (if decide (kickT d + 0.035 > 1) then 1 else kickT d + 0.035) = t').
  { unfold t', Rmin. destruct (decide (kickT d + 0.035 > 1)) as [Hc|Hc];
      destruct (Rle_dec (kickT d + 0.035) 1); lra. }
  rewrite E. reflexivity.
Qed.

Lemma animateDot_held (d : Dot) :
  ~ kickT d < 1 -> timer d > 0 ->
  animateDot d
  = mkDot (offset d) (kickT d) (Rmax (timer d - 0.017) 0) (kickStart d) (kickDir d).
Proof.
  intros Hge Ht. unfold animateDot.
  destruct (decide (kickT d < 1)) as [|_]; [contradiction|].
  destruct (decide (timer d > 0)) as [_|N]; [|contradiction].
  f_equal. unfold Rmax.
  destruct (decide (timer d - 0.017 < 0)); destruct (Rle_dec (timer d - 0.017) 0); lra.
Qed.

Lemma animateDot_rest (d : Dot) :
  ~ kickT d < 1 -> ~ timer d > 0 ->
  animateDot d
  = mkDot (V3.multiplyScalar (offset d) 0.97) (kickT d) (timer d)
          (kickStart d) (kickDir d).
Proof.
  intros Hge Ht. unfold animateDot.
  destruct (decide (kickT d < 1)) as [|_]; [contradiction|].
  destruct (decide (timer d > 0)) as [|_]; [contradiction|]. reflexivity.
Qed.

(** [update] on a dot that no cursor sample reaches. *)
Lemma update_outOfReach (h : Host) (sv : Service) (p : FrameParams) (j : nat) :
  wf (particleSphere sv) -> (j < DOT_COUNT (particleSphere sv))%nat ->
  match pointer p, points p, camera p with
  | Some ptr, Some pts, Some cam =>
      outOfReachInFrame h ptr (lastPointer p) (lastPointerEvent p) pts cam
        (animateSpreadReturn (particleSphere sv)) j
  | _, _, _ => True
  end ->
  dotOf (particleSphere (fst (update h sv p))) j
  = (if pointerPassRuns p
     then resetTimer (animateDot (dotOf (particleSphere sv) j))
     else animateDot (dotOf (particleSphere sv) j)).
Proof.
  intros Hwf Hj Hquiet. rewrite update_field. unfold pointerPassRuns.
  destruct (animateSpreadReturn_spec (particleSphere sv) Hwf) as (Hwf1 & Hs1 & Hd1).
  destruct (pointer p) as [ptr|]; [|apply Hd1, Hj].
  destruct (points p) as [pts|]; [|apply Hd1, Hj].
  destruct (camera p) as [cam|]; [|apply Hd1, Hj].
  destruct (spreadDots_spec h ptr (lastPointer p) (lastPointerEvent p) pts cam
              (animateSpreadReturn (particleSphere sv)) Hwf1) as (_ & _ & _ & Hfar).
  assert (Hj1 : (j < DOT_COUNT (animateSpreadReturn (particleSphere sv)))%nat)
    by (destruct Hs1 as (-> & _); exact Hj).
  rewrite (Hfar j Hj1 Hquiet), Hd1 by exact Hj. reflexivity.
Qed.

Lemma polesKicked_wf : wf polesKicked.
Proof. split; reflexivity. Qed.

(** C7: for a dot in its kick, [animateSpreadReturn] advances the kick
    progress by 0.035, capped at 1, so that it does not decrease and stays
    at most 1, and sets the offset to
    [kickStart + kickDir * easeInOutSine kickProgress]; as long as the
    progress is below 1 the rest of the frame update leaves it, the offset
    and the two endpoints alone.  The ease curve is 0 at 0 and 1 at 1. *)
Theorem kick_progress (h : Host) (sv : Service) (p : FrameParams) (i : nat) :
  wf (particleSphere sv) -> (i < DOT_COUNT (particleSphere sv))%nat ->
  kickT (dotOf (particleSphere sv) i) < 1 ->
  let d := dotOf (particleSphere sv) i in
  let d1 := dotOf (animateSpreadReturn (particleSphere sv)) i in
  let d' := dotOf (particleSphere (fst (update h sv p))) i in
  let t' := Rmin (kickT d + 0.035) 1 in
  easeInOutSine 0 = 0 /\ easeInOutSine 1 = 1 /\
  kickT d1 = t' /\ kickT d <= t' <= 1 /\
  offset d1 = V3.add (kickStart d) (V3.multiplyScalar (kickDir d) (easeInOutSine t')) /\
  kickStart d1 = kickStart d /\ kickDir d1 = kickDir d /\
  (t' < 1 ->
     kickT d' = t' /\
     offset d' = V3.add (kickStart d) (V3.multiplyScalar (kickDir d) (easeInOutSine t')) /\
     kickStart d' = kickStart d /\ kickDir d' = kickDir d).
Proof.
  intros Hwf Hi Hlt d d1 d' t'.
  destruct (animateSpreadReturn_spec (particleSphere sv) Hwf) as (Hwf1 & Hs1 & Hd1).
  assert (E1 : d1 = animateDot d) by (apply Hd1, Hi).
  rewrite (animateDot_kicking d Hlt) in E1. fold t' in E1.
  split; [exact easeInOutSine_0|]. split; [exact easeInOutSine_1|].
  rewrite E1. cbn [kickT offset kickStart kickDir].
  split; [reflexivity|]. split.
  { unfold t', Rmin. fold d in Hlt.
    destruct (Rle_dec (kickT d + 0.035) 1); lra. }
  split; [reflexivity|]. split; [reflexivity|]. split; [reflexivity|].
  intros Ht'.
  assert (E' : d' = if pointerPassRuns p then resetTimer d1 else d1).
  { unfold d', d1. rewrite Hd1 by exact Hi. apply update_outOfReach; [exact Hwf | exact Hi |].
    destruct (pointer p) as [ptr|]; [|exact I].
    destruct (points p) as [pts|]; [|exact I].
    destruct (camera p) as [cam|]; [|exact I].
    intros s Hs. left. fold d1. rewrite E1. exact Ht'. }
  rewrite E', E1. destruct (pointerPassRuns p); cbn; done.
Qed.

Lemma kick_progress_witness :
  wf (particleSphere (newService polesKicked)) /\
  (0 < DOT_COUNT (particleSphere (newService polesKicked)))%nat /\
  kickT (dotOf (particleSphere (newService polesKicked)) 0) < 1 /\
  let d := dotOf (particleSphere (newService polesKicked)) 0 in
  let d1 := dotOf (animateSpreadReturn (particleSphere (newService polesKicked))) 0 in
  let d' := dotOf (particleSphere
                     (fst (update pinholeHost (newService polesKicked) idleFrame))) 0 in
  let t' := Rmin (kickT d + 0.035) 1 in
  easeInOutSine 0 = 0 /\ easeInOutSine 1 = 1 /\
  kickT d1 = t' /\ kickT d <= t' <= 1 /\
  offset d1 = V3.add (kickStart d) (V3.multiplyScalar (kickDir d) (easeInOutSine t')) /\
  kickStart d1 = kickStart d /\ kickDir d1 = kickDir d /\
  (t' < 1 ->
     kickT d' = t' /\
     offset d' = V3.add (kickStart d) (V3.multiplyScalar (kickDir d) (easeInOutSine t')) /\
     kickStart d' = kickStart d /\ kickDir d' = kickDir d).
Proof.
  split; [exact polesKicked_wf|].
  split; [simpl; lia|].
  split; [simpl; lra|].
  apply (kick_progress pinholeHost (newService polesKicked) idleFrame 0).
  - exact polesKicked_wf.
  - simpl; lia.
  - simpl; lra.
Defined.

(** ** A frame without a pointer *)

Lemma newKicks_nil (ps ps' : ParticleSphere) :
  (forall j : nat, (j < DOT_COUNT ps)%nat ->
     ~ kickT (dotOf ps j) < 1 -> ~ kickT (dotOf ps' j) < 1) ->
  newKicks ps ps' = [].
Proof.
  intros H. unfold newKicks.
  assert (G : forall l : list nat, (forall j, In j l -> (j < DOT_COUNT ps)%nat) ->
                List.filter (enteredKicking ps ps') l = []).
  { induction l as [|j l IH]; intros Hl; [reflexivity|].
    cbn [List.filter]. rewrite IH by (intros; apply Hl; right; assumption).
    unfold enteredKicking.
    destruct (bool_decide (¬ spreadKickT ps !!! j < 1)) eqn:E1; [|reflexivity].
    apply bool_decide_eq_true in E1.
    rewrite bool_decide_eq_false_2; [reflexivity|].
    apply (H j); [apply Hl; left; reflexivity | exact E1]. }
  apply G. intros j Hj. apply in_seq in Hj. lia.
Qed.

(** C10: when the pointer, the points or the camera is missing, [update]
    leaves the field as [animateSpreadReturn] made it and eases [morphLerp]:
    dot by dot, the endpoints of the kick are kept; a dot in its kick
    advances; a dot that holds has its timer lowered by 0.017, not below 0;
    a dot at rest has its offset scaled by 0.97.  No dot enters a kick, no
    timer is set apart from the decrement.  (Without [points] the call then
    ends in a TypeError, after these changes.) *)
Theorem update_without_pointer (h : Host) (sv : Service) (p : FrameParams) :
  wf (particleSphere sv) ->
  pointer p = None \/ points p = None \/ camera p = None ->
  let ps := particleSphere sv in
  let sv' := fst (update h sv p) in
  let ps' := particleSphere sv' in
  ps' = animateSpreadReturn ps /\
  morphLerp sv' = morphLerp sv + (morphTarget sv - morphLerp sv) * 0.05 /\
  morphTarget sv' = morphTarget sv /\
  sameShape ps ps' /\
  (points p = None -> snd (update h sv p) = ThrowTypeError) /\
  newKicks ps ps' = [] /\
  forall i : nat, (i < DOT_COUNT ps)%nat ->
    let d := dotOf ps i in
    let d' := dotOf ps' i in
    kickStart d' = kickStart d /\ kickDir d' = kickDir d /\
    (kickT d < 1 ->
       kickT d' = Rmin (kickT d + 0.035) 1 /\
       offset d' = V3.add (kickStart d)
                     (V3.multiplyScalar (kickDir d) (easeInOutSine (kickT d'))) /\
       timer d' = timer d) /\
    (~ kickT d < 1 -> timer d > 0 ->
       kickT d' = kickT d /\ timer d' = Rmax (timer d - 0.017) 0 /\
       offset d' = offset d) /\
    (~ kickT d < 1 -> ~ timer d > 0 ->
       kickT d' = kickT d /\ timer d' = timer d /\
       offset d' = V3.multiplyScalar (offset d) 0.97).
Proof.
  intros Hwf Hnone ps sv' ps'.
  assert (E : ps' = animateSpreadReturn ps).
  { unfold ps', sv'. rewrite update_field. fold ps.
    destruct Hnone as [-> | [-> | ->]]; [reflexivity | |].
    - destruct (pointer p); reflexivity.
    - destruct (pointer p); [destruct (points p)|]; reflexivity. }
  destruct (update_morph h sv p) as (Hl & Ht & _).
  destruct (animateSpreadReturn_spec ps Hwf) as (Hwf1 & Hs1 & Hd1).
  assert (Hdots : forall i : nat, (i < DOT_COUNT ps)%nat ->
            let d := dotOf ps i in
            let d' := dotOf ps' i in
            kickStart d' = kickStart d /\ kickDir d' = kickDir d /\
            (kickT d < 1 ->
               kickT d' = Rmin (kickT d + 0.035) 1 /\
               offset d' = V3.add (kickStart d)
                             (V3.multiplyScalar (kickDir d) (easeInOutSine (kickT d'))) /\
               timer d' = timer d) /\
            (~ kickT d < 1 -> timer d > 0 ->
               kickT d' = kickT d /\ timer d' = Rmax (timer d - 0.017) 0 /\
               offset d' = offset d) /\
            (~ kickT d < 1 -> ~ timer d > 0 ->
               kickT d' = kickT d /\ timer d' = timer d /\
               offset d' = V3.multiplyScalar (offset d) 0.97)).
  { intros i Hi d d'. assert (Ed : d' = animateDot d) by (unfold d'; rewrite E; apply Hd1, Hi).
    destruct (decide (kickT d < 1)) as [Hk|Hk].
    - rewrite (animateDot_kicking d Hk) in Ed. rewrite Ed. cbn. repeat split; tauto.
    - destruct (decide (timer d > 0)) as [Hh|Hh].
      + rewrite (animateDot_held d Hk Hh) in Ed. rewrite Ed. cbn. repeat split; tauto.
      + rewrite (animateDot_rest d Hk Hh) in Ed. rewrite Ed. cbn. repeat split; tauto. }
  split; [exact E|]. split; [exact Hl|]. split; [exact Ht|].
  split; [rewrite E; exact Hs1|].
  split; [intros Hp; unfold update; rewrite Hp; reflexivity|].
  split; [|exact Hdots].
  apply newKicks_nil. intros j Hj Hge.
  destruct (Hdots j Hj) as (_ & _ & _ & Hheld & Hrest).
  destruct (decide (timer (dotOf ps j) > 0)) as [Hh|Hh].
  - destruct (Hheld Hge Hh) as (-> & _). exact Hge.
  - destruct (Hrest Hge Hh) as (-> & _). exact Hge.
Qed.

Lemma update_without_pointer_witness :
  wf (particleSphere (newService polesKicked)) /\
  (pointer idleFrame = None \/ points idleFrame = None \/ camera idleFrame = None) /\
  let ps := particleSphere (newService polesKicked) in
  let sv' := fst (update pinholeHost (newService polesKicked) idleFrame) in
  let ps' := particleSphere sv' in
  ps' = animateSpreadReturn ps /\
  morphLerp sv' = morphLerp (newService polesKicked)
                  + (morphTarget (newService polesKicked)
                     - morphLerp (newService polesKicked)) * 0.05 /\
  morphTarget sv' = morphTarget (newService polesKicked) /\
  sameShape ps ps' /\
  (points idleFrame = None ->
     snd (update pinholeHost (newService polesKicked) idleFrame) = ThrowTypeError) /\
  newKicks ps ps' = [] /\
  forall i : nat, (i < DOT_COUNT ps)%nat ->
    let d := dotOf ps i in
    let d' := dotOf ps' i in
    kickStart d' = kickStart d /\ kickDir d' = kickDir d /\
    (kickT d < 1 ->
       kickT d' = Rmin (kickT d + 0.035) 1 /\
       offset d' = V3.add (kickStart d)
                     (V3.multiplyScalar (kickDir d) (easeInOutSine (kickT d'))) /\
       timer d' = timer d) /\
    (~ kickT d < 1 -> timer d > 0 ->
       kickT d' = kickT d /\ timer d' = Rmax (timer d - 0.017) 0 /\
       offset d' = offset d) /\
    (~ kickT d < 1 -> ~ timer d > 0 ->
       kickT d' = kickT d /\ timer d' = timer d /\
       offset d' = V3.multiplyScalar (offset d) 0.97).
Proof.
  split; [exact polesKicked_wf|].
  split; [left; reflexivity|].
  apply (update_without_pointer pinholeHost (newService polesKicked) idleFrame).
  - exact polesKicked_wf.
  - left; reflexivity.
Defined.

(** ** The cap on the kicks of a step *)

(** C6: in the pass that [spreadDots] runs over the 13 samples, every step
    kicks at most 2 dots, however many dots are inside the zone: the dots
    whose kick progress the step takes from 1 to below 1 are as many as the
    counter of the step says, and the counter never passes 2. *)
Theorem kick_cap_per_step (h : Host) (ps : ParticleSphere) (ptr : Vector2)
    (lastPtr : option Vector2) (lastEvent : bool) (pts : Points) (cam : Camera)
    (s : nat) :
  wf ps -> (s <= steps)%nat ->
  let cw := resolveCursorWorld h ps cam ptr in
  let prev := prevCursorWorldOf h ps cam lastPtr lastEvent in
  let q := quaternion pts in
  let before :=
    spreadDots_pass ptr lastPtr q prev cw (seq 0 s)
      (ps, replicate (DOT_COUNT ps) false) in
  let st := spreadDots_step ptr lastPtr q prev cw (fst before) (snd before) s in
  spreadDots_pass ptr lastPtr q prev cw (seq 0 (S s))
    (ps, replicate (DOT_COUNT ps) false) = (st_ps st, touchedThisFrame st) /\
  length (newKicks (fst before) (st_ps st)) = kicksThisStep st /\
  (length (newKicks (fst before) (st_ps st)) <= 2)%nat.
Proof.
  intros Hwf Hs cw prev q before st.
  destruct (spreadDots_pass_spec ptr lastPtr q prev cw (seq 0 s) ps
              (replicate (DOT_COUNT ps) false) Hwf ltac:(apply length_replicate))
    as (Hwf1 & Hs1 & Hl1 & _).
  fold before in Hwf1, Hs1, Hl1.
  assert (Hc : DOT_COUNT (fst before) = DOT_COUNT ps) by apply Hs1.
  destruct (inner_loop_spec ptr lastPtr q cw (interpCursorAt prev cw s)
              (fst before) (snd before) (DOT_COUNT (fst before)) Hwf1
              ltac:(lia) ltac:(lia))
    as (_ & _ & _ & _ & _ & Hcap & Hcount).
  fold (spreadDots_step ptr lastPtr q prev cw (fst before) (snd before) s) in Hcap, Hcount.
  fold st in Hcap, Hcount.
  split; [|split].
  - unfold spreadDots_pass. rewrite seq_S, fold_left_app. reflexivity.
  - exact Hcount.
  - unfold newKicks. rewrite Hcount. exact Hcap.
Qed.

(** ** The exclusion boundary *)

Section Boundary.

Variables (radius : R) (pointer : Vector2) (lastPointer : option Vector2)
  (q : Quaternion) (cw ic : Vector3) (p : Vector3).

Let toCursor : Vector3 := V3.sub (V3.applyQuaternion p q) ic.

(** The point of the boundary the source computes, in the local frame. *)
Let exclusionSurfaceLocal : Vector3 :=
  V3.applyQuaternion
    (V3.add ic (V3.multiplyScalar (V3.normalize toCursor) (radius * 0.38 + 0.001)))
    (invert q).

(** A dot inside the zone is put on [exclusionSurfaceLocal] and marked; on
    a kick the start of the kick is the same offset. *)
Lemma spreadDot_inside (d d' : Dot) (t t' : bool) (k k' : nat) :
  ~ kickT d < 1 -> V3.length toCursor < radius * 0.38 ->
  spreadDot radius pointer lastPointer q cw ic p d t k = (d', t', k') ->
  offset d' = V3.sub exclusionSurfaceLocal p /\ t' = true /\
  ((kickT d' = 0 /\ kickStart d' = offset d' /\ k' = S k) \/
   (kickT d' = kickT d /\ kickStart d' = kickStart d /\ k' = k)).
Proof.
  intros Hge Hin. unfold spreadDot.
  destruct (decide (kickT d < 1)) as [|_]; [contradiction|].
  fold toCursor.
  destruct (decide (V3.length toCursor < radius * 0.38)) as [_|N]; [|contradiction].
  fold exclusionSurfaceLocal.
  destruct (_ && _); intros [= <- <- <-]; cbn; tauto.
Qed.

End Boundary.

(** A vector of the length [c] added to [ic] and taken to the local frame
    is at distance [c] from [ic], in the local frame and in the world. *)
Lemma offset_distance (q : Quaternion) (ic n : Vector3) (c : R) :
  unitQuat q -> V3.dot n n = 1 -> 0 <= c ->
  let e := V3.applyQuaternion (V3.add ic (V3.multiplyScalar n c)) (invert q) in
  V3.length (V3.sub e (V3.applyQuaternion ic (invert q))) = c /\
  V3.length (V3.sub (V3.applyQuaternion e q) ic) = c.
Proof.
  intros Hq Hn Hc e.
  assert (Hm : V3.length (V3.multiplyScalar n c) = c).
  { apply length_of_sq; [exact Hc|].
    transitivity (V3.dot n n * (c * c)); [|rewrite Hn; ring].
    unfold V3.dot. cbn [V3.multiplyScalar vx vy vz]. ring. }
  unfold e. split.
  - rewrite <- rot_sub, rot_length by (apply unitQuat_invert, Hq).
    transitivity (V3.length (V3.multiplyScalar n c)); [|exact Hm].
    f_equal. apply vec3_eq; cbn [V3.add V3.sub V3.multiplyScalar vx vy vz]; ring.
  - rewrite rot_invert by exact Hq.
    transitivity (V3.length (V3.multiplyScalar n c)); [|exact Hm].
    f_equal. apply vec3_eq; cbn [V3.add V3.sub V3.multiplyScalar vx vy vz]; ring.
Qed.

(** The dot at the offset of [spreadDot_inside] is at distance
    [CURSOR_RADIUS + 0.001] from the cursor sample, in the local frame and
    in the world. *)
Lemma boundary_distance (radius : R) (q : Quaternion) (ic p : Vector3) :
  unitQuat q ->
  0 < V3.length (V3.sub (V3.applyQuaternion p q) ic) < radius * 0.38 ->
  let toCursor := V3.sub (V3.applyQuaternion p q) ic in
  let exclusionSurfaceLocal :=
    V3.applyQuaternion
      (V3.add ic (V3.multiplyScalar (V3.normalize toCursor) (radius * 0.38 + 0.001)))
      (invert q) in
  let local := V3.add p (V3.sub exclusionSurfaceLocal p) in
  V3.length (V3.sub local (V3.applyQuaternion ic (invert q))) = radius * 0.38 + 0.001 /\
  V3.length (V3.sub (V3.applyQuaternion local q) ic) = radius * 0.38 + 0.001.
Proof.
  intros Hq [Hpos Hin] toCursor exclusionSurfaceLocal local.
  assert (El : local = exclusionSurfaceLocal).
  { unfold local. apply vec3_eq; cbn [V3.add V3.sub vx vy vz]; ring. }
  rewrite El. apply offset_distance; [exact Hq | | lra].
  apply normalize_unit. fold toCursor in Hpos. lra.
Qed.

(** C9, as the code has it: a dot inside the exclusion zone, not exactly at
    the cursor sample, of a sphere rotated by a unit quaternion, is put at
    distance [CURSOR_RADIUS + 0.001] from the sample, in the local frame as
    in the world, and is marked as touched; when the turn kicks the dot,
    the start of the kick is that same offset and the progress is 0. *)
Theorem exclusion_boundary (pointer : Vector2) (lastPointer : option Vector2)
    (q : Quaternion) (cw ic : Vector3) (st : StepState) (i : nat) :
  wf (st_ps st) -> (i < DOT_COUNT (st_ps st))%nat ->
  length (touchedThisFrame st) = DOT_COUNT (st_ps st) ->
  unitQuat q ->
  ~ spreadKickT (st_ps st) !!! i < 1 ->
  0 < V3.length (V3.sub (V3.applyQuaternion (originalOf (st_ps st) i) q) ic)
    < RADIUS (st_ps st) * 0.38 ->
  let CURSOR_RADIUS := RADIUS (st_ps st) * 0.38 in
  let st' := spreadDots_dot pointer lastPointer q cw ic st i in
  let local := V3.add (originalOf (st_ps st) i) (offsetOf (st_ps st') i) in
  V3.length (V3.sub local (V3.applyQuaternion ic (invert q))) = CURSOR_RADIUS + 0.001 /\
  V3.length (V3.sub (V3.applyQuaternion local q) ic) = CURSOR_RADIUS + 0.001 /\
  touchedThisFrame st' !!! i = true /\
  ((spreadKickT (st_ps st') !!! i = 0 /\
    spreadKickStart (st_ps st') !!! i = offsetOf (st_ps st') i /\
    kicksThisStep st' = S (kicksThisStep st)) \/
   (spreadKickT (st_ps st') !!! i = spreadKickT (st_ps st) !!! i /\
    spreadKickStart (st_ps st') !!! i = spreadKickStart (st_ps st) !!! i /\
    kicksThisStep st' = kicksThisStep st)).
Proof.
  intros Hwf Hi Hlen Hq Hge Hin CURSOR_RADIUS st' local.
  destruct (spreadDots_dot_spec pointer lastPointer q cw ic st i Hwf Hi Hlen)
    as (_ & _ & _ & Hr).
  fold st' in Hr. symmetry in Hr.
  destruct (spreadDot_inside (RADIUS (st_ps st)) pointer lastPointer q cw ic
              (originalOf (st_ps st) i) (dotOf (st_ps st) i) _ _ _ _ _
              Hge (proj2 Hin) Hr) as (Ho & Ht & Hk).
  cbn [offset dotOf] in Ho.
  destruct (boundary_distance (RADIUS (st_ps st)) q ic (originalOf (st_ps st) i) Hq Hin)
    as [Hl Hw].
  split; [unfold local; rewrite Ho; exact Hl|].
  split; [unfold local; rewrite Ho; exact Hw|].
  split; [exact Ht | exact Hk].
Qed.

Lemma exclusion_boundary_witness :
  let st := mkStep poles [false; false] 0 in
  let q := Quat 0 0 0 1 in
  let ic := Vec3 0 2.5 0 in
  wf (st_ps st) /\ (0 < DOT_COUNT (st_ps st))%nat /\
  length (touchedThisFrame st) = DOT_COUNT (st_ps st) /\
  unitQuat q /\
  ~ spreadKickT (st_ps st) !!! 0%nat < 1 /\
  0 < V3.length (V3.sub (V3.applyQuaternion (originalOf (st_ps st) 0) q) ic)
    < RADIUS (st_ps st) * 0.38 /\
  let CURSOR_RADIUS := RADIUS (st_ps st) * 0.38 in
  let st' := spreadDots_dot (Vec2 400 300) None q (Vec3 0 0 2) ic st 0 in
  let local := V3.add (originalOf (st_ps st) 0) (offsetOf (st_ps st') 0) in
  V3.length (V3.sub local (V3.applyQuaternion ic (invert q))) = CURSOR_RADIUS + 0.001 /\
  V3.length (V3.sub (V3.applyQuaternion local q) ic) = CURSOR_RADIUS + 0.001 /\
  touchedThisFrame st' !!! 0%nat = true /\
  ((spreadKickT (st_ps st') !!! 0%nat = 0 /\
    spreadKickStart (st_ps st') !!! 0%nat = offsetOf (st_ps st') 0 /\
    kicksThisStep st' = S (kicksThisStep st)) \/
   (spreadKickT (st_ps st') !!! 0%nat = spreadKickT (st_ps st) !!! 0%nat /\
    spreadKickStart (st_ps st') !!! 0%nat = spreadKickStart (st_ps st) !!! 0%nat /\
    kicksThisStep st' = kicksThisStep st)).
Proof.
  intros st q ic.
  assert (Hd : V3.length (V3.sub (V3.applyQuaternion (originalOf (st_ps st) 0) q) ic)
               = 0.5).
  { apply length_of_sq; [lra|]. unfold V3.dot. simpl. lra. }
  assert (Hq : unitQuat q) by (unfold unitQuat; simpl; lra).
  assert (Hk : ~ spreadKickT (st_ps st) !!! 0%nat < 1) by (simpl; lra).
  assert (Hin : 0 < V3.length (V3.sub (V3.applyQuaternion (originalOf (st_ps st) 0) q) ic)
                < RADIUS (st_ps st) * 0.38) by (rewrite Hd; simpl; lra).
  split; [exact poles_wf|]. split; [simpl; lia|]. split; [reflexivity|].
  split; [exact Hq|]. split; [exact Hk|]. split; [exact Hin|].
  apply (exclusion_boundary (Vec2 400 300) None q (Vec3 0 0 2) ic st 0).
  - exact poles_wf.
  - simpl; lia.
  - reflexivity.
  - exact Hq.
  - exact Hk.
  - exact Hin.
Defined.

(** C9 as stated fails: the dot at the north pole, the cursor sample half
    a unit above it, a sphere of radius 2 that is not rotated.  The dot is
    inside the zone (0.5 < 0.76) and is put at distance 0.761 from the
    sample, not 0.76. *)
Lemma exclusion_boundary_counterexample :
  let st := mkStep poles [false; false] 0 in
  let q := Quat 0 0 0 1 in
  let ic := Vec3 0 2.5 0 in
  let st' := spreadDots_dot (Vec2 400 300) None q (Vec3 0 0 2) ic st 0 in
  let local := V3.add (originalOf poles 0) (offsetOf (st_ps st') 0) in
  V3.length (V3.sub (V3.applyQuaternion (originalOf poles 0) q) ic) < RADIUS poles * 0.38 /\
  V3.length (V3.sub local (V3.applyQuaternion ic (invert q))) <> RADIUS poles * 0.38.
Proof.
  intros st q ic st' local.
  assert (Hd : V3.length (V3.sub (V3.applyQuaternion (originalOf poles 0) q) ic) = 0.5).
  { apply length_of_sq; [lra|]. unfold V3.dot. simpl. lra. }
  assert (Hq : unitQuat q) by (unfold unitQuat; simpl; lra).
  assert (Hin : 0 < V3.length (V3.sub (V3.applyQuaternion (originalOf poles 0) q) ic)
                < RADIUS poles * 0.38) by (rewrite Hd; simpl; lra).
  split; [apply Hin|].
  destruct (spreadDots_dot_spec (Vec2 400 300) None q (Vec3 0 0 2) ic st 0
              poles_wf ltac:(simpl; lia) eq_refl) as (_ & _ & _ & Hr).
  fold st' in Hr. symmetry in Hr.
  assert (Hk : ~ kickT (dotOf (st_ps st) 0) < 1) by (simpl; lra).
  destruct (spreadDot_inside (RADIUS poles) (Vec2 400 300) None q (Vec3 0 0 2) ic
              (originalOf poles 0) (dotOf poles 0) _ _ _ _ _
              Hk (proj2 Hin) Hr) as (Ho & _).
  cbn [offset dotOf] in Ho.
  destruct (boundary_distance (RADIUS poles) q ic (originalOf poles 0) Hq Hin) as [Hl _].
  unfold local. change (st_ps st) with poles in Ho. rewrite Ho, Hl. simpl. lra.
Qed.

(** ** The return home *)

Section Decay.

Lemma pow_097_pos (n : nat) : 0 < 0.97 ^ n.
Proof. apply pow_lt. lra. Qed.

Lemma pow_097_anti (a b : nat) : (a <= b)%nat -> 0.97 ^ b <= 0.97 ^ a.
Proof.
  intros Hab. replace b with (a + (b - a))%nat by lia.
  rewrite pow_add. pose proof (pow_097_pos a) as Ha.
  assert (0.97 ^ (b - a) <= 1).
  { clear. induction (b - a)%nat as [|n IH]; cbn [pow]; [lra|].
    pose proof (pow_097_pos n). nra. }
  nra.
Qed.

Lemma bounded_mono (B B' : R) (v : Vector3) : B <= B' -> bounded B v -> bounded B' v.
Proof. unfold bounded. intros H (?&?&?). repeat split; lra. Qed.

Lemma bounded_scale (B : R) (v : Vector3) :
  bounded B v -> bounded (0.97 * B) (V3.multiplyScalar v 0.97).
Proof.
  unfold bounded. cbn [V3.multiplyScalar vx vy vz]. intros (Hx & Hy & Hz).
  rewrite !Rabs_mult, (Rabs_pos_eq 0.97) by lra. repeat split; nra.
Qed.

(** A dot that is not in a kick: after [m] frames at most its timer has run
    out, and from then on every frame scales the offset by 0.97. *)
Lemma quietRun_settling (bs : list bool) :
  forall (d : Dot) (m : nat) (B : R),
    ~ kickT d < 1 -> timer d <= 0.017 * INR m -> bounded B (offset d) ->
    bounded (0.97 ^ (length bs - m) * B) (offset (quietRun bs d)).
Proof.
  induction bs as [|b bs IH]; intros d m B Hk Ht Hb.
  - cbn. rewrite Rmult_1_l. exact Hb.
  - cbn [quietRun fold_left]. fold (quietRun bs (quietStep b d)).
    assert (HB : 0 <= B) by (destruct Hb as (Hx & _); pose proof (Rabs_pos (vx (offset d))); lra).
    destruct (decide (timer d > 0)) as [Hh|Hr].
    + assert (Hm : (1 <= m)%nat).
      { destruct m; [cbn in Ht; lra | lia]. }
      assert (Hd : kickT (quietStep b d) = kickT d /\
                   offset (quietStep b d) = offset d /\
                   timer (quietStep b d) <= 0.017 * INR (m - 1)).
      { unfold quietStep. rewrite (animateDot_held d Hk Hh).
        assert (0 <= INR (m - 1)) by apply pos_INR.
        assert (INR (m - 1) = INR m - 1) by (rewrite minus_INR by lia; reflexivity).
        destruct b; cbn; (split; [reflexivity|]; split; [reflexivity|]).
        - lra.
        - unfold Rmax. destruct (Rle_dec (timer d - 0.017) 0); lra. }
      destruct Hd as (Ek & Eo & Et).
      replace (length (b :: bs) - m)%nat with (length bs - (m - 1))%nat
        by (cbn [length]; lia).
      apply IH; [rewrite Ek; exact Hk | exact Et | rewrite Eo; exact Hb].
    + assert (Hd : kickT (quietStep b d) = kickT d /\
                   offset (quietStep b d) = V3.multiplyScalar (offset d) 0.97 /\
                   timer (quietStep b d) <= 0.017 * INR 0).
      { unfold quietStep. rewrite (animateDot_rest d Hk Hr).
        destruct b; cbn; (split; [reflexivity|]; split; [reflexivity|]); lra. }
      destruct Hd as (Ek & Eo & Et).
      eapply bounded_mono;
        [|apply (IH (quietStep b d) 0%nat (0.97 * B));
          [rewrite Ek; exact Hk | exact Et | rewrite Eo; apply bounded_scale, Hb]].
      rewrite Nat.sub_0_r.
      replace (0.97 ^ length bs * (0.97 * B)) with (0.97 ^ (S (length bs)) * B)
        by (cbn [pow]; ring).
      apply Rmult_le_compat_r; [exact HB|].
      apply pow_097_anti. cbn [length]. lia.
Qed.

(** A dot in its kick: after [k] frames at most the kick is over, the
    offset being [kickStart + kickDir], and the dot settles as above. *)
Lemma quietRun_kicking (bs : list bool) :
  forall (d : Dot) (k m : nat) (B : R),
    kickT d < 1 -> 1 <= kickT d + 0.035 * INR k -> timer d <= 0.017 * INR m ->
    bounded B (V3.add (kickStart d) (kickDir d)) -> (k <= length bs)%nat ->
    bounded (0.97 ^ (length bs - k - m) * B) (offset (quietRun bs d)).
Proof.
  induction bs as [|b bs IH]; intros d k m B Hk Hkk Ht Hb Hlen.
  - cbn in Hlen. assert (k = 0%nat) by lia. subst k. cbn in Hkk. lra.
  - cbn [quietRun fold_left]. fold (quietRun bs (quietStep b d)).
    assert (HB : 0 <= B)
      by (destruct Hb as (Hx & _);
          pose proof (Rabs_pos (vx (V3.add (kickStart d) (kickDir d)))); lra).
    assert (Hm0 : 0 <= 0.017 * INR m) by (pose proof (pos_INR m); lra).
    assert (Hk1 : (1 <= k)%nat).
    { destruct k; [cbn in Hkk; lra | lia]. }
    set (t' := Rmin (kickT d + 0.035) 1).
    assert (Hd : kickT (quietStep b d) = t' /\
                 offset (quietStep b d)
                 = V3.add (kickStart d)
                     (V3.multiplyScalar (kickDir d) (easeInOutSine t')) /\
                 kickStart (quietStep b d) = kickStart d /\
                 kickDir (quietStep b d) = kickDir d /\
                 timer (quietStep b d) <= 0.017 * INR m).
    { unfold quietStep. rewrite (animateDot_kicking d Hk). fold t'.
      destruct b; cbn; repeat split; lra. }
    destruct Hd as (Ek & Eo & Es & Ed & Et).
    destruct (decide (t' < 1)) as [Hlt|Hge].
    + assert (Et' : t' = kickT d + 0.035).
      { unfold t', Rmin in *. destruct (Rle_dec (kickT d + 0.035) 1); lra. }
      assert (Hk2 : (2 <= k)%nat).
      { destruct k as [|[|k]]; [lia | cbn in Hkk; lra | lia]. }
      replace (length (b :: bs) - k - m)%nat with (length bs - (k - 1) - m)%nat
        by (cbn [length]; lia).
      apply IH.
      * rewrite Ek. exact Hlt.
      * rewrite Ek, Et', minus_INR by lia. cbn [INR]. lra.
      * exact Et.
      * rewrite Es, Ed. exact Hb.
      * cbn [length] in Hlen. lia.
    + assert (Et' : t' = 1).
      { unfold t', Rmin in *. destruct (Rle_dec (kickT d + 0.035) 1); lra. }
      eapply bounded_mono;
        [|apply (quietRun_settling bs (quietStep b d) m B);
          [rewrite Ek; exact Hge | exact Et |]].
      * apply Rmult_le_compat_r; [exact HB|].
        apply pow_097_anti. cbn [length]. lia.
      * rewrite Eo, Et', easeInOutSine_1.
        destruct Hb as (Hx & Hy & Hz). unfold bounded.
        cbn [V3.add V3.multiplyScalar vx vy vz] in *.
        rewrite !Rmult_1_r. done.
Qed.

(** The offset of a dot that no cursor sample reaches comes within any
    [eps] of zero, and stays there. *)
Lemma quietRun_converges (d : Dot) (eps : R) :
  0 < eps ->
  exists N : nat, forall bs : list bool,
    (N <= length bs)%nat -> within eps (offset (quietRun bs d)).
Proof.
  intros Heps.
  destruct (INR_archimed 0.035 (1 - kickT d) ltac:(lra)) as [k Hk].
  destruct (INR_archimed 0.017 (timer d) ltac:(lra)) as [m Hm].
  set (B := Rabs (vx (offset d)) + Rabs (vy (offset d)) + Rabs (vz (offset d))
            + Rabs (vx (V3.add (kickStart d) (kickDir d)))
            + Rabs (vy (V3.add (kickStart d) (kickDir d)))
            + Rabs (vz (V3.add (kickStart d) (kickDir d)))).
  assert (Hb1 : bounded B (offset d)).
  { unfold bounded, B.
    pose proof (Rabs_pos (vx (offset d))). pose proof (Rabs_pos (vy (offset d))).
    pose proof (Rabs_pos (vz (offset d))).
    pose proof (Rabs_pos (vx (V3.add (kickStart d) (kickDir d)))).
    pose proof (Rabs_pos (vy (V3.add (kickStart d) (kickDir d)))).
    pose proof (Rabs_pos (vz (V3.add (kickStart d) (kickDir d)))).
    repeat split; lra. }
  assert (Hb2 : bounded B (V3.add (kickStart d) (kickDir d))).
  { unfold bounded, B.
    pose proof (Rabs_pos (vx (offset d))). pose proof (Rabs_pos (vy (offset d))).
    pose proof (Rabs_pos (vz (offset d))).
    pose proof (Rabs_pos (vx (V3.add (kickStart d) (kickDir d)))).
    pose proof (Rabs_pos (vy (V3.add (kickStart d) (kickDir d)))).
    pose proof (Rabs_pos (vz (V3.add (kickStart d) (kickDir d)))).
    repeat split; lra. }
  assert (HB : 0 <= B) by (destruct Hb1 as (Hx & _); pose proof (Rabs_pos (vx (offset d))); lra).
  clearbody B.
  destruct (pow_lt_1_zero 0.97 ltac:(rewrite Rabs_pos_eq; lra) (eps / (B + 1))
              ltac:(apply Rdiv_lt_0_compat; lra)) as [K HK].
  exists (K + k + m)%nat. intros bs Hlen.
  assert (Hsmall : forall e : nat, (K <= e)%nat -> 0.97 ^ e * B < eps).
  { intros e He. specialize (HK e ltac:(lia)).
    rewrite Rabs_pos_eq in HK by (left; apply pow_097_pos).
    pose proof (pow_097_pos e) as Hp.
    assert (0.97 ^ e * (B + 1) < eps).
    { apply (Rmult_lt_compat_r (B + 1)) in HK; [|lra].
      replace (eps / (B + 1) * (B + 1)) with eps in HK by (field; lra). exact HK. }
    nra. }
  assert (Hfin : forall e : nat, (K <= e)%nat ->
            bounded (0.97 ^ e * B) (offset (quietRun bs d)) ->
            within eps (offset (quietRun bs d))).
  { intros e He (Hx & Hy & Hz). specialize (Hsmall e He).
    unfold within. repeat split; lra. }
  destruct (decide (kickT d < 1)) as [Hkick|Hnot].
  - apply (Hfin (length bs - k - m)%nat); [lia|].
    apply quietRun_kicking; [exact Hkick | lra | lra | exact Hb2 | lia].
  - apply (Hfin (length bs - m)%nat); [lia|].
    apply quietRun_settling; [exact Hnot | lra | exact Hb1].
Qed.

End Decay.

(** *** Frames of the service *)

Lemma runFrames_quiet (h : Host) (j : nat) (frames : list FrameParams) :
  forall sv : Service,
    wf (particleSphere sv) -> (j < DOT_COUNT (particleSphere sv))%nat ->
    quietFrames h j sv frames ->
    dotOf (particleSphere (runFrames h sv frames)) j
    = quietRun (map pointerPassRuns frames) (dotOf (particleSphere sv) j).
Proof.
  induction frames as [|p rest IH]; intros sv Hwf Hj Hq; [reflexivity|].
  destruct Hq as [Hq Hrest].
  cbn [runFrames quietRun fold_left map].
  fold (runFrames h (fst (update h sv p)) rest).
  fold (quietRun (map pointerPassRuns rest)
          (quietStep (pointerPassRuns p) (dotOf (particleSphere sv) j))).
  destruct (update_spec h sv p Hwf) as (Hwf' & Hs & _).
  rewrite IH; [| exact Hwf' | destruct Hs as (-> & _); exact Hj | exact Hrest].
  f_equal. unfold quietStep. apply update_outOfReach; assumption.
Qed.

(** C8: a dot that no interpolation step touches in a frame whose pointer
    pass runs has its timer at zero after the frame; a dot at rest (kick
    progress 1, timer 0) has every component of its offset multiplied by
    0.97 by [animateSpreadReturn], and by the whole frame when no cursor
    sample reaches it; and for every [eps > 0] there is a number of frames
    after which the offset of a dot that no cursor sample reaches is within
    [eps] of zero in every component, whatever the state it starts from. *)
Theorem return_home (h : Host) (sv : Service) (j : nat) :
  wf (particleSphere sv) -> (j < DOT_COUNT (particleSphere sv))%nat ->
  let d := dotOf (particleSphere sv) j in
  (forall p : FrameParams,
     pointerPassRuns p = true -> quietFrame h j sv p ->
     timer (dotOf (particleSphere (fst (update h sv p))) j) = 0) /\
  (kickT d = 1 -> timer d = 0 ->
     offset (dotOf (animateSpreadReturn (particleSphere sv)) j)
       = V3.multiplyScalar (offset d) 0.97 /\
     forall p : FrameParams, quietFrame h j sv p ->
       offset (dotOf (particleSphere (fst (update h sv p))) j)
       = V3.multiplyScalar (offset d) 0.97) /\
  (forall eps : R, 0 < eps ->
     exists N : nat, forall frames : list FrameParams,
       (N <= length frames)%nat -> quietFrames h j sv frames ->
       within eps (offset (dotOf (particleSphere (runFrames h sv frames)) j))).
Proof.
  intros Hwf Hj d. split; [|split].
  - intros p Hruns Hq.
    rewrite (update_outOfReach h sv p j Hwf Hj Hq), Hruns. reflexivity.
  - intros Hk Ht.
    assert (Hk' : ~ kickT d < 1) by lra. assert (Ht' : ~ timer d > 0) by lra.
    destruct (animateSpreadReturn_spec (particleSphere sv) Hwf) as (_ & _ & Hd).
    split.
    + rewrite Hd by exact Hj. fold d. rewrite (animateDot_rest d Hk' Ht'). reflexivity.
    + intros p Hq. rewrite (update_outOfReach h sv p j Hwf Hj Hq). fold d.
      rewrite (animateDot_rest d Hk' Ht'). destruct (pointerPassRuns p); reflexivity.
  - intros eps Heps.
    destruct (quietRun_converges d eps Heps) as [N HN].
    exists N. intros frames Hlen Hq.
    rewrite (runFrames_quiet h j frames sv Hwf Hj Hq). fold d.
    apply HN. rewrite length_map. exact Hlen.
Qed.

Lemma return_home_witness :
  let sv := newService polesKicked in
  wf (particleSphere sv) /\ (0 < DOT_COUNT (particleSphere sv))%nat /\
  let d := dotOf (particleSphere sv) 0 in
  (forall p : FrameParams,
     pointerPassRuns p = true -> quietFrame pinholeHost 0 sv p ->
     timer (dotOf (particleSphere (fst (update pinholeHost sv p))) 0) = 0) /\
  (kickT d = 1 -> timer d = 0 ->
     offset (dotOf (animateSpreadReturn (particleSphere sv)) 0)
       = V3.multiplyScalar (offset d) 0.97 /\
     forall p : FrameParams, quietFrame pinholeHost 0 sv p ->
       offset (dotOf (particleSphere (fst (update pinholeHost sv p))) 0)
       = V3.multiplyScalar (offset d) 0.97) /\
  (forall eps : R, 0 < eps ->
     exists N : nat, forall frames : list FrameParams,
       (N <= length frames)%nat -> quietFrames pinholeHost 0 sv frames ->
       within eps (offset (dotOf (particleSphere (runFrames pinholeHost sv frames)) 0))).
Proof.
  intros sv.
  split; [exact polesKicked_wf|]. split; [simpl; lia|].
  apply (return_home pinholeHost (newService polesKicked) 0).
  - exact polesKicked_wf.
  - simpl; lia.
Defined.

(** ** The regimes of a dot *)

(** *** The first dot of the field through the pointer pass

    Dot 0 is the first that a step looks at: the counter of kicks is zero
    when its turn comes. *)

Section FirstDot.

Variables (pointer : Vector2) (lastPointer : option Vector2)
  (q : Quaternion) (prev : option Vector3) (cw : Vector3).

Lemma first_dot_step (ps : ParticleSphere) (touched : list bool) (s : nat) :
  wf ps -> (0 < DOT_COUNT ps)%nat -> length touched = DOT_COUNT ps ->
  let st := spreadDots_step pointer lastPointer q prev cw ps touched s in
  (dotOf (st_ps st) 0, touchedThisFrame st !!! 0%nat)
  = dotStepAt (RADIUS ps) pointer lastPointer q prev cw (originalOf ps 0)
      (dotOf ps 0, touched !!! 0%nat) s.
Proof.
  intros Hwf Hc Hlen st.
  destruct (inner_loop_spec pointer lastPointer q cw (interpCursorAt prev cw s)
              ps touched (DOT_COUNT ps) Hwf Hlen ltac:(lia))
    as (_ & _ & _ & _ & Hdone & _).
  specialize (Hdone 0%nat Hc). cbn [seq fold_left kicksThisStep] in Hdone.
  unfold dotStepAt. cbn [fst snd]. rewrite Hdone. reflexivity.
Qed.

Lemma first_dot_pass (ss : list nat) :
  forall (ps : ParticleSphere) (touched : list bool),
    wf ps -> (0 < DOT_COUNT ps)%nat -> length touched = DOT_COUNT ps ->
    let r := spreadDots_pass pointer lastPointer q prev cw ss (ps, touched) in
    (dotOf (fst r) 0, snd r !!! 0%nat)
    = fold_left
        (dotStepAt (RADIUS ps) pointer lastPointer q prev cw (originalOf ps 0))
        ss (dotOf ps 0, touched !!! 0%nat).
Proof.
  induction ss as [|s ss IH]; intros ps touched Hwf Hc Hlen; [reflexivity|].
  cbn [spreadDots_pass fold_left fst snd].
  destruct (spreadDots_step_spec pointer lastPointer q prev cw ps touched s Hwf Hlen)
    as (Hwf1 & Hs1 & Hl1 & _).
  pose proof (first_dot_step ps touched s Hwf Hc Hlen) as Hstep. cbn zeta in Hstep.
  set (st := spreadDots_step pointer lastPointer q prev cw ps touched s) in *.
  assert (Hc1 : DOT_COUNT (st_ps st) = DOT_COUNT ps) by apply Hs1.
  fold (spreadDots_pass pointer lastPointer q prev cw ss (st_ps st, touchedThisFrame st)).
  rewrite (IH (st_ps st) (touchedThisFrame st) Hwf1 ltac:(lia) ltac:(lia)).
  rewrite Hstep, (sameShape_originalOf ps (st_ps st) 0 Hs1).
  replace (RADIUS (st_ps st)) with (RADIUS ps) by (symmetry; apply Hs1).
  reflexivity.
Qed.

End FirstDot.

Lemma first_dot_reset (pointer : Vector2) (lastPointer : option Vector2)
    (q : Quaternion) (prev : option Vector3) (cw : Vector3) (ss : list nat)
    (ps : ParticleSphere) :
  wf ps -> (0 < DOT_COUNT ps)%nat ->
  let pr := spreadDots_pass pointer lastPointer q prev cw ss
              (ps, replicate (DOT_COUNT ps) false) in
  let r := fold_left
             (dotStepAt (RADIUS ps) pointer lastPointer q prev cw (originalOf ps 0))
             ss (dotOf ps 0, false) in
  dotOf (fold_left (resetUntouched (snd pr)) (seq 0 (DOT_COUNT ps)) (fst pr)) 0
  = (if snd r then fst r else resetTimer (fst r)).
Proof.
  intros Hwf Hc pr r.
  pose proof (first_dot_pass pointer lastPointer q prev cw ss
                ps (replicate (DOT_COUNT ps) false) Hwf Hc
                ltac:(apply length_replicate)) as Hp.
  cbn zeta in Hp. rewrite lookup_total_replicate_2 in Hp by exact Hc.
  change (spreadDots_pass pointer lastPointer q prev cw ss
            (ps, replicate (DOT_COUNT ps) false)) with pr in Hp.
  change (fold_left
            (dotStepAt (RADIUS ps) pointer lastPointer q prev cw (originalOf ps 0))
            ss (dotOf ps 0, false)) with r in Hp.
  destruct (spreadDots_pass_spec pointer lastPointer q prev cw
              ss ps (replicate (DOT_COUNT ps) false) Hwf
              ltac:(apply length_replicate)) as (Hwf1 & Hs1 & Hl1 & _).
  change (spreadDots_pass pointer lastPointer q prev cw ss
            (ps, replicate (DOT_COUNT ps) false)) with pr in Hwf1, Hs1, Hl1.
  clearbody r pr.
  assert (Hc1 : DOT_COUNT (fst pr) = DOT_COUNT ps) by apply Hs1.
  destruct (fold_dots (resetUntouched (snd pr))
              (fun j d => if (snd pr !!! j : bool) then d else resetTimer d)
              (resetUntouched_spec (snd pr)) (DOT_COUNT ps) (fst pr) Hwf1 ltac:(lia))
    as (_ & _ & Hd).
  rewrite Hd. destruct (decide (0 < DOT_COUNT ps)%nat); [|lia].
  pose proof (f_equal fst Hp) as E1. pose proof (f_equal snd Hp) as E2.
  cbn [fst snd] in E1, E2. rewrite E1, E2. reflexivity.
Qed.

Lemma first_dot_spreadDots (h : Host) (ps : ParticleSphere) (ptr : Vector2)
    (lastPtr : option Vector2) (lastEvent : bool) (pts : Points) (cam : Camera) :
  wf ps -> (0 < DOT_COUNT ps)%nat ->
  let r := fold_left
             (dotStepAt (RADIUS ps) ptr lastPtr (quaternion pts)
                (prevCursorWorldOf h ps cam lastPtr lastEvent)
                (resolveCursorWorld h ps cam ptr) (originalOf ps 0))
             (seq 0 (steps + 1)) (dotOf ps 0, false) in
  dotOf (spreadDots h ps ptr lastPtr lastEvent pts cam) 0
  = (if snd r then fst r else resetTimer (fst r)).
Proof.
  intros Hwf Hc.
  exact (first_dot_reset ptr lastPtr (quaternion pts)
           (prevCursorWorldOf h ps cam lastPtr lastEvent)
           (resolveCursorWorld h ps cam ptr) (seq 0 (steps + 1)) ps Hwf Hc).
Qed.

(** *** What a turn does, case by case *)

Section Cases.

Variables (radius : R) (pointer : Vector2) (lastPointer : option Vector2)
  (q : Quaternion) (prev : option Vector3) (cw p : Vector3).

Local Abbreviation stepAt := (dotStepAt radius pointer lastPointer q prev cw p).
Local Abbreviation distAt :=
  (fun s => V3.length (V3.sub (V3.applyQuaternion p q) (interpCursorAt prev cw s))).

Lemma stepAt_far (d : Dot) (t : bool) (s : nat) :
  ~ distAt s < radius * 0.38 + 0.18 -> stepAt (d, t) s = (d, t).
Proof.
  intros Hfar. unfold dotStepAt. cbn [fst snd].
  rewrite spreadDot_outOfReach; [reflexivity | right; exact Hfar].
Qed.

Lemma stepAt_skip (d : Dot) (t : bool) (s : nat) :
  kickT d < 1 -> stepAt (d, t) s = (d, t).
Proof.
  intros Hk. unfold dotStepAt. cbn [fst snd].
  rewrite spreadDot_outOfReach; [reflexivity | left; exact Hk].
Qed.

(** In the soft band: the timer is set to 0.4, the dot is marked. *)
Lemma stepAt_band (d : Dot) (t : bool) (s : nat) :
  ~ kickT d < 1 -> ~ distAt s < radius * 0.38 -> distAt s < radius * 0.38 + 0.18 ->
  exists d' : Dot,
    stepAt (d, t) s = (d', true) /\ kickT d' = kickT d /\ timer d' = 0.4.
Proof.
  intros Hk Hout Hband. unfold dotStepAt, spreadDot. cbn [fst snd].
  destruct (decide (kickT d < 1)) as [|_]; [contradiction|].
  destruct (decide (_ < radius * 0.38)) as [|_]; [contradiction|].
  destruct (decide (_ < radius * 0.38 + 0.18)) as [_|N]; [|contradiction].
  eexists. split; [reflexivity|]. cbn. done.
Qed.

(** Inside the zone with a fast pointer: the first dot is kicked, its timer
    is left as it was, the dot is marked. *)
Lemma stepAt_kick (d : Dot) (t : bool) (s : nat) :
  ~ kickT d < 1 -> distAt s < radius * 0.38 ->
  (let dx := match lastPointer with
             | Some lp => x2 pointer - x2 lp | None => 0 end in
   let dy := match lastPointer with
             | Some lp => y2 pointer - y2 lp | None => 0 end in
   sqrt (dx * dx + dy * dy) / 5 > 0.5) ->
  exists d' : Dot,
    stepAt (d, t) s = (d', true) /\ kickT d' = 0 /\ timer d' = timer d.
Proof.
  intros Hk Hin Hforce. unfold dotStepAt, spreadDot. cbn [fst snd].
  destruct (decide (kickT d < 1)) as [|_]; [contradiction|].
  destruct (decide (_ < radius * 0.38)) as [_|N]; [|contradiction].
  cbn zeta in Hforce. rewrite (bool_decide_eq_true_2 _ Hforce).
  rewrite (bool_decide_eq_true_2 (0 < MAX_KICKS_PER_STEP)%nat)
    by (unfold MAX_KICKS_PER_STEP; lia).
  cbn [andb]. eexists. split; [reflexivity|]. cbn. done.
Qed.

End Cases.

(** *** A swipe across a dot *)

Lemma sqrt_lt_bound (v a : R) : 0 <= v -> 0 < a -> v < a * a -> sqrt v < a.
Proof.
  intros Hv Ha H. rewrite <- (sqrt_square a) by lra.
  apply sqrt_lt_1; nra.
Qed.

Lemma sqrt_ge_bound (v a : R) : 0 <= a -> a * a <= v -> ~ sqrt v < a.
Proof.
  intros Ha H. apply Rle_not_lt. rewrite <- (sqrt_square a) by exact Ha.
  apply sqrt_le_1; nra.
Qed.

Lemma normalize_known (v : Vector3) (l : R) :
  0 < l -> V3.dot v v = l * l -> V3.normalize v = V3.multiplyScalar v (1 / l).
Proof.
  intros Hl Hv. assert (E : V3.length v = l) by (apply length_of_sq; lra).
  unfold V3.normalize, V3.divideScalar. rewrite E.
  destruct (Req_dec_T l 0); [lra | reflexivity].
Qed.

(** The resolver on a ray that is known. *)
Lemma resolve_value_hit (h : Host) (ps : ParticleSphere) (cam : Camera)
    (ptr : Vector2) (o d : Vector3) (s : R) :
  setFromCamera h (Vec2 (x2 ptr / innerWidth h * 2 - 1)
                        (- (y2 ptr / innerHeight h) * 2 + 1)) cam = mkRay o d ->
  let a := V3.dot d d in
  let b := 2 * V3.dot o d in
  let c := V3.dot o o - RADIUS ps * RADIUS ps in
  0 <= s -> s * s = b * b - 4 * a * c ->
  resolveCursorWorld h ps cam ptr
  = V3.add o (V3.multiplyScalar d ((- b - s) / (2 * a))).
Proof.
  intros Hray a b c Hs Hd. unfold resolveCursorWorld. rewrite Hray.
  cbn [origin direction]. fold a. fold b. fold c. rewrite <- Hd.
  destruct (decide (s * s >= 0)) as [_|N]; [|nra].
  rewrite sqrt_square by exact Hs. reflexivity.
Qed.

Lemma resolve_value_miss (h : Host) (ps : ParticleSphere) (cam : Camera)
    (ptr : Vector2) (o d : Vector3) :
  setFromCamera h (Vec2 (x2 ptr / innerWidth h * 2 - 1)
                        (- (y2 ptr / innerHeight h) * 2 + 1)) cam = mkRay o d ->
  let a := V3.dot d d in
  let b := 2 * V3.dot o d in
  let c := V3.dot o o - RADIUS ps * RADIUS ps in
  b * b - 4 * a * c < 0 ->
  resolveCursorWorld h ps cam ptr
  = V3.add (position cam)
      (V3.multiplyScalar
         (V3.normalize (V3.sub (V3.add o (V3.multiplyScalar d 5)) (position cam)))
         (RADIUS ps)).
Proof.
  intros Hray a b c Hd. unfold resolveCursorWorld. rewrite Hray.
  cbn [origin direction]. fold a. fold b. fold c.
  destruct (decide (b * b - 4 * a * c >= 0)) as [P|_]; [lra | reflexivity].
Qed.

(** The pointer in the middle of the window: the ray runs down the z axis
    and meets a sphere of radius 2 at (0, 0, 2). *)
Lemma resolve_center (ps : ParticleSphere) :
  RADIUS ps = 2 ->
  resolveCursorWorld pinholeHost ps sceneCamera (Vec2 400 300) = Vec3 0 0 2.
Proof.
  intros Hr.
  assert (Hray : setFromCamera pinholeHost
                   (Vec2 (x2 (Vec2 400 300) / innerWidth pinholeHost * 2 - 1)
                         (- (y2 (Vec2 400 300) / innerHeight pinholeHost) * 2 + 1))
                   sceneCamera
                 = mkRay (Vec3 0 0 5) (Vec3 0 0 (-1))).
  { cbn [pinholeHost setFromCamera innerWidth innerHeight x2 y2].
    unfold pinholeRay. cbn [sceneCamera position x2 y2].
    f_equal. rewrite (normalize_known _ 1); [| lra | unfold V3.dot; cbn [vx vy vz]; lra].
    apply vec3_eq; cbn [V3.multiplyScalar vx vy vz]; lra. }
  rewrite (resolve_value_hit pinholeHost ps sceneCamera (Vec2 400 300)
             (Vec3 0 0 5) (Vec3 0 0 (-1)) 4 Hray); [| lra |].
  - apply vec3_eq; unfold V3.dot; cbn [V3.add V3.multiplyScalar vx vy vz]; lra.
  - rewrite Hr. unfold V3.dot. cbn [vx vy vz]. lra.
Qed.

(** The pointer to the right of it, at x = 700: the ray misses the sphere,
    and the fallback is 2 units from the camera. *)
Lemma resolve_right (ps : ParticleSphere) :
  RADIUS ps = 2 ->
  resolveCursorWorld pinholeHost ps sceneCamera (Vec2 700 300) = Vec3 1.2 0 3.4.
Proof.
  intros Hr.
  assert (Hray : setFromCamera pinholeHost
                   (Vec2 (x2 (Vec2 700 300) / innerWidth pinholeHost * 2 - 1)
                         (- (y2 (Vec2 700 300) / innerHeight pinholeHost) * 2 + 1))
                   sceneCamera
                 = mkRay (Vec3 0 0 5) (Vec3 0.6 0 (-0.8))).
  { cbn [pinholeHost setFromCamera innerWidth innerHeight x2 y2].
    unfold pinholeRay. cbn [sceneCamera position x2 y2].
    f_equal. rewrite (normalize_known _ 1.25); [| lra | unfold V3.dot; cbn [vx vy vz]; lra].
    apply vec3_eq; cbn [V3.multiplyScalar vx vy vz]; lra. }
  rewrite (resolve_value_miss pinholeHost ps sceneCamera (Vec2 700 300)
             (Vec3 0 0 5) (Vec3 0.6 0 (-0.8)) Hray).
  - rewrite Hr. cbn [sceneCamera position].
    rewrite (normalize_known _ 5);
      [| lra | unfold V3.dot; cbn [V3.add V3.sub V3.multiplyScalar vx vy vz]; lra].
    apply vec3_eq; cbn [V3.add V3.sub V3.multiplyScalar vx vy vz]; lra.
  - rewrite Hr. unfold V3.dot. cbn [vx vy vz]. lra.
Qed.

Lemma facingDots_wf : wf facingDots.
Proof. split; reflexivity. Qed.

(** The square of the distance from the dot that faces the camera to the
    sample of step [s] of the swipe. *)
Lemma swipe_distance (s : nat) :
  V3.length
    (V3.sub (V3.applyQuaternion (Vec3 0 0 2) (Quat 0 0 0 1))
       (interpCursorAt (Some (Vec3 1.2 0 3.4)) (Vec3 0 0 2) s))
  = sqrt (3.4 * ((1 - INR s / 12) * (1 - INR s / 12))).
Proof.
  unfold V3.length. f_equal.
  cbn [interpCursorAt lerpVec3 V3.sub V3.applyQuaternion vx vy vz qx qy qz qw].
  replace (INR steps) with 12 by (unfold steps; cbn [INR]; lra).
  generalize (INR s / 12). intros tau.
  unfold Q2R. cbn [QArith_base.Qnum QArith_base.Qden]. field.
Qed.

Ltac swipe_ineq :=
  rewrite swipe_distance; cbn [INR];
  first [ apply sqrt_ge_bound; lra
        | apply sqrt_lt_bound; lra ].

(** C2 as stated fails.  A field of two dots at rest; the pointer has moved
    from (700, 300) to (400, 300), so that the cursor path runs from
    (1.2, 0, 3.4) to the dot at (0, 0, 2).  Steps 6 and 7 find the dot in
    the soft band and set its timer to 0.4, step 8 finds it inside the zone
    and kicks it.  After the frame the dot is in its kick and holds. *)
Lemma regimes_counterexample :
  let sv := newService facingDots in
  let d0 := dotOf (particleSphere sv) 0 in
  let d := dotOf (particleSphere (fst (update pinholeHost sv swipeFrame))) 0 in
  (kickT d0 = 1 /\ timer d0 = 0) /\
  (kickT d < 1 /\ timer d > 0).
Proof.
  intros sv d0 d. split; [split; reflexivity|].
  unfold d. rewrite update_field.
  cbn [swipeFrame pointer points camera lastPointer lastPointerEvent sv
       newService particleSphere].
  destruct (animateSpreadReturn_spec facingDots facingDots_wf) as (Hwf1 & Hs1 & Hd1).
  specialize (Hd1 0%nat ltac:(cbn; lia)).
  set (ps1 := animateSpreadReturn facingDots) in *.
  assert (Hc1 : (0 < DOT_COUNT ps1)%nat) by (destruct Hs1 as (-> & _); cbn; lia).
  assert (Hr1 : RADIUS ps1 = 2) by (destruct Hs1 as (_ & -> & _); reflexivity).
  assert (Ho1 : originalOf ps1 0 = Vec3 0 0 2).
  { rewrite (sameShape_originalOf facingDots ps1 0 Hs1). reflexivity. }
  assert (Hk0 : kickT (dotOf ps1 0) = 1 /\ timer (dotOf ps1 0) = 0).
  { rewrite Hd1, animateDot_rest; cbn; [done | lra | lra]. }
  rewrite (first_dot_spreadDots pinholeHost ps1 (Vec2 400 300) (Some (Vec2 700 300))
             true stillPoints sceneCamera Hwf1 Hc1).
  unfold prevCursorWorldOf.
  rewrite (resolve_center ps1 Hr1), (resolve_right ps1 Hr1), Hr1, Ho1.
  cbn [stillPoints quaternion].
  generalize dependent (dotOf ps1 0). intros d1 _ [Hk1 Ht1].
  clear - Hk1 Ht1.
  unfold steps. cbn [Nat.add seq fold_left].
  (* steps 0 to 5: beyond the soft band *)
  do 6 (rewrite stepAt_far by swipe_ineq).
  (* steps 6 and 7: in the soft band *)
  destruct (stepAt_band 2 (Vec2 400 300) (Some (Vec2 700 300)) (Quat 0 0 0 1)
              (Some (Vec3 1.2 0 3.4)) (Vec3 0 0 2) (Vec3 0 0 2) d1 false 6)
    as (d6 & E6 & K6 & T6); [lra | swipe_ineq | swipe_ineq |].
  rewrite E6.
  destruct (stepAt_band 2 (Vec2 400 300) (Some (Vec2 700 300)) (Quat 0 0 0 1)
              (Some (Vec3 1.2 0 3.4)) (Vec3 0 0 2) (Vec3 0 0 2) d6 true 7)
    as (d7 & E7 & K7 & T7); [lra | swipe_ineq | swipe_ineq |].
  rewrite E7.
  (* step 8: inside the zone, the pointer is fast *)
  destruct (stepAt_kick 2 (Vec2 400 300) (Some (Vec2 700 300)) (Quat 0 0 0 1)
              (Some (Vec3 1.2 0 3.4)) (Vec3 0 0 2) (Vec3 0 0 2) d7 true 8)
    as (d8 & E8 & K8 & T8); [lra | swipe_ineq | |].
  { cbn [x2 y2]. apply Rlt_gt.
    apply (Rmult_lt_reg_r 5); [lra|].
    replace (sqrt ((400 - 700) * (400 - 700) + (300 - 300) * (300 - 300)) / 5 * 5)
      with (sqrt ((400 - 700) * (400 - 700) + (300 - 300) * (300 - 300)))
      by (field).
    replace ((400 - 700) * (400 - 700) + (300 - 300) * (300 - 300))
      with (300 * 300) by lra.
    rewrite sqrt_square; lra. }
  rewrite E8.
  (* steps 9 to 12: the dot is in its kick and is skipped *)
  do 4 (rewrite stepAt_skip by lra).
  cbn [fst snd]. lra.
Qed.

Lemma runFrames_spec (h : Host) (frames : list FrameParams) :
  forall sv : Service,
    wf (particleSphere sv) ->
    wf (particleSphere (runFrames h sv frames)) /\
    sameShape (particleSphere sv) (particleSphere (runFrames h sv frames)) /\
    (allDots regimeOk (particleSphere sv) ->
     allDots regimeOk (particleSphere (runFrames h sv frames))).
Proof.
  induction frames as [|p rest IH]; intros sv Hwf.
  - cbn. split; [exact Hwf|]. split; [apply sameShape_refl | done].
  - cbn [runFrames fold_left]. fold (runFrames h (fst (update h sv p)) rest).
    destruct (update_spec h sv p Hwf) as (Hwf1 & Hs1 & Hinv1).
    destruct (IH (fst (update h sv p)) Hwf1) as (Hwf2 & Hs2 & Hinv2).
    split; [exact Hwf2|]. split; [eapply sameShape_trans; eassumption | tauto].
Qed.

(** C2, as the code has it: after any sequence of frame updates of a field
    whose dots have a kick progress of at most 1 and a timer that is not
    negative (as the constructor leaves them), every dot is still so, at
    least one of the three regimes describes it, and returning excludes the
    other two.  Kicking and holding do not exclude each other. *)
Theorem regimes_cover (h : Host) (sv : Service) (frames : list FrameParams) (j : nat) :
  wf (particleSphere sv) -> allDots regimeOk (particleSphere sv) ->
  (j < DOT_COUNT (particleSphere sv))%nat ->
  let d := dotOf (particleSphere (runFrames h sv frames)) j in
  (kickT d <= 1 /\ 0 <= timer d) /\
  (kickT d < 1 \/ timer d > 0 \/ (timer d = 0 /\ kickT d = 1)) /\
  (timer d = 0 /\ kickT d = 1 -> ~ kickT d < 1 /\ ~ timer d > 0).
Proof.
  intros Hwf Hall Hj d.
  destruct (runFrames_spec h frames sv Hwf) as (_ & Hs & Hinv).
  assert (Hok : regimeOk d).
  { apply (Hinv Hall). destruct Hs as (-> & _). exact Hj. }
  destruct Hok as [Hk Ht]. split; [done|]. split; [|lra].
  destruct (Rlt_dec (kickT d) 1); [left; done|].
  destruct (Rgt_dec (timer d) 0); [right; left; done|].
  right. right. lra.
Qed.

Lemma facingDots_regimeOk : allDots regimeOk facingDots.
Proof.
  intros j Hj. cbn in Hj.
  destruct j as [|[|j]]; [| |lia]; unfold regimeOk; cbn; lra.
Qed.

Lemma regimes_cover_witness :
  let sv := newService facingDots in
  wf (particleSphere sv) /\ allDots regimeOk (particleSphere sv) /\
  (0 < DOT_COUNT (particleSphere sv))%nat /\
  let d := dotOf (particleSphere (runFrames pinholeHost sv [swipeFrame])) 0 in
  (kickT d <= 1 /\ 0 <= timer d) /\
  (kickT d < 1 \/ timer d > 0 \/ (timer d = 0 /\ kickT d = 1)) /\
  (timer d = 0 /\ kickT d = 1 -> ~ kickT d < 1 /\ ~ timer d > 0).
Proof.
  intros sv.
  split; [exact facingDots_wf|]. split; [exact facingDots_regimeOk|].
  split; [simpl; lia|].
  apply (regimes_cover pinholeHost (newService facingDots) [swipeFrame] 0).
  - exact facingDots_wf.
  - exact facingDots_regimeOk.
  - simpl; lia.
Defined.

(** *** A swipe away from a crowd of dots *)

Lemma crowdedDots_wf : wf crowdedDots.
Proof. split; reflexivity. Qed.

(** A dot inside the zone under a fast pointer: it is kicked as long as
    the counter of the step is below the cap, and only put on the boundary
    from then on. *)
Lemma spreadDot_fast_inside (radius : R) (pointer : Vector2)
    (lastPointer : option Vector2) (q : Quaternion) (cw ic p : Vector3)
    (d : Dot) (t : bool) (k : nat) :
  ~ kickT d < 1 -> cursorDistance q ic p < radius * 0.38 ->
  pointerForce pointer lastPointer > 0.5 ->
  exists d' : Dot,
    spreadDot radius pointer lastPointer q cw ic p d t k
    = (d', true, if bool_decide (k < MAX_KICKS_PER_STEP)%nat then S k else k) /\
    kickT d' = if bool_decide (k < MAX_KICKS_PER_STEP)%nat then 0 else kickT d.
Proof.
  intros Hk Hin Hf. unfold spreadDot.
  destruct (decide (kickT d < 1)) as [|_]; [contradiction|].
  fold (cursorDistance q ic p). fold (pointerForce pointer lastPointer).
  destruct (decide (cursorDistance q ic p < radius * 0.38)) as [_|N]; [|contradiction].
  rewrite (bool_decide_eq_true_2 _ Hf). cbn [andb].
  destruct (bool_decide (k < MAX_KICKS_PER_STEP)%nat);
    eexists; (split; [reflexivity|]); reflexivity.
Qed.

(** Three dots inside the zone of a sample, none in a kick, under a fast
    pointer: the step kicks the first two and not the third. *)
Lemma crowd_step (pointer : Vector2) (lastPointer : option Vector2)
    (q : Quaternion) (prev : option Vector3) (cw : Vector3)
    (ps : ParticleSphere) (touched : list bool) (s : nat) :
  wf ps -> length touched = DOT_COUNT ps -> DOT_COUNT ps = 3%nat ->
  pointerForce pointer lastPointer > 0.5 ->
  (forall j : nat, (j < 3)%nat ->
     ~ kickT (dotOf ps j) < 1 /\
     cursorDistance q (interpCursorAt prev cw s) (originalOf ps j) < RADIUS ps * 0.38) ->
  let st := spreadDots_step pointer lastPointer q prev cw ps touched s in
  kicksThisStep st = 2%nat /\
  kickT (dotOf (st_ps st) 0) = 0 /\ kickT (dotOf (st_ps st) 1) = 0 /\
  kickT (dotOf (st_ps st) 2) = kickT (dotOf ps 2).
Proof.
  intros Hwf Hlen Hc Hf Hq st.
  destruct (inner_loop_spec pointer lastPointer q cw (interpCursorAt prev cw s)
              ps touched (DOT_COUNT ps) Hwf Hlen ltac:(lia))
    as (_ & _ & _ & _ & Hdone & _).
  fold (spreadDots_step pointer lastPointer q prev cw ps touched s) in Hdone.
  fold st in Hdone.
  pose proof (Hdone 0%nat ltac:(lia)) as H0.
  pose proof (Hdone 1%nat ltac:(lia)) as H1.
  pose proof (Hdone 2%nat ltac:(lia)) as H2.
  assert (E3 : fold_left (spreadDots_dot pointer lastPointer q cw (interpCursorAt prev cw s))
                 (seq 0 3) (mkStep ps touched 0) = st).
  { unfold st, spreadDots_step. rewrite Hc. reflexivity. }
  rewrite E3 in H2. clear Hdone E3.
  cbn [seq fold_left kicksThisStep] in H0.
  set (k1 := kicksThisStep _) in H0, H1. set (k2 := kicksThisStep _) in H1, H2.
  clearbody k1 k2 st.
  destruct (Hq 0%nat ltac:(lia)) as [Hk0 Hin0].
  destruct (Hq 1%nat ltac:(lia)) as [Hk1 Hin1].
  destruct (Hq 2%nat ltac:(lia)) as [Hk2 Hin2].
  assert (B0 : bool_decide (0 < MAX_KICKS_PER_STEP)%nat = true)
    by (apply bool_decide_eq_true_2; unfold MAX_KICKS_PER_STEP; lia).
  assert (B1 : bool_decide (1 < MAX_KICKS_PER_STEP)%nat = true)
    by (apply bool_decide_eq_true_2; unfold MAX_KICKS_PER_STEP; lia).
  assert (B2 : bool_decide (2 < MAX_KICKS_PER_STEP)%nat = false)
    by (apply bool_decide_eq_false_2; unfold MAX_KICKS_PER_STEP; lia).
  destruct (spreadDot_fast_inside (RADIUS ps) pointer lastPointer q cw
              (interpCursorAt prev cw s) (originalOf ps 0) (dotOf ps 0)
              (touched !!! 0%nat) 0 Hk0 Hin0 Hf) as (d0 & E0 & K0).
  rewrite E0, B0 in H0. rewrite B0 in K0. injection H0 as D0 _ Ek1.
  subst k1.
  destruct (spreadDot_fast_inside (RADIUS ps) pointer lastPointer q cw
              (interpCursorAt prev cw s) (originalOf ps 1) (dotOf ps 1)
              (touched !!! 1%nat) 1 Hk1 Hin1 Hf) as (d1 & E1 & K1).
  rewrite E1, B1 in H1. rewrite B1 in K1. injection H1 as D1 _ Ek2.
  subst k2.
  destruct (spreadDot_fast_inside (RADIUS ps) pointer lastPointer q cw
              (interpCursorAt prev cw s) (originalOf ps 2) (dotOf ps 2)
              (touched !!! 2%nat) 2 Hk2 Hin2 Hf) as (d2 & E2 & K2).
  rewrite E2, B2 in H2. rewrite B2 in K2. injection H2 as D2 _ Ek3.
  rewrite <- D0, <- D1, <- D2, <- Ek3. done.
Qed.

Lemma crowd_sample (cw : Vector3) :
  interpCursorAt
    (prevCursorWorldOf pinholeHost crowdedDots sceneCamera (Some (Vec2 400 300)) true)
    cw 0 = Vec3 0 0 2.
Proof.
  unfold prevCursorWorldOf. rewrite (resolve_center crowdedDots eq_refl).
  unfold interpCursorAt, lerpVec3. cbn [INR].
  apply vec3_eq; cbn [vx vy vz]; unfold Rdiv; ring.
Qed.

Lemma crowd_inside (j : nat) :
  (j < 3)%nat ->
  ~ kickT (dotOf crowdedDots j) < 1 /\
  cursorDistance (Quat 0 0 0 1) (Vec3 0 0 2) (originalOf crowdedDots j)
    < RADIUS crowdedDots * 0.38.
Proof.
  intros Hj.
  assert (Hd : cursorDistance (Quat 0 0 0 1) (Vec3 0 0 2) (originalOf crowdedDots j)
               = sqrt (16 / 101)).
  { unfold cursorDistance, V3.length. f_equal.
    destruct j as [|[|[|j]]]; [| | | lia]; simpl; field. }
  rewrite Hd. split.
  - destruct j as [|[|[|j]]]; [| | | lia]; simpl; lra.
  - cbn [RADIUS crowdedDots]. apply sqrt_lt_bound; lra.
Qed.

Lemma swipe_away_force : pointerForce (Vec2 700 300) (Some (Vec2 400 300)) > 0.5.
Proof.
  unfold pointerForce. cbn [x2 y2].
  replace ((700 - 400) * (700 - 400) + (300 - 300) * (300 - 300))
    with (300 * 300) by lra.
  rewrite sqrt_square; lra.
Qed.

(** The pointer has moved from the middle of the window to (700, 300).
    Step 0 samples the previous cursor, (0, 0, 2); the three dots of the
    field are inside its zone, none is in a kick, and the pointer is fast.
    The step kicks the first two dots and puts the third on the boundary
    without a kick: the cap binds. *)
Lemma kick_cap_per_step_witness :
  let ptr := Vec2 700 300 in
  let lastPtr := Some (Vec2 400 300) in
  let ps := crowdedDots in
  let cw := resolveCursorWorld pinholeHost ps sceneCamera ptr in
  let prev := prevCursorWorldOf pinholeHost ps sceneCamera lastPtr true in
  let q := quaternion stillPoints in
  let before :=
    spreadDots_pass ptr lastPtr q prev cw (seq 0 0)
      (ps, replicate (DOT_COUNT ps) false) in
  let st := spreadDots_step ptr lastPtr q prev cw (fst before) (snd before) 0 in
  (wf ps /\ (0 <= steps)%nat) /\
  (pointerForce ptr lastPtr > 0.5 /\
   forall j : nat, (j < 3)%nat ->
     ~ kickT (dotOf (fst before) j) < 1 /\
     cursorDistance q (interpCursorAt prev cw 0) (originalOf (fst before) j)
       < RADIUS ps * 0.38) /\
  (spreadDots_pass ptr lastPtr q prev cw (seq 0 (S 0))
     (ps, replicate (DOT_COUNT ps) false) = (st_ps st, touchedThisFrame st) /\
   length (newKicks (fst before) (st_ps st)) = kicksThisStep st /\
   (length (newKicks (fst before) (st_ps st)) <= 2)%nat) /\
  kicksThisStep st = 2%nat /\
  kickT (dotOf (st_ps st) 0) = 0 /\ kickT (dotOf (st_ps st) 1) = 0 /\
  kickT (dotOf (st_ps st) 2) = 1.
Proof.
  intros ptr lastPtr ps cw prev q before st.
  assert (Hq : forall j : nat, (j < 3)%nat ->
            ~ kickT (dotOf crowdedDots j) < 1 /\
            cursorDistance q (interpCursorAt prev cw 0) (originalOf crowdedDots j)
              < RADIUS crowdedDots * 0.38).
  { intros j Hj. unfold prev, lastPtr. rewrite crowd_sample. exact (crowd_inside j Hj). }
  split; [split; [exact crowdedDots_wf | lia]|].
  split; [split; [exact swipe_away_force | exact Hq]|].
  split.
  { exact (kick_cap_per_step pinholeHost crowdedDots (Vec2 700 300)
             (Some (Vec2 400 300)) true stillPoints sceneCamera 0
             crowdedDots_wf ltac:(lia)). }
  exact (crowd_step ptr lastPtr q prev cw crowdedDots (replicate 3 false) 0
           crowdedDots_wf eq_refl eq_refl swipe_away_force Hq).
Defined.

(** ** The morph toggle *)

(** Nothing the host does moves [morphTarget] or [morphLerp] away from 1:
    [update] eases [morphLerp] toward a target that nothing sets, and the
    toggle writes [enableMorph], which [update] does not read. *)
Lemma animate_service (h : Host) (t : R) (app : App) :
  exists p : FrameParams,
    interactionService (animate h t app) = fst (update h (interactionService app) p).
Proof.
  unfold animate. eexists.
  match goal with |- context [match snd ?r with _ => _ end] => destruct (snd r) end;
    reflexivity.
Qed.

Lemma handle_morphLerp (h : Host) (app : App) (e : HostEvent) :
  morphLerp (interactionService app) = 1 /\ morphTarget (interactionService app) = 1 ->
  morphLerp (interactionService (handle h app e)) = 1 /\
  morphTarget (interactionService (handle h app e)) = 1.
Proof.
  intros [Hl Ht]. destruct e as [t|c|x y]; cbn [handle].
  - destruct (animate_service h t app) as [p ->].
    destruct (update_morph h (interactionService app) p) as (El & Et & _).
    rewrite El, Et, Hl, Ht. split; lra.
  - cbn. done.
  - cbn. done.
Qed.

Lemma run_morphLerp (h : Host) (es : list HostEvent) :
  forall app : App,
    morphLerp (interactionService app) = 1 /\ morphTarget (interactionService app) = 1 ->
    morphLerp (interactionService (run h app es)) = 1 /\
    morphTarget (interactionService (run h app es)) = 1.
Proof.
  induction es as [|e es IH]; intros app H; [exact H|].
  cbn [run fold_left]. apply IH, handle_morphLerp, H.
Qed.

(** The flag acts on the scale of the points object, in the frame that
    follows the toggle. *)
Lemma animate_scale (h : Host) (t : R) (app : App) :
  scale (app_points (animate h t app))
  = (if enableMorph (interactionService app)
     then Vec3 (1 + sin (t * 0.001) * 0.05) (1 + sin (t * 0.001) * 0.05)
               (1 + sin (t * 0.001) * 0.05)
     else Vec3 1 1 1).
Proof.
  unfold animate, update. cbn [points snd fst].
  destruct (enableMorph (interactionService app)); reflexivity.
Qed.

(** *** The wave on a field at rest *)

Lemma animateSpreadReturn_rest (ps : ParticleSphere) :
  wf ps -> allDots restDot ps ->
  wf (animateSpreadReturn ps) /\ sameShape ps (animateSpreadReturn ps) /\
  allDots restDot (animateSpreadReturn ps).
Proof.
  intros Hwf Hall.
  destruct (animateSpreadReturn_spec ps Hwf) as (Hwf1 & Hs1 & Hd1).
  split; [exact Hwf1|]. split; [exact Hs1|].
  intros j Hj. assert (Hj' : (j < DOT_COUNT ps)%nat) by (destruct Hs1 as (<- & _); exact Hj).
  rewrite Hd1 by exact Hj'. destruct (Hall j Hj') as (Hk & Ht & Ho).
  rewrite animateDot_rest by lra. unfold restDot. cbn [kickT timer offset].
  split; [exact Hk|]. split; [exact Ht|].
  rewrite Ho. apply vec3_eq; cbn [V3.multiplyScalar vx vy vz]; lra.
Qed.

Lemma morph_body_length (t : R) (ps : ParticleSphere) (lerp : R) (l : list nat) :
  forall arr : list R,
    length (fold_left (morph_body t ps lerp) l arr) = length arr.
Proof.
  induction l as [|i l IH]; intros arr; [reflexivity|].
  cbn [fold_left]. rewrite IH. unfold morph_body. rewrite !length_insert. reflexivity.
Qed.

Lemma animate_idle (h : Host) (t : R) (app : App) :
  idleApp app -> idleApp (animate h t app).
Proof.
  intros (Hp & Hf & Hl & Ht & Hwf & Hs & Hrest & Hlen).
  destruct (animateSpreadReturn_rest _ Hwf Hrest) as (Hwf1 & Hs1 & Hrest1).
  unfold animate, update. cbn [pointer points camera time fst snd]. rewrite Hp, Hf.
  cbn [fst snd]. unfold idleApp.
  cbn [app_pointer interactionService enableMorph morphLerp morphTarget
       particleSphere app_points position_array].
  split; [reflexivity|]. split; [reflexivity|]. split; [rewrite Hl, Ht; lra|].
  split; [exact Ht|]. split; [exact Hwf1|].
  split; [eapply sameShape_trans; eassumption|]. split; [exact Hrest1|].
  rewrite morph_body_length. cbn. exact Hlen.
Qed.

(** In such a frame at time 0 the north pole is drawn at height 2.15: the
    radius 2 plus the whole wave, 0.15. *)
Lemma animate_idle_pole (h : Host) (app : App) :
  idleApp app -> position_array (app_points (animate h 0 app)) !!! 1%nat = 2.15.
Proof.
  intros (Hp & Hf & Hl & Ht & Hwf & Hs & Hrest & Hlen).
  destruct (animateSpreadReturn_rest _ Hwf Hrest) as (Hwf1 & Hs1 & Hrest1).
  unfold animate, update. cbn [pointer points camera time fst snd]. rewrite Hp, Hf.
  cbn [fst snd app_points position_array setScale setRotationY].
  set (ps1 := animateSpreadReturn (particleSphere (interactionService app))) in *.
  assert (Hs' : sameShape poles ps1) by (eapply sameShape_trans; eassumption).
  destruct Hs' as (Hc & Hr & Ho).
  assert (Hoff : spreadOffsets ps1 !!! 1%nat = 0).
  { assert (H0 : (0 < DOT_COUNT ps1)%nat) by (rewrite Hc; cbn; lia).
    destruct (Hrest1 0%nat H0) as (_ & _ & E).
    apply (f_equal vy) in E. exact E. }
  rewrite Hc. cbn [poles DOT_COUNT seq fold_left].
  unfold morph_body at 1.
  rewrite !list_lookup_total_insert_ne by lia.
  unfold morph_body.
  rewrite list_lookup_total_insert_ne by lia.
  rewrite list_lookup_total_insert_eq by (rewrite length_insert; lia).
  rewrite Ho, Hr, Hl, Ht. cbn [Nat.mul Nat.add]. rewrite Hoff.
  cbn [poles originalPositions RADIUS].
  change ([0; 2; 0; 0; -2; 0] !!! 0%nat) with 0.
  change ([0; 2; 0; 0; -2; 0] !!! 1%nat) with 2.
  change ([0; 2; 0; 0; -2; 0] !!! 2%nat) with 0.
  assert (Hclamp : clamp (2 / 2) (-1) 1 = 1).
  { unfold clamp, Math_max, Math_min, Rmax, Rmin.
    destruct (Rle_dec 1 (2 / 2)); destruct (Rle_dec (-1) _); lra. }
  assert (Hatan : Math_atan2 (0 / 2) (0 / 2) = 0).
  { unfold Math_atan2.
    destruct (Rlt_dec 0 (0 / 2)); [lra|].
    destruct (Rlt_dec (0 / 2) 0); [lra|]. reflexivity. }
  rewrite Hclamp, Hatan, acos_1.
  replace (0 * 0.002 + 0 * 5 + 0 * 3) with 0 by lra.
  replace (0 * 0.001 + 0 * 3 - 0 * 2) with 0 by lra.
  rewrite sin_0, cos_0. lra.
Qed.

Lemma run_idle (h : Host) (t : R) (n : nat) :
  forall app : App, idleApp app -> idleApp (run h app (repeat (Frame t) n)).
Proof.
  induction n as [|n IH]; intros app Hidle; [exact Hidle|].
  cbn [repeat run fold_left handle]. apply IH, animate_idle, Hidle.
Qed.

Lemma poles_rest : allDots restDot poles.
Proof.
  intros j Hj. cbn in Hj.
  destruct j as [|[|j]]; [| |lia]; unfold restDot; cbn; done.
Qed.

Lemma startApp_idle : idleApp (startApp poles stillPoints sceneCamera false).
Proof.
  unfold idleApp. cbn.
  split; [reflexivity|]. split; [reflexivity|]. split; [reflexivity|].
  split; [reflexivity|]. split; [exact poles_wf|].
  split; [apply sameShape_refl|]. split; [exact poles_rest | reflexivity].
Qed.

(** C1, on the code: whatever the host does, toggles included, [morphLerp]
    and [morphTarget] stay at 1, because the toggle writes [enableMorph]
    and [update] reads [morphTarget].  With the flag off from the start and
    any number of frames, the wave is still there: at time 0 the north pole
    of the field of two dots, whose spread offset is zero, is drawn at
    height 2.15, not at the radius 2.  What the flag does change, and at
    once, is the scale of the points object. *)
Theorem morph_flag_ignored (h : Host) :
  (forall (ps : ParticleSphere) (pts : Points) (cam : Camera) (checked : bool)
          (es : list HostEvent),
     let app := run h (startApp ps pts cam checked) es in
     morphLerp (interactionService app) = 1 /\
     morphTarget (interactionService app) = 1) /\
  (forall n : nat,
     let app := run h (startApp poles stillPoints sceneCamera false)
                  (repeat (Frame 0) n ++ [Frame 0]) in
     enableMorph (interactionService app) = false /\
     morphLerp (interactionService app) = 1 /\
     RADIUS (particleSphere (interactionService app)) = 2 /\
     spreadOffsets (particleSphere (interactionService app)) !!! 1%nat = 0 /\
     position_array (app_points app) !!! 1%nat = 2.15) /\
  (forall (t : R) (app : App),
     scale (app_points (animate h t app))
     = (if enableMorph (interactionService app)
        then Vec3 (1 + sin (t * 0.001) * 0.05) (1 + sin (t * 0.001) * 0.05)
                  (1 + sin (t * 0.001) * 0.05)
        else Vec3 1 1 1)).
Proof.
  split; [|split].
  - intros ps pts cam checked es app. apply run_morphLerp. cbn. done.
  - intros n app.
    pose proof (run_idle h 0 n _ startApp_idle) as Hidle.
    assert (E : app = animate h 0 (run h (startApp poles stillPoints sceneCamera false)
                                     (repeat (Frame 0) n))).
    { unfold app, run. rewrite fold_left_app. reflexivity. }
    pose proof (animate_idle h 0 _ Hidle) as Hidle'.
    pose proof (animate_idle_pole h _ Hidle) as Hpole.
    rewrite <- E in Hidle', Hpole.
    destruct Hidle' as (_ & Hf & Hl & _ & Hwf & Hs & Hrest & _).
    split; [exact Hf|]. split; [exact Hl|].
    split; [destruct Hs as (_ & -> & _); reflexivity|].
    split; [|exact Hpole].
    assert (H0 : (0 < DOT_COUNT (particleSphere (interactionService app)))%nat)
      by (destruct Hs as (-> & _); cbn; lia).
    destruct (Hrest 0%nat H0) as (_ & _ & Eo).
    apply (f_equal vy) in Eo. exact Eo.
  - intros t app. apply animate_scale.
Qed.

(** ** The constructed field is a field at rest *)

Section ConstructedField.

Import Construction.

Lemma initParticles_vectors (l : list nat) (ps : ParticleSphereOf jsnum) :
  let ps' := fold_left initParticles_body l ps in
  positions ps' = positions ps ++ flat_map (pushed (DOT_COUNT ps) (RADIUS ps)) l /\
  spreadKickDir ps' = spreadKickDir ps ++ map (fun _ => Vec3 0 0 0) l /\
  spreadKickStart ps' = spreadKickStart ps ++ map (fun _ => Vec3 0 0 0) l.
Proof.
  revert ps. induction l as [|i l IH]; intros ps; simpl.
  - rewrite !app_nil_r. tauto.
  - destruct (IH (initParticles_body ps i)) as (Hp & Hd & Hs).
    simpl in *. rewrite Hp, Hd, Hs.
    rewrite <- !app_assoc. simpl. tauto.
Qed.

Lemma mapM_pushed (count : nat) (radius : R) (l : list nat) :
  (2 <= count)%nat -> (forall i : nat, In i l -> (i < count)%nat) ->
  mapM finite (flat_map (pushed count radius) l)
  = Some (flat_map (latticePoint count radius) l).
Proof.
  intros Hc. induction l as [|i l IH]; intros Hl; [reflexivity|].
  cbn [flat_map].
  pose proof (pushed_finite count radius i Hc (Hl i (or_introl eq_refl))) as Hp.
  cbn zeta in Hp. rewrite Hp. cbn [app mapM finite mbind option_bind mret option_ret].
  rewrite IH by (intros j Hj; apply Hl; right; exact Hj). reflexivity.
Qed.

Lemma const_map_lookup {A : Type} `{Inhabited A} (a : A) (n j : nat) :
  (j < n)%nat -> map (fun _ : nat => a) (seq 0 n) !!! j = a.
Proof.
  intros Hj. apply list_lookup_total_correct.
  rewrite list_lookup_fmap, lookup_seq_lt by exact Hj. reflexivity.
Qed.

Lemma const_flat_map_lookup (n j k : nat) :
  (j < n)%nat -> (k < 3)%nat ->
  flat_map (fun _ : nat => [0; 0; 0]) (seq 0 n) !!! (j * 3 + k)%nat = 0.
Proof.
  intros Hj Hk. apply list_lookup_total_correct.
  rewrite flat_map_seq_lookup by (reflexivity || assumption).
  destruct k as [|[|[|k]]]; [reflexivity | reflexivity | reflexivity | lia].
Qed.

(** For two dots or more, the constructor gives a well-formed field of real
    numbers, every dot of it at rest. *)
Lemma constructed_field (count : nat) (radius : R) :
  (2 <= count)%nat ->
  exists ps : ParticleSphere,
    finiteField (Construction.new count radius) = Some ps /\
    DOT_COUNT ps = count /\ RADIUS ps = radius /\
    originalPositions ps = flat_map (latticePoint count radius) (seq 0 count) /\
    wf ps /\ allDots restDot ps /\ allDots regimeOk ps.
Proof.
  intros Hc.
  destruct (initParticles_fold (seq 0 count)
              (mkParticleSphere count radius [] [] [] [] [] [] []))
    as (Hcount & Hrad & Horig & Hoff & Htm & Hk).
  destruct (initParticles_vectors (seq 0 count)
              (mkParticleSphere count radius [] [] [] [] [] [] []))
    as (Hpos & Hkd & Hks).
  simpl in Hcount, Hrad, Horig, Hoff, Htm, Hk, Hpos, Hkd, Hks.
  change (fold_left initParticles_body (seq 0 count)
            (mkParticleSphere count radius [] [] [] [] [] [] []))
    with (Construction.new count radius) in *.
  assert (Hin : forall i : nat, In i (seq 0 count) -> (i < count)%nat)
    by (intros i Hi; apply in_seq in Hi; lia).
  eexists. split.
  { unfold finiteField. rewrite Hpos, Horig, (mapM_pushed count radius _ Hc Hin).
    cbn [mbind option_bind]. reflexivity. }
  rewrite Hcount, Hrad, Hoff, Htm, Hk, Hkd, Hks.
  split; [reflexivity|]. split; [reflexivity|]. split; [reflexivity|].
  assert (Hrest : allDots restDot
                    (mkParticleSphere count radius
                       (flat_map (latticePoint count radius) (seq 0 count))
                       (flat_map (latticePoint count radius) (seq 0 count))
                       (flat_map (fun _ : nat => [0; 0; 0]) (seq 0 count))
                       (map (fun _ : nat => 0) (seq 0 count))
                       (map (fun _ : nat => 1) (seq 0 count))
                       (map (fun _ : nat => Vec3 0 0 0) (seq 0 count))
                       (map (fun _ : nat => Vec3 0 0 0) (seq 0 count)))).
  { intros j Hj. cbn [DOT_COUNT] in Hj. unfold restDot, dotOf, offsetOf.
    cbn [kickT timer offset spreadKickT spreadTimers spreadOffsets].
    rewrite !const_map_lookup by exact Hj.
    replace (j * 3)%nat with (j * 3 + 0)%nat at 1 by lia.
    rewrite !const_flat_map_lookup by (exact Hj || lia). done. }
  split; [|split; [exact Hrest|]].
  - split; cbn [DOT_COUNT originalPositions spreadOffsets spreadTimers spreadKickT
                spreadKickDir spreadKickStart];
      rewrite ?length_map, ?length_seq; try reflexivity;
      apply flat_map_seq_length; reflexivity.
  - intros j Hj. destruct (Hrest j Hj) as (Ek & Et & _).
    unfold regimeOk. rewrite Ek, Et. lra.
Qed.

End ConstructedField.

(** ** The setting of the program *)

(** The rotation that [animate] hands to [update] is a unit quaternion. *)
Lemma animate_quaternion_unit (h : Host) (t : R) (app : App) :
  unitQuat (quaternion (app_points (animate h t app))).
Proof.
  unfold animate, update. cbn [points snd fst].
  pose proof (setRotationY_unit (app_points app)
                (rotation_y (app_points app) + 0.002)) as Hu.
  destruct (enableMorph (interactionService app)); exact Hu.
Qed.


(** * Further properties of the code *)

(** ** mathUtils.js *)

(** X1: on [0, 1] the ease curve stays between 0 and 1, does not decrease,
    and is symmetric about the middle: [ease (1 - t) = 1 - ease t]. *)
Theorem easeInOutSine_shape (t u : R) :
  0 <= t -> t <= u -> u <= 1 ->
  0 <= easeInOutSine t /\ easeInOutSine t <= easeInOutSine u /\
  easeInOutSine u <= 1 /\
  easeInOutSine (1 - t) = 1 - easeInOutSine t.
Proof.
  intros Ht Htu Hu. unfold easeInOutSine.
  pose proof PI_RGT_0 as Hpi.
  pose proof (COS_bound (PI * t)) as [Hl1 Hu1].
  pose proof (COS_bound (PI * u)) as [Hl2 Hu2].
  assert (Hmono : cos (PI * u) <= cos (PI * t)).
  { apply cos_decr_1; nra. }
  assert (Hsym : cos (PI * (1 - t)) = - cos (PI * t)).
  { replace (PI * (1 - t)) with (PI - PI * t) by ring.
    apply Rtrigo_facts.cos_pi_minus. }
  rewrite Hsym. repeat split; lra.
Qed.

Lemma easeInOutSine_shape_witness :
  0 <= 0.25 /\ 0.25 <= 0.5 /\ 0.5 <= 1 /\
  0 <= easeInOutSine 0.25 /\ easeInOutSine 0.25 <= easeInOutSine 0.5 /\
  easeInOutSine 0.5 <= 1 /\
  easeInOutSine (1 - 0.25) = 1 - easeInOutSine 0.25.
Proof.
  split; [lra|]. split; [lra|]. split; [lra|].
  apply (easeInOutSine_shape 0.25 0.5); lra.
Defined.

(** X2: with [min <= max], [clamp] gives a value between the two, the
    value itself when it is in range, and the nearer bound when it is not.
    With the bounds the wrong way round it gives [min], whatever the
    value. *)
Theorem clamp_range (val min max : R) :
  (min <= max ->
     min <= clamp val min max <= max /\
     (min <= val <= max -> clamp val min max = val) /\
     (val <= min -> clamp val min max = min) /\
     (max <= val -> clamp val min max = max)) /\
  (max < min -> clamp val min max = min).
Proof.
  unfold clamp, Math_max, Math_min, Rmax, Rmin.
  destruct (Rle_dec max val); destruct (Rle_dec min max);
    destruct (Rle_dec min val); repeat split; intros; lra.
Qed.

(** ** The samples of the cursor path *)

(** X3: with a previous cursor, the 13 samples of a frame run from the
    previous cursor (step 0) to the current one (step 12) in equal parts of
    the segment; without one, every sample is the current cursor. *)
Theorem cursor_path_samples (prev cw : Vector3) (s : nat) :
  interpCursorAt (Some prev) cw 0 = prev /\
  interpCursorAt (Some prev) cw steps = cw /\
  V3.sub (interpCursorAt (Some prev) cw s) cw
    = V3.multiplyScalar (V3.sub prev cw) (1 - INR s / 12) /\
  V3.sub (interpCursorAt (Some prev) cw (S s)) (interpCursorAt (Some prev) cw s)
    = V3.multiplyScalar (V3.sub cw prev) (1 / 12) /\
  interpCursorAt None cw s = cw /\
  length (seq 0 (steps + 1)) = 13%nat.
Proof.
  assert (H12 : INR steps = 12) by (unfold steps; cbn [INR]; lra).
  unfold interpCursorAt, lerpVec3. rewrite H12.
  split; [|split; [|split; [|split; [|split]]]]; try reflexivity.
  - apply vec3_eq; cbn [vx vy vz INR]; lra.
  - unfold steps. cbn [INR]. apply vec3_eq; cbn [vx vy vz]; lra.
  - apply vec3_eq; cbn [V3.sub V3.multiplyScalar vx vy vz]; lra.
  - rewrite S_INR. apply vec3_eq; cbn [V3.sub V3.multiplyScalar vx vy vz]; lra.
Qed.

(** ** The pointer geometry resolver *)

Lemma length_scale (v : Vector3) (k : R) :
  0 <= k -> V3.length (V3.multiplyScalar v k) = k * V3.length v.
Proof.
  intros Hk. apply length_of_sq.
  - apply Rmult_le_pos; [exact Hk | rewrite length_dot; apply sqrt_pos].
  - transitivity (k * k * (V3.length v * V3.length v)); [|ring].
    rewrite length_sq. unfold V3.dot. cbn [V3.multiplyScalar vx vy vz]. ring.
Qed.

Lemma normalize_scale (v : Vector3) (k : R) :
  0 < k -> V3.length v <> 0 ->
  V3.normalize (V3.multiplyScalar v k) = V3.normalize v.
Proof.
  intros Hk Hl. unfold V3.normalize, V3.divideScalar.
  rewrite length_scale by lra.
  destruct (Req_dec_T (k * V3.length v) 0) as [E|_].
  { exfalso. apply Rmult_integral in E. destruct E; [lra | contradiction]. }
  destruct (Req_dec_T (V3.length v) 0) as [|_]; [contradiction|].
  apply vec3_eq; cbn [V3.multiplyScalar vx vy vz]; field; split; lra.
Qed.

(** X4: when the ray meets the sphere, the point the resolver returns is
    the first of the points of the ray on the sphere: its parameter [t] is
    the smaller root of the quadratic.  With the camera outside the sphere
    ([c > 0]) and the ray towards it ([b < 0]) the point is in front of the
    camera ([0 < t]). *)
Theorem resolver_first_hit (h : Host) (ps : ParticleSphere) (cam : Camera)
    (pointer : Vector2) :
  let ray := setFromCamera h
               (Vec2 (x2 pointer / innerWidth h * 2 - 1)
                     (- (y2 pointer / innerHeight h) * 2 + 1)) cam in
  let a := V3.dot (direction ray) (direction ray) in
  let b := 2 * V3.dot (origin ray) (direction ray) in
  let c := V3.dot (origin ray) (origin ray) - RADIUS ps * RADIUS ps in
  let t := (- b - sqrt (b * b - 4 * a * c)) / (2 * a) in
  0 < a -> b * b - 4 * a * c >= 0 ->
  resolveCursorWorld h ps cam pointer
    = V3.add (origin ray) (V3.multiplyScalar (direction ray) t) /\
  (forall t' : R,
     V3.dot (V3.add (origin ray) (V3.multiplyScalar (direction ray) t'))
            (V3.add (origin ray) (V3.multiplyScalar (direction ray) t'))
     = RADIUS ps * RADIUS ps -> t <= t') /\
  (0 < c -> b < 0 -> 0 < t).
Proof.
  intros ray a b c t Ha Hd.
  assert (E : resolveCursorWorld h ps cam pointer
              = V3.add (origin ray) (V3.multiplyScalar (direction ray) t)).
  { unfold resolveCursorWorld. fold ray. fold a. fold b. fold c.
    destruct (decide (b * b - 4 * a * c >= 0)) as [_|N]; [reflexivity | contradiction]. }
  assert (Hs0 : 0 <= sqrt (b * b - 4 * a * c)) by apply sqrt_pos.
  assert (Hs : sqrt (b * b - 4 * a * c) * sqrt (b * b - 4 * a * c) = b * b - 4 * a * c)
    by (apply sqrt_sqrt; lra).
  set (s := sqrt (b * b - 4 * a * c)) in *.
  split; [exact E|]. split.
  - intros t' Ht'.
    assert (Hq : a * t' * t' + b * t' + c = 0).
    { unfold a, b, c, V3.dot in *. cbn [V3.add V3.multiplyScalar vx vy vz] in Ht'.
      nra. }
    assert (Hx : (2 * a * t' + b) * (2 * a * t' + b) = s * s) by nra.
    assert (Hge : - s <= 2 * a * t' + b) by nra.
    unfold t. apply (Rmult_le_reg_r (2 * a)); [lra|].
    replace ((- b - s) / (2 * a) * (2 * a)) with (- b - s) by (field; lra).
    lra.
  - intros Hc Hb. unfold t.
    assert (s < - b) by nra.
    apply Rdiv_lt_0_compat; lra.
Qed.

Lemma resolver_first_hit_witness :
  let pointer := Vec2 400 300 in
  let ray := setFromCamera pinholeHost
               (Vec2 (x2 pointer / innerWidth pinholeHost * 2 - 1)
                     (- (y2 pointer / innerHeight pinholeHost) * 2 + 1)) sceneCamera in
  let a := V3.dot (direction ray) (direction ray) in
  let b := 2 * V3.dot (origin ray) (direction ray) in
  let c := V3.dot (origin ray) (origin ray) - RADIUS poles * RADIUS poles in
  let t := (- b - sqrt (b * b - 4 * a * c)) / (2 * a) in
  0 < a /\ b * b - 4 * a * c >= 0 /\
  resolveCursorWorld pinholeHost poles sceneCamera pointer
    = V3.add (origin ray) (V3.multiplyScalar (direction ray) t) /\
  (forall t' : R,
     V3.dot (V3.add (origin ray) (V3.multiplyScalar (direction ray) t'))
            (V3.add (origin ray) (V3.multiplyScalar (direction ray) t'))
     = RADIUS poles * RADIUS poles -> t <= t') /\
  (0 < c -> b < 0 -> 0 < t).
Proof.
  intros pointer ray a b c t.
  assert (Hray : ray = mkRay (Vec3 0 0 5) (Vec3 0 0 (-1))).
  { unfold ray, pointer.
    cbn [pinholeHost setFromCamera innerWidth innerHeight x2 y2].
    unfold pinholeRay. cbn [sceneCamera position x2 y2].
    f_equal. rewrite (normalize_known _ 1); [| lra | unfold V3.dot; cbn [vx vy vz]; lra].
    apply vec3_eq; cbn [V3.multiplyScalar vx vy vz]; lra. }
  assert (Ha : 0 < a).
  { unfold a. rewrite Hray. unfold V3.dot. cbn [direction vx vy vz]. lra. }
  assert (Hd : b * b - 4 * a * c >= 0).
  { unfold a, b, c. rewrite Hray. unfold V3.dot.
    cbn [direction origin vx vy vz poles RADIUS]. lra. }
  split; [exact Ha|]. split; [exact Hd|].
  exact (resolver_first_hit pinholeHost poles sceneCamera (Vec2 400 300) Ha Hd).
Defined.

(** X5: when the ray misses the sphere, the fallback point is the camera
    position plus [RADIUS] times the normalised direction of the ray: for a
    ray that starts at the camera, the 5 units along the ray play no part. *)
Theorem fallback_along_ray (h : Host) (ps : ParticleSphere) (cam : Camera)
    (pointer : Vector2) :
  let ray := setFromCamera h
               (Vec2 (x2 pointer / innerWidth h * 2 - 1)
                     (- (y2 pointer / innerHeight h) * 2 + 1)) cam in
  let a := V3.dot (direction ray) (direction ray) in
  let b := 2 * V3.dot (origin ray) (direction ray) in
  let c := V3.dot (origin ray) (origin ray) - RADIUS ps * RADIUS ps in
  perspectiveHost h -> b * b - 4 * a * c < 0 ->
  resolveCursorWorld h ps cam pointer
  = V3.add (position cam)
      (V3.multiplyScalar (V3.normalize (direction ray)) (RADIUS ps)).
Proof.
  intros ray a b c Hh Hd.
  destruct (Hh (Vec2 (x2 pointer / innerWidth h * 2 - 1)
                     (- (y2 pointer / innerHeight h) * 2 + 1)) cam) as [Ho Ha].
  fold ray in Ho, Ha.
  unfold resolveCursorWorld. fold ray. fold a. fold b. fold c.
  destruct (decide (b * b - 4 * a * c >= 0)) as [P|_]; [lra|].
  f_equal. f_equal. rewrite Ho.
  transitivity (V3.normalize (V3.multiplyScalar (direction ray) 5)).
  - f_equal. apply vec3_eq; cbn [V3.add V3.sub V3.multiplyScalar vx vy vz]; ring.
  - apply normalize_scale; [lra|]. apply Rgt_not_eq, length_pos, Ha.
Qed.

Lemma fallback_along_ray_witness :
  let pointer := Vec2 700 300 in
  let ray := setFromCamera pinholeHost
               (Vec2 (x2 pointer / innerWidth pinholeHost * 2 - 1)
                     (- (y2 pointer / innerHeight pinholeHost) * 2 + 1)) sceneCamera in
  let a := V3.dot (direction ray) (direction ray) in
  let b := 2 * V3.dot (origin ray) (direction ray) in
  let c := V3.dot (origin ray) (origin ray) - RADIUS poles * RADIUS poles in
  perspectiveHost pinholeHost /\ b * b - 4 * a * c < 0 /\
  resolveCursorWorld pinholeHost poles sceneCamera pointer
  = V3.add (position sceneCamera)
      (V3.multiplyScalar (V3.normalize (direction ray)) (RADIUS poles)).
Proof.
  intros pointer ray a b c.
  assert (Hray : ray = mkRay (Vec3 0 0 5) (Vec3 0.6 0 (-0.8))).
  { unfold ray, pointer.
    cbn [pinholeHost setFromCamera innerWidth innerHeight x2 y2].
    unfold pinholeRay. cbn [sceneCamera position x2 y2].
    f_equal. rewrite (normalize_known _ 1.25); [| lra | unfold V3.dot; cbn [vx vy vz]; lra].
    apply vec3_eq; cbn [V3.multiplyScalar vx vy vz]; lra. }
  assert (Hd : b * b - 4 * a * c < 0).
  { unfold a, b, c. rewrite Hray. unfold V3.dot.
    cbn [direction origin vx vy vz poles RADIUS]. lra. }
  split; [exact pinholeHost_perspective|]. split; [exact Hd|].
  exact (fallback_along_ray pinholeHost poles sceneCamera (Vec2 700 300)
           pinholeHost_perspective Hd).
Defined.

(** ** One turn of the loop of [spreadDots] *)

Lemma length_unit_scale (v : Vector3) (k : R) :
  0 < V3.length v -> 0 <= k ->
  V3.length (V3.multiplyScalar (V3.normalize v) k) = k.
Proof.
  intros Hv Hk. rewrite length_scale by exact Hk.
  rewrite (length_of_sq (V3.normalize v) 1); [ring | lra |].
  rewrite normalize_unit; lra.
Qed.

Lemma spreadAmt_range (force radius : R) :
  0 <= radius ->
  0 <= clamp (0.7 * Math_pow (Math_max 0 (force - 1.0)) 1.15) 0 (radius * 0.7)
    <= radius * 0.7.
Proof.
  intros Hr. unfold clamp, Math_max, Math_min.
  generalize (0.7 * Math_pow (Rmax 0 (force - 1.0)) 1.15). intros v.
  unfold Rmax, Rmin.
  destruct (Rle_dec (radius * 0.7) v); destruct (Rle_dec 0 _); lra.
Qed.

Lemma spreadAmt_slow (force radius : R) :
  0 <= radius -> force <= 1 ->
  clamp (0.7 * Math_pow (Math_max 0 (force - 1.0)) 1.15) 0 (radius * 0.7) = 0.
Proof.
  intros Hr Hf. unfold Math_max.
  assert (E : Rmax 0 (force - 1.0) = 0).
  { unfold Rmax. destruct (Rle_dec 0 (force - 1.0)); lra. }
  rewrite E. unfold Math_pow.
  destruct (Req_dec_T 0 0) as [_|N]; [|contradiction].
  unfold clamp, Math_max, Math_min, Rmax, Rmin.
  destruct (Rle_dec (radius * 0.7) (0.7 * 0)); destruct (Rle_dec 0 _); lra.
Qed.

Lemma spreadAmt_fast (force radius : R) :
  0 < radius -> 1 < force ->
  0 < clamp (0.7 * Math_pow (Math_max 0 (force - 1.0)) 1.15) 0 (radius * 0.7).
Proof.
  intros Hr Hf. unfold Math_max.
  assert (E : Rmax 0 (force - 1.0) = force - 1.0).
  { unfold Rmax. destruct (Rle_dec 0 (force - 1.0)); lra. }
  rewrite E. unfold Math_pow.
  destruct (Req_dec_T (force - 1.0) 0) as [Z|_]; [lra|].
  pose proof (exp_pos (1.15 * ln (force - 1.0))) as Hp.
  fold (Rpower (force - 1.0) 1.15) in Hp.
  unfold clamp, Math_max, Math_min, Rmax, Rmin.
  destruct (Rle_dec (radius * 0.7) _); destruct (Rle_dec 0 _); lra.
Qed.

(** X6: the kick of a dot.  When a dot that is not in a kick is inside the
    zone of a cursor sample, the pointer is fast ([force > 0.5]) and the step
    has kicked fewer than two dots, the turn of the loop starts a kick: the
    progress is 0, the counter goes up, the dot is marked, its timer is
    kept, and the kick starts at the offset the dot is snapped to.  For a
    unit rotation the kick direction, taken back to world space, is the
    unit vector from the sample to the dot scaled by [spreadAmt], which
    lies between 0 and 0.7 times the radius.  For [force <= 1] the kick
    direction is the zero vector: the kick then holds the dot on the
    boundary. *)
Theorem kick_vector (pointer : Vector2) (lastPointer : option Vector2)
    (q : Quaternion) (cw ic : Vector3) (st : StepState) (i : nat) :
  let ps := st_ps st in
  let toCursor := V3.sub (V3.applyQuaternion (originalOf ps i) q) ic in
  let force := pointerForce pointer lastPointer in
  let spreadAmt :=
    clamp (0.7 * Math_pow (Math_max 0 (force - 1.0)) 1.15) 0 (RADIUS ps * 0.7) in
  let st' := spreadDots_dot pointer lastPointer q cw ic st i in
  wf ps -> (i < DOT_COUNT ps)%nat ->
  length (touchedThisFrame st) = DOT_COUNT ps ->
  unitQuat q -> 0 <= RADIUS ps ->
  ~ spreadKickT ps !!! i < 1 ->
  V3.length toCursor < RADIUS ps * 0.38 ->
  force > 0.5 -> (kicksThisStep st < MAX_KICKS_PER_STEP)%nat ->
  spreadKickT (st_ps st') !!! i = 0 /\
  kicksThisStep st' = S (kicksThisStep st) /\
  touchedThisFrame st' !!! i = true /\
  spreadTimers (st_ps st') !!! i = spreadTimers ps !!! i /\
  spreadKickStart (st_ps st') !!! i = offsetOf (st_ps st') i /\
  V3.applyQuaternion (spreadKickDir (st_ps st') !!! i) q
    = V3.multiplyScalar (V3.normalize toCursor) spreadAmt /\
  0 <= spreadAmt <= RADIUS ps * 0.7 /\
  (0 < V3.length toCursor ->
     V3.length (spreadKickDir (st_ps st') !!! i) = spreadAmt) /\
  (force <= 1 -> spreadKickDir (st_ps st') !!! i = Vec3 0 0 0) /\
  (1 < force -> 0 < RADIUS ps -> 0 < spreadAmt).
Proof.
  intros ps toCursor force spreadAmt st' Hwf Hi Hlen Hq Hr Hk Hin Hf Hc.
  destruct (spreadDots_dot_spec pointer lastPointer q cw ic st i Hwf Hi Hlen)
    as (_ & _ & _ & Hspec).
  fold st' in Hspec. fold ps in Hspec.
  unfold spreadDot in Hspec. cbn [dotOf kickT timer] in Hspec.
  destruct (decide (spreadKickT ps !!! i < 1)) as [|_]; [contradiction|].
  fold toCursor in Hspec.
  destruct (decide (V3.length toCursor < RADIUS ps * 0.38)) as [_|N]; [|contradiction].
  fold (pointerForce pointer lastPointer) in Hspec. fold force in Hspec.
  rewrite (bool_decide_eq_true_2 _ Hf), (bool_decide_eq_true_2 _ Hc) in Hspec.
  cbn [andb] in Hspec. fold spreadAmt in Hspec.
  pose proof (spreadAmt_range force (RADIUS ps) Hr) as Hrange. fold spreadAmt in Hrange.
  pose proof (spreadAmt_slow force (RADIUS ps) Hr) as Hslow. fold spreadAmt in Hslow.
  pose proof (fun a b => spreadAmt_fast force (RADIUS ps) b a) as Hfast.
  fold spreadAmt in Hfast.
  clearbody spreadAmt.
  set (ob := V3.sub _ (originalOf ps i)) in Hspec. clearbody ob.
  pose proof (f_equal (fun x => fst (fst x)) Hspec) as Ed.
  pose proof (f_equal (fun x => snd (fst x)) Hspec) as Et.
  pose proof (f_equal snd Hspec) as Ec.
  cbn [fst snd] in Ed, Et, Ec.
  assert (Ekd : spreadKickDir (st_ps st') !!! i
                = V3.applyQuaternion
                    (V3.multiplyScalar (V3.normalize toCursor) spreadAmt) (invert q))
    by exact (f_equal kickDir Ed).
  split; [exact (f_equal kickT Ed)|].
  split; [exact Ec|]. split; [exact Et|].
  split; [exact (f_equal timer Ed)|].
  split.
  { transitivity ob; [exact (f_equal kickStart Ed)|].
    symmetry. exact (f_equal offset Ed). }
  split; [rewrite Ekd; apply rot_invert, Hq|].
  split; [exact Hrange|].
  split; [|split].
  - intros Hpos. rewrite Ekd, rot_length by (apply unitQuat_invert, Hq).
    apply length_unit_scale; [exact Hpos | apply Hrange].
  - intros Hle. rewrite Ekd, (Hslow Hle).
    apply vec3_eq; cbn [V3.applyQuaternion V3.multiplyScalar vx vy vz]; ring.
  - exact Hfast.
Qed.

Lemma force_of_step (x y lx : R) :
  0 <= x - lx -> pointerForce (Vec2 x y) (Some (Vec2 lx y)) = (x - lx) / 5.
Proof.
  intros H. unfold pointerForce. cbn [x2 y2].
  replace ((x - lx) * (x - lx) + (y - y) * (y - y)) with ((x - lx) * (x - lx)) by ring.
  rewrite sqrt_square by exact H. reflexivity.
Qed.

Lemma kick_vector_witness :
  let pointer := Vec2 400 300 in
  let lastPointer := Some (Vec2 390 300) in
  let q := Quat 0 0 0 1 in
  let ic := Vec3 0.3 0 2 in
  let st := mkStep facingDots [false; false] 0 in
  let toCursor := V3.sub (V3.applyQuaternion (originalOf facingDots 0) q) ic in
  let st' := spreadDots_dot pointer lastPointer q (Vec3 0 0 2) ic st 0 in
  (wf facingDots /\ unitQuat q /\ ~ spreadKickT facingDots !!! 0%nat < 1 /\
   V3.length toCursor < RADIUS facingDots * 0.38 /\
   pointerForce pointer lastPointer > 0.5) /\
  spreadKickT (st_ps st') !!! 0%nat = 0 /\
  kicksThisStep st' = 1%nat /\
  V3.length (spreadKickDir (st_ps st') !!! 0%nat)
  = clamp (0.7 * Math_pow (Math_max 0 (pointerForce pointer lastPointer - 1.0)) 1.15)
      0 (RADIUS facingDots * 0.7).
Proof.
  intros pointer lastPointer q ic st toCursor st'.
  assert (Hd : V3.length toCursor = 0.3).
  { apply length_of_sq; [lra|]. unfold V3.dot. simpl. lra. }
  assert (Hq : unitQuat q) by (unfold unitQuat; simpl; lra).
  assert (Hk : ~ spreadKickT facingDots !!! 0%nat < 1) by (simpl; lra).
  assert (Hin : V3.length toCursor < RADIUS facingDots * 0.38)
    by (rewrite Hd; simpl; lra).
  assert (Hf : pointerForce pointer lastPointer > 0.5).
  { unfold pointer, lastPointer. rewrite force_of_step; lra. }
  assert (Hr : 0 <= RADIUS facingDots) by (simpl; lra).
  assert (Hc : (kicksThisStep st < MAX_KICKS_PER_STEP)%nat)
    by (unfold MAX_KICKS_PER_STEP; simpl; lia).
  destruct (kick_vector pointer lastPointer q (Vec3 0 0 2) ic st 0
              facingDots_wf ltac:(simpl; lia) eq_refl Hq Hr Hk Hin Hf Hc)
    as (A & B & _ & _ & _ & _ & _ & L & _).
  split; [repeat split; assumption || exact facingDots_wf|].
  split; [exact A|]. split; [exact B|].
  apply L. change (0 < V3.length toCursor). rewrite Hd. lra.
Defined.

(** X7: the soft band.  A dot that is not in a kick and whose home lies
    between the zone and 0.18 beyond it, seen from the sample, is eased
    toward a target: the distance of the drawn dot to the target shrinks by
    the factor 0.82 in every component.  The timer is set to 0.4, the dot is
    marked, and the kick state and the counter are kept.  The target is
    taken around the current cursor, not around the sample: for a unit
    rotation it lies at [CURSOR_RADIUS + 0.001] from the current cursor. *)
Theorem soft_band_step (pointer : Vector2) (lastPointer : option Vector2)
    (q : Quaternion) (cw ic : Vector3) (st : StepState) (i : nat) :
  let ps := st_ps st in
  let toCursor := V3.sub (V3.applyQuaternion (originalOf ps i) q) ic in
  let CURSOR_RADIUS := RADIUS ps * 0.38 in
  let targetLocal :=
    V3.applyQuaternion
      (V3.add cw (V3.multiplyScalar (V3.normalize toCursor) (CURSOR_RADIUS + 0.001)))
      (invert q) in
  let st' := spreadDots_dot pointer lastPointer q cw ic st i in
  wf ps -> (i < DOT_COUNT ps)%nat ->
  length (touchedThisFrame st) = DOT_COUNT ps ->
  ~ spreadKickT ps !!! i < 1 ->
  CURSOR_RADIUS <= V3.length toCursor < CURSOR_RADIUS + 0.18 ->
  V3.sub (displaced (st_ps st') i) targetLocal
    = V3.multiplyScalar (V3.sub (displaced ps i) targetLocal) 0.82 /\
  spreadTimers (st_ps st') !!! i = 0.4 /\
  touchedThisFrame st' !!! i = true /\
  kicksThisStep st' = kicksThisStep st /\
  spreadKickT (st_ps st') !!! i = spreadKickT ps !!! i /\
  spreadKickStart (st_ps st') !!! i = spreadKickStart ps !!! i /\
  spreadKickDir (st_ps st') !!! i = spreadKickDir ps !!! i /\
  (unitQuat q -> 0 < RADIUS ps ->
     V3.length (V3.sub (V3.applyQuaternion targetLocal q) cw) = CURSOR_RADIUS + 0.001).
Proof.
  intros ps toCursor CR targetLocal st' Hwf Hi Hlen Hk [Hout Hband].
  destruct (spreadDots_dot_spec pointer lastPointer q cw ic st i Hwf Hi Hlen)
    as ((_ & Hs & _) & _ & _ & Hspec).
  fold st' in Hspec, Hs. fold ps in Hspec, Hs.
  unfold spreadDot in Hspec. cbn [dotOf kickT timer offset kickStart kickDir] in Hspec.
  destruct (decide (spreadKickT ps !!! i < 1)) as [|_]; [contradiction|].
  fold toCursor in Hspec. fold CR in Hspec.
  destruct (decide (V3.length toCursor < CR)) as [|_]; [lra|].
  destruct (decide (V3.length toCursor < CR + 0.18)) as [_|N]; [|contradiction].
  fold targetLocal in Hspec.
  pose proof (f_equal (fun x => fst (fst x)) Hspec) as Ed.
  pose proof (f_equal (fun x => snd (fst x)) Hspec) as Et.
  pose proof (f_equal snd Hspec) as Ec.
  cbn [fst snd] in Ed, Et, Ec.
  pose proof (f_equal offset Ed) as Eo. cbn [offset dotOf] in Eo.
  split.
  { unfold displaced. rewrite (sameShape_originalOf ps (st_ps st') i Hs), Eo.
    clearbody targetLocal.
    apply vec3_eq; cbn [V3.add V3.sub V3.multiplyScalar vx vy vz]; lra. }
  split; [exact (f_equal timer Ed)|]. split; [exact Et|]. split; [exact Ec|].
  split; [exact (f_equal kickT Ed)|]. split; [exact (f_equal kickStart Ed)|].
  split; [exact (f_equal kickDir Ed)|].
  intros Hq Hr. unfold targetLocal. rewrite rot_invert by exact Hq.
  assert (Hcr : 0 < CR) by (unfold CR; lra).
  transitivity (V3.length (V3.multiplyScalar (V3.normalize toCursor) (CR + 0.001))).
  - f_equal. apply vec3_eq; cbn [V3.add V3.sub vx vy vz]; ring.
  - apply length_unit_scale; lra.
Qed.

Lemma soft_band_step_witness :
  let q := Quat 0 0 0 1 in
  let ic := Vec3 0.8 0 2 in
  let cw := Vec3 0 0 2 in
  let st := mkStep facingDots [false; false] 0 in
  let toCursor := V3.sub (V3.applyQuaternion (originalOf facingDots 0) q) ic in
  let st' := spreadDots_dot (Vec2 400 300) None q cw ic st 0 in
  (wf facingDots /\ ~ spreadKickT facingDots !!! 0%nat < 1 /\
   RADIUS facingDots * 0.38 <= V3.length toCursor < RADIUS facingDots * 0.38 + 0.18) /\
  spreadTimers (st_ps st') !!! 0%nat = 0.4 /\
  touchedThisFrame st' !!! 0%nat = true /\
  kicksThisStep st' = 0%nat.
Proof.
  intros q ic cw st toCursor st'.
  assert (Hd : V3.length toCursor = 0.8).
  { apply length_of_sq; [lra|]. unfold V3.dot. simpl. lra. }
  assert (Hk : ~ spreadKickT facingDots !!! 0%nat < 1) by (simpl; lra).
  assert (Hin : RADIUS facingDots * 0.38 <= V3.length toCursor
                < RADIUS facingDots * 0.38 + 0.18)
    by (rewrite Hd; simpl; lra).
  destruct (soft_band_step (Vec2 400 300) None q cw ic st 0
              facingDots_wf ltac:(simpl; lia) eq_refl Hk Hin)
    as (_ & A & B & C & _).
  split; [repeat split; try apply Hin; assumption || exact facingDots_wf|].
  split; [exact A|]. split; [exact B|]. exact C.
Defined.

(** ** A dot through the whole pass *)

(** Where no kick can start, the counter of the step plays no part. *)
Lemma spreadDot_counter_free (radius : R) (pointer : Vector2)
    (lastPointer : option Vector2) (q : Quaternion) (cw ic p : Vector3)
    (d : Dot) (t : bool) (k : nat) :
  pointerForce pointer lastPointer <= 0.5 \/ ~ cursorDistance q ic p < radius * 0.38 ->
  spreadDot radius pointer lastPointer q cw ic p d t k
  = (fst (spreadDot radius pointer lastPointer q cw ic p d t 0), k).
Proof.
  intros H. unfold spreadDot.
  destruct (decide (kickT d < 1)) as [|_]; [reflexivity|].
  fold (cursorDistance q ic p). fold (pointerForce pointer lastPointer).
  destruct (decide (cursorDistance q ic p < radius * 0.38)) as [Hin|_].
  - destruct H as [Hslow|Hout]; [|contradiction].
    rewrite bool_decide_eq_false_2 by lra. reflexivity.
  - destruct (decide (cursorDistance q ic p < radius * 0.38 + 0.18)); reflexivity.
Qed.

Section AnyDot.

Variables (pointer : Vector2) (lastPointer : option Vector2)
  (q : Quaternion) (prev : option Vector3) (cw : Vector3).

(** No sample of [ss] can kick the dot with home [p]. *)
Local Abbreviation unkickable radius p ss :=
  (forall s : nat, In s ss ->
     pointerForce pointer lastPointer <= 0.5 \/
     ~ cursorDistance q (interpCursorAt prev cw s) p < radius * 0.38).

Lemma any_dot_step (ps : ParticleSphere) (touched : list bool) (s j : nat) :
  wf ps -> (j < DOT_COUNT ps)%nat -> length touched = DOT_COUNT ps ->
  unkickable (RADIUS ps) (originalOf ps j) [s] ->
  let st := spreadDots_step pointer lastPointer q prev cw ps touched s in
  (dotOf (st_ps st) j, touchedThisFrame st !!! j)
  = dotStepAt (RADIUS ps) pointer lastPointer q prev cw (originalOf ps j)
      (dotOf ps j, touched !!! j) s.
Proof.
  intros Hwf Hj Hlen Hun st.
  destruct (inner_loop_spec pointer lastPointer q cw (interpCursorAt prev cw s)
              ps touched (DOT_COUNT ps) Hwf Hlen ltac:(lia))
    as (_ & _ & _ & _ & Hdone & _).
  specialize (Hdone j Hj).
  rewrite spreadDot_counter_free in Hdone by (apply Hun; left; reflexivity).
  unfold dotStepAt. cbn [fst snd].
  exact (eq_sym (f_equal fst Hdone)).
Qed.

Lemma any_dot_pass (j : nat) (ss : list nat) :
  forall (ps : ParticleSphere) (touched : list bool),
    wf ps -> (j < DOT_COUNT ps)%nat -> length touched = DOT_COUNT ps ->
    unkickable (RADIUS ps) (originalOf ps j) ss ->
    let r := spreadDots_pass pointer lastPointer q prev cw ss (ps, touched) in
    (dotOf (fst r) j, snd r !!! j)
    = fold_left
        (dotStepAt (RADIUS ps) pointer lastPointer q prev cw (originalOf ps j))
        ss (dotOf ps j, touched !!! j).
Proof.
  induction ss as [|s ss IH]; intros ps touched Hwf Hj Hlen Hun; [reflexivity|].
  cbn [spreadDots_pass fold_left fst snd].
  destruct (spreadDots_step_spec pointer lastPointer q prev cw ps touched s Hwf Hlen)
    as (Hwf1 & Hs1 & Hl1 & _).
  assert (Hun1 : unkickable (RADIUS ps) (originalOf ps j) [s]).
  { intros s' [<-|[]]. apply Hun. left. reflexivity. }
  pose proof (any_dot_step ps touched s j Hwf Hj Hlen Hun1) as Hstep.
  cbn zeta in Hstep.
  set (st := spreadDots_step pointer lastPointer q prev cw ps touched s) in *.
  assert (Hc1 : DOT_COUNT (st_ps st) = DOT_COUNT ps) by apply Hs1.
  assert (Hr1 : RADIUS (st_ps st) = RADIUS ps) by apply Hs1.
  fold (spreadDots_pass pointer lastPointer q prev cw ss (st_ps st, touchedThisFrame st)).
  rewrite (IH (st_ps st) (touchedThisFrame st) Hwf1 ltac:(lia) ltac:(lia)).
  - rewrite Hstep, (sameShape_originalOf ps (st_ps st) j Hs1), Hr1. reflexivity.
  - rewrite (sameShape_originalOf ps (st_ps st) j Hs1), Hr1.
    intros s' Hs'. apply Hun. right. exact Hs'.
Qed.

End AnyDot.

Lemma any_dot_reset (pointer : Vector2) (lastPointer : option Vector2)
    (q : Quaternion) (prev : option Vector3) (cw : Vector3) (ss : list nat)
    (ps : ParticleSphere) (j : nat) :
  wf ps -> (j < DOT_COUNT ps)%nat ->
  (forall s : nat, In s ss ->
     pointerForce pointer lastPointer <= 0.5 \/
     ~ cursorDistance q (interpCursorAt prev cw s) (originalOf ps j)
       < RADIUS ps * 0.38) ->
  let pr := spreadDots_pass pointer lastPointer q prev cw ss
              (ps, replicate (DOT_COUNT ps) false) in
  let r := fold_left
             (dotStepAt (RADIUS ps) pointer lastPointer q prev cw (originalOf ps j))
             ss (dotOf ps j, false) in
  dotOf (fold_left (resetUntouched (snd pr)) (seq 0 (DOT_COUNT ps)) (fst pr)) j
  = (if snd r then fst r else resetTimer (fst r)).
Proof.
  intros Hwf Hj Hun pr r.
  pose proof (any_dot_pass pointer lastPointer q prev cw j ss
                ps (replicate (DOT_COUNT ps) false) Hwf Hj
                ltac:(apply length_replicate) Hun) as Hp.
  cbn zeta in Hp. rewrite lookup_total_replicate_2 in Hp by exact Hj.
  change (spreadDots_pass pointer lastPointer q prev cw ss
            (ps, replicate (DOT_COUNT ps) false)) with pr in Hp.
  change (fold_left
            (dotStepAt (RADIUS ps) pointer lastPointer q prev cw (originalOf ps j))
            ss (dotOf ps j, false)) with r in Hp.
  destruct (spreadDots_pass_spec pointer lastPointer q prev cw
              ss ps (replicate (DOT_COUNT ps) false) Hwf
              ltac:(apply length_replicate)) as (Hwf1 & Hs1 & Hl1 & _).
  change (spreadDots_pass pointer lastPointer q prev cw ss
            (ps, replicate (DOT_COUNT ps) false)) with pr in Hwf1, Hs1, Hl1.
  clearbody r pr.
  assert (Hc1 : DOT_COUNT (fst pr) = DOT_COUNT ps) by apply Hs1.
  destruct (fold_dots (resetUntouched (snd pr))
              (fun j d => if (snd pr !!! j : bool) then d else resetTimer d)
              (resetUntouched_spec (snd pr)) (DOT_COUNT ps) (fst pr) Hwf1 ltac:(lia))
    as (_ & _ & Hd).
  rewrite Hd. destruct (decide (j < DOT_COUNT ps)%nat); [|lia].
  pose proof (f_equal fst Hp) as E1. pose proof (f_equal snd Hp) as E2.
  cbn [fst snd] in E1, E2. rewrite E1, E2. reflexivity.
Qed.

(** A dot that no sample of the frame can kick goes through the 13 steps
    on its own, and then through the untouched rule. *)
Lemma any_dot_spreadDots (h : Host) (ps : ParticleSphere) (ptr : Vector2)
    (lastPtr : option Vector2) (lastEvent : bool) (pts : Points) (cam : Camera)
    (j : nat) :
  wf ps -> (j < DOT_COUNT ps)%nat ->
  (forall s : nat, In s (seq 0 (steps + 1)) ->
     pointerForce ptr lastPtr <= 0.5 \/
     ~ cursorDistance (quaternion pts)
         (interpCursorAt (prevCursorWorldOf h ps cam lastPtr lastEvent)
            (resolveCursorWorld h ps cam ptr) s) (originalOf ps j)
       < RADIUS ps * 0.38) ->
  let r := fold_left
             (dotStepAt (RADIUS ps) ptr lastPtr (quaternion pts)
                (prevCursorWorldOf h ps cam lastPtr lastEvent)
                (resolveCursorWorld h ps cam ptr) (originalOf ps j))
             (seq 0 (steps + 1)) (dotOf ps j, false) in
  dotOf (spreadDots h ps ptr lastPtr lastEvent pts cam) j
  = (if snd r then fst r else resetTimer (fst r)).
Proof.
  intros Hwf Hj Hun.
  exact (any_dot_reset ptr lastPtr (quaternion pts)
           (prevCursorWorldOf h ps cam lastPtr lastEvent)
           (resolveCursorWorld h ps cam ptr) (seq 0 (steps + 1)) ps j Hwf Hj Hun).
Qed.

(** *** A slow pointer *)

Lemma stepAt_slow (radius : R) (pointer : Vector2) (lastPointer : option Vector2)
    (q : Quaternion) (prev : option Vector3) (cw p : Vector3) (s : nat)
    (dt : Dot * bool) :
  pointerForce pointer lastPointer <= 0.5 ->
  let dt' := dotStepAt radius pointer lastPointer q prev cw p dt s in
  kickT (fst dt') = kickT (fst dt) /\ kickStart (fst dt') = kickStart (fst dt) /\
  kickDir (fst dt') = kickDir (fst dt).
Proof.
  intros Hslow. unfold dotStepAt, spreadDot.
  destruct (decide (kickT (fst dt) < 1)) as [|_]; [cbn; done|].
  fold (pointerForce pointer lastPointer).
  destruct (decide (_ < radius * 0.38)) as [Hin|_].
  - rewrite bool_decide_eq_false_2 by lra. cbn. done.
  - destruct (decide (_ < radius * 0.38 + 0.18)); cbn; done.
Qed.

Lemma fold_slow (radius : R) (pointer : Vector2) (lastPointer : option Vector2)
    (q : Quaternion) (prev : option Vector3) (cw p : Vector3) (ss : list nat) :
  pointerForce pointer lastPointer <= 0.5 ->
  forall dt : Dot * bool,
    let dt' := fold_left (dotStepAt radius pointer lastPointer q prev cw p) ss dt in
    kickT (fst dt') = kickT (fst dt) /\ kickStart (fst dt') = kickStart (fst dt) /\
    kickDir (fst dt') = kickDir (fst dt).
Proof.
  intros Hslow. induction ss as [|s ss IH]; intros dt; [cbn; done|].
  cbn [fold_left].
  destruct (IH (dotStepAt radius pointer lastPointer q prev cw p dt s)) as (A & B & C).
  destruct (stepAt_slow radius pointer lastPointer q prev cw p s dt Hslow) as (A' & B' & C').
  cbn zeta in *. rewrite A, B, C. done.
Qed.

Lemma slow_dot (h : Host) (ps : ParticleSphere) (ptr : Vector2)
    (lastPtr : option Vector2) (lastEvent : bool) (pts : Points) (cam : Camera)
    (j : nat) :
  wf ps -> (j < DOT_COUNT ps)%nat -> pointerForce ptr lastPtr <= 0.5 ->
  let d := dotOf ps j in
  let d' := dotOf (spreadDots h ps ptr lastPtr lastEvent pts cam) j in
  kickT d' = kickT d /\ kickStart d' = kickStart d /\ kickDir d' = kickDir d.
Proof.
  intros Hwf Hj Hslow d d'. unfold d'.
  rewrite (any_dot_spreadDots h ps ptr lastPtr lastEvent pts cam j Hwf Hj)
    by (intros; left; exact Hslow).
  destruct (fold_slow (RADIUS ps) ptr lastPtr (quaternion pts)
              (prevCursorWorldOf h ps cam lastPtr lastEvent)
              (resolveCursorWorld h ps cam ptr) (originalOf ps j)
              (seq 0 (steps + 1)) Hslow (dotOf ps j, false)) as (A & B & C).
  cbn zeta in A, B, C. cbn [fst] in A, B, C.
  destruct (snd _); cbn [resetTimer kickT kickStart kickDir]; done.
Qed.

Lemma force_of_first_sample (ptr : Vector2) : pointerForce ptr None = 0.
Proof.
  unfold pointerForce. replace (0 * 0 + 0 * 0) with 0 by ring.
  rewrite sqrt_0. lra.
Qed.

(** X8: a slow pointer kicks no dot.  When the pointer has moved by 2.5
    pixels at most between its last two samples ([force <= 0.5]), or there
    is one sample only, [spreadDots] starts no kick: the kick progress, the
    start and the direction of the kick of every dot are as before. *)
Theorem slow_pointer_never_kicks (h : Host) (ps : ParticleSphere) (ptr : Vector2)
    (lastPtr : option Vector2) (lastEvent : bool) (pts : Points) (cam : Camera) :
  wf ps -> lastPtr = None \/ pointerForce ptr lastPtr <= 0.5 ->
  let ps' := spreadDots h ps ptr lastPtr lastEvent pts cam in
  newKicks ps ps' = [] /\
  forall j : nat, (j < DOT_COUNT ps)%nat ->
    kickT (dotOf ps' j) = kickT (dotOf ps j) /\
    kickStart (dotOf ps' j) = kickStart (dotOf ps j) /\
    kickDir (dotOf ps' j) = kickDir (dotOf ps j).
Proof.
  intros Hwf Hslow ps'.
  assert (Hf : pointerForce ptr lastPtr <= 0.5).
  { destruct Hslow as [->|Hf]; [rewrite force_of_first_sample; lra | exact Hf]. }
  assert (Hall : forall j : nat, (j < DOT_COUNT ps)%nat ->
            kickT (dotOf ps' j) = kickT (dotOf ps j) /\
            kickStart (dotOf ps' j) = kickStart (dotOf ps j) /\
            kickDir (dotOf ps' j) = kickDir (dotOf ps j)).
  { intros j Hj. exact (slow_dot h ps ptr lastPtr lastEvent pts cam j Hwf Hj Hf). }
  split; [|exact Hall].
  apply newKicks_nil. intros j Hj Hge.
  destruct (Hall j Hj) as (-> & _). exact Hge.
Qed.

Lemma slow_pointer_never_kicks_witness :
  let ps' := spreadDots pinholeHost facingDots (Vec2 400 300) None false
               stillPoints sceneCamera in
  wf facingDots /\
  newKicks facingDots ps' = [] /\
  forall j : nat, (j < DOT_COUNT facingDots)%nat ->
    kickT (dotOf ps' j) = kickT (dotOf facingDots j) /\
    kickStart (dotOf ps' j) = kickStart (dotOf facingDots j) /\
    kickDir (dotOf ps' j) = kickDir (dotOf facingDots j).
Proof.
  split; [exact facingDots_wf|].
  exact (slow_pointer_never_kicks pinholeHost facingDots (Vec2 400 300) None false
           stillPoints sceneCamera facingDots_wf (or_introl eq_refl)).
Defined.

(** *** A cursor that stands still *)

Lemma interp_still (prev : option Vector3) (cw : Vector3) (s : nat) :
  prev = None \/ prev = Some cw -> interpCursorAt prev cw s = cw.
Proof.
  intros [->| ->]; [reflexivity|]. unfold interpCursorAt, lerpVec3.
  apply vec3_eq; cbn [vx vy vz]; ring.
Qed.

Lemma interp_last (prev : option Vector3) (cw : Vector3) :
  interpCursorAt prev cw steps = cw.
Proof.
  destruct prev as [prev|]; [|reflexivity]. unfold interpCursorAt, lerpVec3.
  assert (E : INR steps / INR steps = 1).
  { unfold steps. cbn [INR]. field; lra. }
  rewrite E. apply vec3_eq; cbn [vx vy vz]; ring.
Qed.

Section BandFold.

Variables (radius : R) (pointer : Vector2) (lastPointer : option Vector2)
  (q : Quaternion) (prev : option Vector3) (cw p : Vector3).

Hypothesis Hstill : prev = None \/ prev = Some cw.
Hypothesis Hband :
  radius * 0.38 <= cursorDistance q cw p < radius * 0.38 + 0.18.

Local Abbreviation tl :=
  (V3.applyQuaternion
     (V3.add cw (V3.multiplyScalar (V3.normalize (V3.sub (V3.applyQuaternion p q) cw))
                   (radius * 0.38 + 0.001)))
     (invert q)).

Lemma stepAt_band_value (d : Dot) (t : bool) (s : nat) :
  ~ kickT d < 1 ->
  dotStepAt radius pointer lastPointer q prev cw p (d, t) s
  = (mkDot (Vec3 (vx (offset d) + (vx tl - (vx p + vx (offset d))) * 0.18)
                 (vy (offset d) + (vy tl - (vy p + vy (offset d))) * 0.18)
                 (vz (offset d) + (vz tl - (vz p + vz (offset d))) * 0.18))
           (kickT d) 0.4 (kickStart d) (kickDir d), true).
Proof.
  intros Hk. unfold dotStepAt, spreadDot. cbn [fst snd].
  rewrite (interp_still prev cw s Hstill).
  destruct (decide (kickT d < 1)) as [|_]; [contradiction|].
  fold (cursorDistance q cw p).
  destruct (decide (cursorDistance q cw p < radius * 0.38)) as [|_]; [lra|].
  destruct (decide (cursorDistance q cw p < radius * 0.38 + 0.18)) as [_|N]; [|lra].
  reflexivity.
Qed.

Lemma band_fold (ss : list nat) :
  forall (d : Dot) (t : bool), ~ kickT d < 1 ->
    let r := fold_left (dotStepAt radius pointer lastPointer q prev cw p) ss (d, t) in
    V3.sub (V3.add p (offset (fst r))) tl
      = V3.multiplyScalar (V3.sub (V3.add p (offset d)) tl) (0.82 ^ length ss) /\
    kickT (fst r) = kickT d /\ kickStart (fst r) = kickStart d /\
    kickDir (fst r) = kickDir d /\
    (ss <> [] -> snd r = true /\ timer (fst r) = 0.4).
Proof.
  induction ss as [|s ss IH]; intros d t Hk.
  - cbn [fold_left fst snd length pow].
    split; [apply vec3_eq; cbn [V3.sub V3.add V3.multiplyScalar vx vy vz]; ring|].
    done.
  - cbn [fold_left]. rewrite (stepAt_band_value d t s Hk).
    set (d1 := mkDot _ (kickT d) 0.4 (kickStart d) (kickDir d)).
    destruct (IH d1 true Hk) as (Ho & A & B & C & Hne).
    cbn zeta in Ho, A, B, C, Hne.
    set (r := fold_left (dotStepAt radius pointer lastPointer q prev cw p) ss (d1, true)) in *.
    split; [|split; [exact A | split; [exact B | split; [exact C|]]]].
    + pose proof (f_equal vx Ho) as Hx. pose proof (f_equal vy Ho) as Hy.
      pose proof (f_equal vz Ho) as Hz.
      unfold d1 in Hx, Hy, Hz.
      cbn [V3.sub V3.add V3.multiplyScalar vx vy vz offset] in Hx, Hy, Hz.
      clearbody r. clear - Hx Hy Hz.
      set (T := V3.applyQuaternion _ (invert q)) in *. clearbody T.
      cbn [length pow].
      apply vec3_eq; cbn [V3.sub V3.add V3.multiplyScalar vx vy vz].
      * rewrite Hx. generalize (0.82 ^ length ss). intros P.
        unfold Q2R. cbn [QArith_base.Qnum QArith_base.Qden]. field.
      * rewrite Hy. generalize (0.82 ^ length ss). intros P.
        unfold Q2R. cbn [QArith_base.Qnum QArith_base.Qden]. field.
      * rewrite Hz. generalize (0.82 ^ length ss). intros P.
        unfold Q2R. cbn [QArith_base.Qnum QArith_base.Qden]. field.
    + intros _. destruct ss as [|s' ss']; [cbn; done|].
      apply Hne. discriminate.
Qed.

End BandFold.

Lemma band_unkickable (radius : R) (pointer : Vector2) (lastPointer : option Vector2)
    (q : Quaternion) (prev : option Vector3) (cw p : Vector3) (s : nat) :
  prev = None \/ prev = Some cw ->
  radius * 0.38 <= cursorDistance q cw p ->
  pointerForce pointer lastPointer <= 0.5 \/
  ~ cursorDistance q (interpCursorAt prev cw s) p < radius * 0.38.
Proof. intros Hstill Hout. right. rewrite (interp_still prev cw s Hstill). lra. Qed.

Lemma soft_band_pass (h : Host) (ps : ParticleSphere) (ptr : Vector2)
    (lastPtr : option Vector2) (lastEvent : bool) (pts : Points) (cam : Camera)
    (j : nat) (ss : list nat) :
  let cw := resolveCursorWorld h ps cam ptr in
  let prev := prevCursorWorldOf h ps cam lastPtr lastEvent in
  let q := quaternion pts in
  let targetLocal :=
    V3.applyQuaternion
      (V3.add cw
         (V3.multiplyScalar (V3.normalize (V3.sub (V3.applyQuaternion (originalOf ps j) q) cw))
            (RADIUS ps * 0.38 + 0.001)))
      (invert q) in
  let pr := spreadDots_pass ptr lastPtr q prev cw ss
              (ps, replicate (DOT_COUNT ps) false) in
  let d' := dotOf (fold_left (resetUntouched (snd pr)) (seq 0 (DOT_COUNT ps)) (fst pr)) j in
  wf ps -> (j < DOT_COUNT ps)%nat -> ss <> [] ->
  prev = None \/ prev = Some cw ->
  ~ kickT (dotOf ps j) < 1 ->
  RADIUS ps * 0.38 <= cursorDistance q cw (originalOf ps j) < RADIUS ps * 0.38 + 0.18 ->
  V3.sub (V3.add (originalOf ps j) (offset d')) targetLocal
    = V3.multiplyScalar (V3.sub (displaced ps j) targetLocal) (0.82 ^ length ss) /\
  timer d' = 0.4 /\ kickT d' = kickT (dotOf ps j) /\
  kickStart d' = kickStart (dotOf ps j) /\ kickDir d' = kickDir (dotOf ps j).
Proof.
  intros cw prev q targetLocal pr d' Hwf Hj Hne Hstill Hk Hband.
  unfold d', pr.
  rewrite (any_dot_reset ptr lastPtr q prev cw ss ps j Hwf Hj)
    by (intros s _; apply band_unkickable; [exact Hstill | apply Hband]).
  destruct (band_fold (RADIUS ps) ptr lastPtr q prev cw (originalOf ps j)
              Hstill Hband ss (dotOf ps j) false Hk) as (Ho & A & B & C & Ht).
  cbn zeta in Ho, A, B, C, Ht. destruct (Ht Hne) as [Et Em].
  rewrite Et. done.
Qed.

(** X9: a cursor that stands still pulls the dots of the soft band in
    thirteen times a frame.  When the samples of the frame all are the
    current cursor (there is no previous cursor, or it is the same point), a
    dot that is not in a kick and whose home lies in the soft band of the
    cursor is eased toward its target once in every step: after the frame
    the distance of the drawn dot to the target is [0.82 ^ 13] of what it
    was, in every component; the timer is 0.4 and the kick state is kept. *)
Theorem soft_band_frame (h : Host) (ps : ParticleSphere) (ptr : Vector2)
    (lastPtr : option Vector2) (lastEvent : bool) (pts : Points) (cam : Camera)
    (j : nat) :
  let cw := resolveCursorWorld h ps cam ptr in
  let prev := prevCursorWorldOf h ps cam lastPtr lastEvent in
  let q := quaternion pts in
  let targetLocal :=
    V3.applyQuaternion
      (V3.add cw
         (V3.multiplyScalar (V3.normalize (V3.sub (V3.applyQuaternion (originalOf ps j) q) cw))
            (RADIUS ps * 0.38 + 0.001)))
      (invert q) in
  let ps' := spreadDots h ps ptr lastPtr lastEvent pts cam in
  wf ps -> (j < DOT_COUNT ps)%nat ->
  prev = None \/ prev = Some cw ->
  ~ kickT (dotOf ps j) < 1 ->
  RADIUS ps * 0.38 <= cursorDistance q cw (originalOf ps j) < RADIUS ps * 0.38 + 0.18 ->
  V3.sub (displaced ps' j) targetLocal
    = V3.multiplyScalar (V3.sub (displaced ps j) targetLocal) (0.82 ^ 13) /\
  timer (dotOf ps' j) = 0.4 /\ kickT (dotOf ps' j) = kickT (dotOf ps j) /\
  kickStart (dotOf ps' j) = kickStart (dotOf ps j) /\
  kickDir (dotOf ps' j) = kickDir (dotOf ps j).
Proof.
  intros cw prev q targetLocal ps' Hwf Hj Hstill Hk Hband.
  destruct (spreadDots_spec h ptr lastPtr lastEvent pts cam ps Hwf) as (_ & Hs & _).
  fold ps' in Hs.
  assert (Hne : seq 0 (steps + 1) <> []) by discriminate.
  pose proof (soft_band_pass h ps ptr lastPtr lastEvent pts cam j (seq 0 (steps + 1))
                Hwf Hj Hne Hstill Hk Hband) as H.
  cbn zeta in H. rewrite length_seq in H.
  unfold displaced at 1. rewrite (sameShape_originalOf ps ps' j Hs).
  exact H.
Qed.

Lemma zoneDots_wf : wf zoneDots.
Proof. split; reflexivity. Qed.

Lemma soft_band_frame_witness :
  let cw := resolveCursorWorld pinholeHost zoneDots sceneCamera (Vec2 400 300) in
  let q := quaternion stillPoints in
  let ps' := spreadDots pinholeHost zoneDots (Vec2 400 300) None false
               stillPoints sceneCamera in
  (wf zoneDots /\ ~ kickT (dotOf zoneDots 1) < 1 /\
   RADIUS zoneDots * 0.38 <= cursorDistance q cw (originalOf zoneDots 1)
     < RADIUS zoneDots * 0.38 + 0.18) /\
  timer (dotOf ps' 1) = 0.4 /\ kickT (dotOf ps' 1) = 1.
Proof.
  intros cw q ps'.
  assert (Hcw : cw = Vec3 0 0 2) by (apply resolve_center; reflexivity).
  assert (Hk : ~ kickT (dotOf zoneDots 1) < 1) by (simpl; lra).
  assert (Hd : cursorDistance q cw (originalOf zoneDots 1) = sqrt (8 / 13)).
  { rewrite Hcw. unfold cursorDistance, V3.length. f_equal. simpl. field. }
  assert (Hband : RADIUS zoneDots * 0.38 <= cursorDistance q cw (originalOf zoneDots 1)
                  < RADIUS zoneDots * 0.38 + 0.18).
  { rewrite Hd. cbn [RADIUS zoneDots]. split.
    - apply Rnot_lt_le. apply sqrt_ge_bound; lra.
    - apply sqrt_lt_bound; lra. }
  destruct (soft_band_frame pinholeHost zoneDots (Vec2 400 300) None false
              stillPoints sceneCamera 1 zoneDots_wf ltac:(simpl; lia)
              (or_introl eq_refl) Hk Hband) as (_ & A & B & _).
  split; [split; [exact zoneDots_wf | split; [exact Hk | exact Hband]]|].
  split; [exact A | exact B].
Defined.

(** *** The end of the frame *)

Lemma slow_inside_pass (h : Host) (ps : ParticleSphere) (ptr : Vector2)
    (lastPtr : option Vector2) (lastEvent : bool) (pts : Points) (cam : Camera)
    (j : nat) (ss : list nat) :
  let cw := resolveCursorWorld h ps cam ptr in
  let prev := prevCursorWorldOf h ps cam lastPtr lastEvent in
  let q := quaternion pts in
  let pr := spreadDots_pass ptr lastPtr q prev cw (ss ++ [steps])
              (ps, replicate (DOT_COUNT ps) false) in
  let d' := dotOf (fold_left (resetUntouched (snd pr)) (seq 0 (DOT_COUNT ps)) (fst pr)) j in
  wf ps -> (j < DOT_COUNT ps)%nat -> unitQuat q ->
  pointerForce ptr lastPtr <= 0.5 ->
  ~ kickT (dotOf ps j) < 1 ->
  0 < cursorDistance q cw (originalOf ps j) < RADIUS ps * 0.38 ->
  V3.length (V3.sub (V3.applyQuaternion (V3.add (originalOf ps j) (offset d')) q) cw)
    = RADIUS ps * 0.38 + 0.001 /\
  V3.length (V3.sub (V3.add (originalOf ps j) (offset d'))
               (V3.applyQuaternion cw (invert q)))
    = RADIUS ps * 0.38 + 0.001.
Proof.
  intros cw prev q pr d' Hwf Hj Hq Hslow Hk Hin.
  unfold d', pr.
  rewrite (any_dot_reset ptr lastPtr q prev cw (ss ++ [steps]) ps j Hwf Hj)
    by (intros s _; left; exact Hslow).
  rewrite fold_left_app. cbn [fold_left].
  destruct (fold_slow (RADIUS ps) ptr lastPtr q prev cw (originalOf ps j) ss Hslow
              (dotOf ps j, false)) as (A & _).
  cbn zeta in A. cbn [fst] in A.
  set (r := fold_left _ ss (dotOf ps j, false)) in *. clearbody r.
  destruct r as [d1 t1]. cbn [fst] in A.
  unfold dotStepAt. cbn [fst snd]. rewrite interp_last.
  destruct (spreadDot (RADIUS ps) ptr lastPtr q cw cw (originalOf ps j) d1 t1 0)
    as [[d2 t2] k2] eqn:E.
  assert (Hk1 : ~ kickT d1 < 1) by (rewrite A; exact Hk).
  destruct (spreadDot_inside (RADIUS ps) ptr lastPtr q cw cw (originalOf ps j)
              d1 d2 t1 t2 0 k2 Hk1 (proj2 Hin) E) as (Ho & -> & _).
  cbn [fst snd]. rewrite Ho.
  destruct (boundary_distance (RADIUS ps) q cw (originalOf ps j) Hq Hin) as [Hl Hw].
  cbn zeta in Hl, Hw. split; [exact Hw | exact Hl].
Qed.

(** X10: with a slow pointer the last step of the frame decides the offset
    of the dots of the zone.  When the pointer is slow ([force <= 0.5], or
    there is one sample only), for a dot that is not in a kick and whose
    home is inside the zone of the current cursor, not exactly at it, the
    point home + offset lies after [spreadDots] at [CURSOR_RADIUS + 0.001]
    from the cursor, in the world and in the local frame, for a unit
    rotation: the last of the 13 steps samples the current cursor.  (This
    is about home + offset, the point [displaced]; the position that
    [update] writes afterwards has the home scaled by the radial wave.) *)
Theorem exclusion_after_frame (h : Host) (ps : ParticleSphere) (ptr : Vector2)
    (lastPtr : option Vector2) (lastEvent : bool) (pts : Points) (cam : Camera)
    (j : nat) :
  let cw := resolveCursorWorld h ps cam ptr in
  let q := quaternion pts in
  let ps' := spreadDots h ps ptr lastPtr lastEvent pts cam in
  wf ps -> (j < DOT_COUNT ps)%nat -> unitQuat q ->
  lastPtr = None \/ pointerForce ptr lastPtr <= 0.5 ->
  ~ kickT (dotOf ps j) < 1 ->
  0 < cursorDistance q cw (originalOf ps j) < RADIUS ps * 0.38 ->
  V3.length (V3.sub (V3.applyQuaternion (displaced ps' j) q) cw)
    = RADIUS ps * 0.38 + 0.001 /\
  V3.length (V3.sub (displaced ps' j) (V3.applyQuaternion cw (invert q)))
    = RADIUS ps * 0.38 + 0.001.
Proof.
  intros cw q ps' Hwf Hj Hq Hslow Hk Hin.
  assert (Hf : pointerForce ptr lastPtr <= 0.5).
  { destruct Hslow as [->|Hf]; [rewrite force_of_first_sample; lra | exact Hf]. }
  destruct (spreadDots_spec h ptr lastPtr lastEvent pts cam ps Hwf) as (_ & Hs & _).
  fold ps' in Hs.
  pose proof (slow_inside_pass h ps ptr lastPtr lastEvent pts cam j (seq 0 steps)
                Hwf Hj Hq Hf Hk Hin) as H.
  cbn zeta in H.
  unfold displaced. rewrite (sameShape_originalOf ps ps' j Hs).
  assert (E : seq 0 steps ++ [steps] = seq 0 (steps + 1)).
  { rewrite Nat.add_1_r, seq_S. reflexivity. }
  rewrite E in H. exact H.
Qed.

Lemma exclusion_after_frame_witness :
  let cw := resolveCursorWorld pinholeHost zoneDots sceneCamera (Vec2 400 300) in
  let q := quaternion stillPoints in
  let ps' := spreadDots pinholeHost zoneDots (Vec2 400 300) None false
               stillPoints sceneCamera in
  (wf zoneDots /\ unitQuat q /\ ~ kickT (dotOf zoneDots 0) < 1 /\
   0 < cursorDistance q cw (originalOf zoneDots 0) < RADIUS zoneDots * 0.38) /\
  V3.length (V3.sub (V3.applyQuaternion (displaced ps' 0) q) cw)
    = RADIUS zoneDots * 0.38 + 0.001.
Proof.
  intros cw q ps'.
  assert (Hcw : cw = Vec3 0 0 2) by (apply resolve_center; reflexivity).
  assert (Hq : unitQuat q) by (unfold unitQuat; simpl; lra).
  assert (Hk : ~ kickT (dotOf zoneDots 0) < 1) by (simpl; lra).
  assert (Hd : cursorDistance q cw (originalOf zoneDots 0) = sqrt (16 / 101)).
  { rewrite Hcw. unfold cursorDistance, V3.length. f_equal. simpl. field. }
  assert (Hin : 0 < cursorDistance q cw (originalOf zoneDots 0)
                < RADIUS zoneDots * 0.38).
  { rewrite Hd. cbn [RADIUS zoneDots]. split.
    - apply sqrt_lt_R0. lra.
    - apply sqrt_lt_bound; lra. }
  destruct (exclusion_after_frame pinholeHost zoneDots (Vec2 400 300) None false
              stillPoints sceneCamera 0 zoneDots_wf ltac:(simpl; lia) Hq
              (or_introl eq_refl) Hk Hin) as (A & _).
  split; [split; [exact zoneDots_wf | split; [exact Hq | split; [exact Hk | exact Hin]]]|].
  exact A.
Defined.

(** *** The kicks of a frame *)

Lemma filter_length_or {A : Type} (f g k : A -> bool) (l : list A) :
  (forall x : A, In x l -> f x = true -> g x = true \/ k x = true) ->
  (length (List.filter f l) <= length (List.filter g l) + length (List.filter k l))%nat.
Proof.
  induction l as [|x l IH]; intros H; [cbn; lia|].
  cbn [List.filter].
  assert (IH' := IH (fun y Hy => H y (or_intror Hy))).
  pose proof (H x (or_introl eq_refl)) as Hx.
  destruct (f x); destruct (g x); destruct (k x); cbn [length]; lia.
Qed.

Lemma entered_split (a b c : ParticleSphere) (j : nat) :
  enteredKicking a c j = true ->
  enteredKicking a b j = true \/ enteredKicking b c j = true.
Proof.
  unfold enteredKicking. intros H. apply andb_true_iff in H as [H1 H2].
  rewrite H1, H2. cbn [andb].
  destruct (bool_decide (spreadKickT b !!! j < 1)) eqn:E; [left; reflexivity|].
  right. apply bool_decide_eq_false in E.
  rewrite (bool_decide_eq_true_2 _ E). reflexivity.
Qed.

Lemma pass_kicks (pointer : Vector2) (lastPointer : option Vector2)
    (q : Quaternion) (prev : option Vector3) (cw : Vector3) (ss : list nat) :
  forall (ps : ParticleSphere) (touched : list bool),
    wf ps -> length touched = DOT_COUNT ps ->
    (length (newKicks ps (fst (spreadDots_pass pointer lastPointer q prev cw ss
                                 (ps, touched))))
     <= MAX_KICKS_PER_STEP * length ss)%nat.
Proof.
  induction ss as [|s ss IH]; intros ps touched Hwf Hlen.
  - cbn [spreadDots_pass fold_left fst]. rewrite newKicks_nil; [cbn; lia|]. done.
  - cbn [spreadDots_pass fold_left fst snd].
    destruct (spreadDots_step_spec pointer lastPointer q prev cw ps touched s Hwf Hlen)
      as (Hwf1 & Hs1 & Hl1 & _ & _ & Hcap).
    set (st := spreadDots_step pointer lastPointer q prev cw ps touched s) in *.
    assert (Hc1 : DOT_COUNT (st_ps st) = DOT_COUNT ps) by apply Hs1.
    fold (spreadDots_pass pointer lastPointer q prev cw ss (st_ps st, touchedThisFrame st)).
    specialize (IH (st_ps st) (touchedThisFrame st) Hwf1 ltac:(lia)).
    set (fin := fst (spreadDots_pass pointer lastPointer q prev cw ss
                       (st_ps st, touchedThisFrame st))) in *.
    clearbody fin.
    pose proof (filter_length_or (enteredKicking ps fin) (enteredKicking ps (st_ps st))
                  (enteredKicking (st_ps st) fin) (seq 0 (DOT_COUNT ps))
                  (fun j _ => entered_split ps (st_ps st) fin j)) as Hsum.
    unfold newKicks in *. rewrite Hc1 in IH. cbn [length]. lia.
Qed.

Lemma frame_kicks (pointer : Vector2) (lastPointer : option Vector2)
    (q : Quaternion) (prev : option Vector3) (cw : Vector3) (ss : list nat)
    (ps : ParticleSphere) :
  wf ps ->
  let pr := spreadDots_pass pointer lastPointer q prev cw ss
              (ps, replicate (DOT_COUNT ps) false) in
  (length (newKicks ps (fold_left (resetUntouched (snd pr)) (seq 0 (DOT_COUNT ps))
                          (fst pr)))
   <= MAX_KICKS_PER_STEP * length ss)%nat.
Proof.
  intros Hwf pr.
  pose proof (pass_kicks pointer lastPointer q prev cw ss ps
                (replicate (DOT_COUNT ps) false) Hwf ltac:(apply length_replicate)) as Hp.
  destruct (spreadDots_pass_spec pointer lastPointer q prev cw
              ss ps (replicate (DOT_COUNT ps) false) Hwf
              ltac:(apply length_replicate)) as (Hwf1 & Hs1 & Hl1 & _).
  change (spreadDots_pass pointer lastPointer q prev cw ss
            (ps, replicate (DOT_COUNT ps) false)) with pr in Hp, Hwf1, Hs1, Hl1.
  clearbody pr.
  assert (Hc1 : DOT_COUNT (fst pr) = DOT_COUNT ps) by apply Hs1.
  destruct (fold_dots (resetUntouched (snd pr))
              (fun j d => if (snd pr !!! j : bool) then d else resetTimer d)
              (resetUntouched_spec (snd pr)) (DOT_COUNT ps) (fst pr) Hwf1 ltac:(lia))
    as (_ & _ & Hd).
  set (ps' := fold_left (resetUntouched (snd pr)) (seq 0 (DOT_COUNT ps)) (fst pr)) in *.
  assert (E : newKicks ps ps' = newKicks ps (fst pr)).
  { unfold newKicks. apply List.filter_ext_in. intros j Hjn. unfold enteredKicking.
    assert (Ek : spreadKickT ps' !!! j = spreadKickT (fst pr) !!! j).
    { change (kickT (dotOf ps' j) = kickT (dotOf (fst pr) j)). rewrite Hd.
      destruct (decide (j < DOT_COUNT ps)%nat); [|reflexivity].
      destruct (snd pr !!! j); reflexivity. }
    rewrite Ek. reflexivity. }
  rewrite E. exact Hp.
Qed.

(** X11: a frame kicks 26 dots at most.  The cap of two kicks holds for
    each of the 13 steps of [spreadDots], a dot in its kick is not kicked
    again, and the untouched rule changes no kick progress: the dots whose
    kick progress the call takes from 1 to below 1 are at most 26. *)
Theorem kick_cap_per_frame (h : Host) (ps : ParticleSphere) (ptr : Vector2)
    (lastPtr : option Vector2) (lastEvent : bool) (pts : Points) (cam : Camera) :
  wf ps ->
  (length (newKicks ps (spreadDots h ps ptr lastPtr lastEvent pts cam)) <= 26)%nat.
Proof.
  intros Hwf.
  pose proof (frame_kicks ptr lastPtr (quaternion pts)
                (prevCursorWorldOf h ps cam lastPtr lastEvent)
                (resolveCursorWorld h ps cam ptr) (seq 0 (steps + 1)) ps Hwf) as H.
  cbn zeta in H. rewrite length_seq in H. exact H.
Qed.

Lemma kick_cap_per_frame_witness :
  wf facingDots /\
  (length (newKicks facingDots
             (spreadDots pinholeHost facingDots (Vec2 400 300) (Some (Vec2 700 300))
                true stillPoints sceneCamera)) <= 26)%nat.
Proof.
  split; [exact facingDots_wf|].
  exact (kick_cap_per_frame pinholeHost facingDots (Vec2 400 300) (Some (Vec2 700 300))
           true stillPoints sceneCamera facingDots_wf).
Defined.

(** ** Runs of frames *)

(** X12: a kick runs its course whatever the pointer does.  For a dot in
    its kick, as long as the progress stays below 1, every frame (with or
    without a pointer, wherever the cursor is) adds 0.035 to the progress
    and puts the dot at [kickStart + kickDir * ease progress]; the start and
    the direction of the kick stay.  From progress 0 this holds for 28
    frames: the kick ends in frame 29. *)
Theorem kick_runs_its_course (h : Host) (j : nat) (frames : list FrameParams)
    (sv : Service) :
  wf (particleSphere sv) -> (j < DOT_COUNT (particleSphere sv))%nat ->
  kickT (dotOf (particleSphere sv) j) + 0.035 * INR (length frames) < 1 ->
  let d := dotOf (particleSphere sv) j in
  let d' := dotOf (particleSphere (runFrames h sv frames)) j in
  kickT d' = kickT d + 0.035 * INR (length frames) /\
  kickStart d' = kickStart d /\ kickDir d' = kickDir d /\
  (frames <> [] ->
   offset d' = V3.add (kickStart d)
                 (V3.multiplyScalar (kickDir d) (easeInOutSine (kickT d')))).
Proof.
  revert sv. induction frames as [|p rest IH]; intros sv Hwf Hj Hlt d d'.
  - unfold d', d. cbn [runFrames fold_left length INR]. split; [lra|]. done.
  - cbn [length] in Hlt. rewrite S_INR in Hlt.
    change (kickT d + 0.035 * (INR (length rest) + 1) < 1) in Hlt.
    pose proof (pos_INR (length rest)) as Hn.
    assert (Hk : kickT d < 1) by lra.
    destruct (update_spec h sv p Hwf) as (Hwf1 & Hs1 & _).
    set (sv1 := fst (update h sv p)) in *.
    assert (Hj1 : (j < DOT_COUNT (particleSphere sv1))%nat)
      by (destruct Hs1 as (-> & _); exact Hj).
    destruct (animateSpreadReturn_spec (particleSphere sv) Hwf) as (_ & _ & Hd1).
    assert (E1 : dotOf (particleSphere sv1) j
                 = if pointerPassRuns p then resetTimer (animateDot d) else animateDot d).
    { apply update_outOfReach; [exact Hwf | exact Hj |].
      destruct (pointer p) as [ptr|]; [|exact I].
      destruct (points p) as [pts|]; [|exact I].
      destruct (camera p) as [cam|]; [|exact I].
      intros s Hs. left. rewrite (Hd1 j Hj). fold d.
      rewrite (animateDot_kicking d Hk). cbn [kickT].
      unfold Rmin. destruct (Rle_dec (kickT d + 0.035) 1); lra. }
    rewrite (animateDot_kicking d Hk) in E1.
    assert (Em : Rmin (kickT d + 0.035) 1 = kickT d + 0.035).
    { unfold Rmin. destruct (Rle_dec (kickT d + 0.035) 1); lra. }
    rewrite Em in E1.
    assert (F : kickT (dotOf (particleSphere sv1) j) = kickT d + 0.035 /\
                kickStart (dotOf (particleSphere sv1) j) = kickStart d /\
                kickDir (dotOf (particleSphere sv1) j) = kickDir d /\
                offset (dotOf (particleSphere sv1) j)
                = V3.add (kickStart d)
                    (V3.multiplyScalar (kickDir d) (easeInOutSine (kickT d + 0.035)))).
    { rewrite E1. destruct (pointerPassRuns p); cbn; done. }
    destruct F as (Fk & Fs & Fd & Fo).
    assert (Hlt1 : kickT (dotOf (particleSphere sv1) j) + 0.035 * INR (length rest) < 1)
      by (rewrite Fk; lra).
    destruct (IH sv1 Hwf1 Hj1 Hlt1) as (A & B & C & D).
    change (runFrames h sv (p :: rest)) with (runFrames h sv1 rest) in d'.
    fold d' in A, B, C, D.
    cbn [length]. rewrite S_INR.
    split; [rewrite A, Fk; lra|]. split; [congruence|]. split; [congruence|].
    intros _. destruct rest as [|p' rest'].
    + unfold d'. cbn [runFrames fold_left length INR].
      rewrite Fo. do 3 f_equal. lra.
    + rewrite D by discriminate. rewrite Fs, Fd. reflexivity.
Qed.

Lemma kick_runs_its_course_witness :
  let sv := newService polesKicked in
  let frames := [idleFrame; swipeFrame] in
  let d := dotOf (particleSphere sv) 0 in
  let d' := dotOf (particleSphere (runFrames pinholeHost sv frames)) 0 in
  (wf (particleSphere sv) /\ kickT d + 0.035 * INR (length frames) < 1) /\
  kickT d' = kickT d + 0.035 * INR (length frames) /\
  kickStart d' = kickStart d /\ kickDir d' = kickDir d.
Proof.
  intros sv frames d d'.
  assert (Hlt : kickT d + 0.035 * INR (length frames) < 1) by (simpl; lra).
  destruct (kick_runs_its_course pinholeHost 0 frames sv polesKicked_wf
              ltac:(simpl; lia) Hlt) as (A & B & C & _).
  split; [split; [exact polesKicked_wf | exact Hlt]|].
  split; [exact A|]. split; [exact B | exact C].
Defined.

(** X13: the hold, counted down.  For a dot that is not in a kick, in
    frames without a pointer pass, the timer goes down by 0.017 a frame,
    not below 0, and as long as it was above 0 before the frame the offset
    stays where it is.  A hold of 0.4 is over after 24 such frames. *)
Theorem hold_countdown (h : Host) (j : nat) (frames : list FrameParams)
    (sv : Service) :
  wf (particleSphere sv) -> (j < DOT_COUNT (particleSphere sv))%nat ->
  Forall (fun p => pointerPassRuns p = false) frames ->
  ~ kickT (dotOf (particleSphere sv) j) < 1 ->
  0 <= timer (dotOf (particleSphere sv) j) ->
  0.017 * INR (length frames) < timer (dotOf (particleSphere sv) j) + 0.017 ->
  let d := dotOf (particleSphere sv) j in
  let d' := dotOf (particleSphere (runFrames h sv frames)) j in
  timer d' = Rmax (timer d - 0.017 * INR (length frames)) 0 /\
  offset d' = offset d /\ kickT d' = kickT d /\
  kickStart d' = kickStart d /\ kickDir d' = kickDir d.
Proof.
  revert sv. induction frames as [|p rest IH]; intros sv Hwf Hj Hno Hk Ht0 Hlt d d'.
  - unfold d', d. cbn [runFrames fold_left length INR].
    split; [|done]. unfold Rmax.
    destruct (Rle_dec (timer (dotOf (particleSphere sv) j) - 0.017 * 0) 0); lra.
  - cbn [length] in Hlt. rewrite S_INR in Hlt.
    change (0.017 * (INR (length rest) + 1) < timer d + 0.017) in Hlt.
    change (~ kickT d < 1) in Hk. change (0 <= timer d) in Ht0.
    pose proof (pos_INR (length rest)) as Hn.
    assert (Ht : timer d > 0) by lra.
    inversion Hno as [|p0 rest0 Hp Hrest]; subst.
    destruct (update_spec h sv p Hwf) as (Hwf1 & Hs1 & _).
    set (sv1 := fst (update h sv p)) in *.
    assert (Hj1 : (j < DOT_COUNT (particleSphere sv1))%nat)
      by (destruct Hs1 as (-> & _); exact Hj).
    assert (E1 : dotOf (particleSphere sv1) j = animateDot d).
    { unfold sv1. rewrite (update_outOfReach h sv p j Hwf Hj), Hp; [reflexivity|].
      unfold pointerPassRuns in Hp.
      destruct (pointer p) as [ptr|]; [|exact I].
      destruct (points p) as [pts|]; [|exact I].
      destruct (camera p) as [cam|]; [discriminate | exact I]. }
    rewrite (animateDot_held d Hk Ht) in E1.
    change (runFrames h sv (p :: rest)) with (runFrames h sv1 rest) in d'.
    cbn [length]. rewrite S_INR.
    destruct rest as [|p' rest'].
    + unfold d'. cbn [runFrames fold_left length INR]. rewrite E1. cbn.
      split; [f_equal; lra | done].
    + cbn [length] in Hlt, Hn. rewrite S_INR in Hlt.
      pose proof (pos_INR (length rest')) as Hn'.
      assert (Em : Rmax (timer d - 0.017) 0 = timer d - 0.017).
      { unfold Rmax. destruct (Rle_dec (timer d - 0.017) 0); lra. }
      rewrite Em in E1.
      assert (F : kickT (dotOf (particleSphere sv1) j) = kickT d /\
                  timer (dotOf (particleSphere sv1) j) = timer d - 0.017 /\
                  offset (dotOf (particleSphere sv1) j) = offset d /\
                  kickStart (dotOf (particleSphere sv1) j) = kickStart d /\
                  kickDir (dotOf (particleSphere sv1) j) = kickDir d)
        by (rewrite E1; cbn; done).
      destruct F as (Fk & Ft & Fo & Fs & Fd).
      destruct (IH sv1 Hwf1 Hj1 Hrest) as (A & B & C & D & E).
      * rewrite Fk. exact Hk.
      * rewrite Ft. lra.
      * rewrite Ft. cbn [length]. rewrite S_INR. lra.
      * fold d' in A, B, C, D, E. cbn [length] in A. rewrite S_INR in A.
        cbn [length]. rewrite S_INR.
        split; [rewrite A, Ft; f_equal; lra|]. repeat split; congruence.
Qed.

Lemma hold_countdown_witness :
  let sv := newService (timer_set 0 0.4 poles) in
  let frames := repeat idleFrame 24 in
  let d := dotOf (particleSphere sv) 0 in
  let d' := dotOf (particleSphere (runFrames pinholeHost sv frames)) 0 in
  (wf (particleSphere sv) /\ ~ kickT d < 1 /\
   0.017 * INR (length frames) < timer d + 0.017) /\
  timer d' = 0 /\ offset d' = offset d.
Proof.
  intros sv frames d d'.
  assert (Hwf : wf (particleSphere sv)) by (split; reflexivity).
  assert (Hk : ~ kickT d < 1) by (simpl; lra).
  assert (Hn : INR (length frames) = 24) by (simpl; lra).
  assert (Ht : timer d = 0.4) by reflexivity.
  assert (Hlt : 0.017 * INR (length frames) < timer d + 0.017)
    by (rewrite Hn, Ht; lra).
  assert (Hno : Forall (fun p => pointerPassRuns p = false) frames)
    by (repeat constructor).
  destruct (hold_countdown pinholeHost 0 frames sv Hwf ltac:(simpl; lia) Hno Hk
              ltac:(change (0 <= timer d); rewrite Ht; lra) Hlt) as (A & B & _).
  split; [split; [exact Hwf | split; [exact Hk | exact Hlt]]|].
  split; [|exact B].
  fold d' in A. rewrite A. fold d. rewrite Hn, Ht. unfold Rmax.
  destruct (Rle_dec (0.4 - 0.017 * 24) 0); lra.
Defined.

(** X14: [morphLerp] closes in on its target by a twentieth of the gap in
    every frame: after [n] frames the gap is [0.95 ^ n] of what it was.  No
    frame changes the target or the flag. *)
Theorem morphLerp_closed_form (h : Host) (frames : list FrameParams) (sv : Service) :
  let sv' := runFrames h sv frames in
  morphLerp sv' - morphTarget sv
    = 0.95 ^ length frames * (morphLerp sv - morphTarget sv) /\
  morphTarget sv' = morphTarget sv /\ enableMorph sv' = enableMorph sv.
Proof.
  revert sv. induction frames as [|p rest IH]; intros sv sv'.
  - unfold sv'. cbn [runFrames fold_left length pow]. split; [lra | done].
  - destruct (update_morph h sv p) as (Hl & Ht & He).
    destruct (IH (fst (update h sv p))) as (A & B & C).
    change (runFrames h sv (p :: rest)) with (runFrames h (fst (update h sv p)) rest)
      in sv'.
    fold sv' in A, B, C.
    split; [|split; congruence].
    rewrite Ht in A. cbn [length pow].
    rewrite A, Hl. generalize (0.95 ^ length rest). intros P.
    unfold Q2R. cbn [QArith_base.Qnum QArith_base.Qden]. field.
Qed.

(** X15: no frame changes the shape of the field: the number of dots, the
    radius and the home positions are as the constructor left them, and the
    arrays keep their lengths. *)
Theorem field_shape_preserved (h : Host) (frames : list FrameParams) (sv : Service) :
  wf (particleSphere sv) ->
  let ps' := particleSphere (runFrames h sv frames) in
  wf ps' /\ DOT_COUNT ps' = DOT_COUNT (particleSphere sv) /\
  RADIUS ps' = RADIUS (particleSphere sv) /\
  originalPositions ps' = originalPositions (particleSphere sv) /\
  length (spreadOffsets ps') = length (spreadOffsets (particleSphere sv)) /\
  length (spreadTimers ps') = length (spreadTimers (particleSphere sv)) /\
  length (spreadKickT ps') = length (spreadKickT (particleSphere sv)).
Proof.
  intros Hwf ps'.
  destruct (runFrames_spec h frames sv Hwf) as (Hwf' & (Hc & Hr & Ho) & _).
  fold ps' in Hwf', Hc, Hr, Ho.
  split; [exact Hwf'|]. split; [exact Hc|]. split; [exact Hr|]. split; [exact Ho|].
  destruct Hwf, Hwf'. rewrite <- Hc in *. repeat split; congruence.
Qed.

Lemma field_shape_preserved_witness :
  let ps' := particleSphere (runFrames pinholeHost (newService facingDots)
                               [swipeFrame; idleFrame]) in
  wf facingDots /\ wf ps' /\ DOT_COUNT ps' = 2%nat /\ RADIUS ps' = 2 /\
  originalPositions ps' = [0; 0; 2; 0; 0; -2].
Proof.
  intros ps'.
  destruct (field_shape_preserved pinholeHost [swipeFrame; idleFrame]
              (newService facingDots) facingDots_wf) as (A & B & C & D & _).
  split; [exact facingDots_wf|]. split; [exact A|].
  split; [exact B|]. split; [exact C | exact D].
Defined.

(** ** The buffers that [update] writes *)

(** A loop that writes the three numbers of dot [i] at [3 i], [3 i + 1]
    and [3 i + 2] leaves in the buffer, for every dot below the bound, the
    numbers written for it. *)
Lemma fold_triples (body : list R -> nat -> list R) (f : nat -> Vector3) :
  (forall arr i,
     body arr i = <[(i * 3 + 2)%nat := vz (f i)]>
                    (<[(i * 3 + 1)%nat := vy (f i)]> (<[(i * 3)%nat := vx (f i)]> arr))) ->
  forall (n : nat) (arr : list R), (n * 3 <= length arr)%nat ->
    let arr' := fold_left body (seq 0 n) arr in
    length arr' = length arr /\
    (forall i : nat, (i < n)%nat -> tripleAt arr' i = f i) /\
    (forall k : nat, (n * 3 <= k)%nat -> arr' !!! k = arr !!! k).
Proof.
  intros Hbody n. induction n as [|n IH]; intros arr Hlen.
  - cbn [seq fold_left]. split; [reflexivity|]. split; [intros; lia | reflexivity].
  - rewrite seq_S, fold_left_app. cbn [fold_left Nat.add].
    destruct (IH arr ltac:(lia)) as (Hl & Hdone & Hrest).
    set (a := fold_left body (seq 0 n) arr) in *. clearbody a.
    rewrite Hbody.
    split; [rewrite !length_insert; exact Hl|]. split.
    + intros i Hi. unfold tripleAt. destruct (decide (i = n)) as [->|Hne].
      * apply vec3_eq; cbn [vx vy vz];
          repeat first
            [ rewrite list_lookup_total_insert_eq by (rewrite ?length_insert; lia)
            | rewrite list_lookup_total_insert_ne by lia ]; reflexivity.
      * rewrite <- (Hdone i ltac:(lia)). unfold tripleAt.
        apply vec3_eq; cbn [vx vy vz];
          repeat (rewrite list_lookup_total_insert_ne by lia); reflexivity.
    + intros k Hk. repeat (rewrite list_lookup_total_insert_ne by lia).
      apply Hrest. lia.
Qed.

Lemma update_with_points (h : Host) (sv : Service) (p : FrameParams) (pts : Points) :
  points p = Some pts ->
  let sv' := fst (update h sv p) in
  let ps' := particleSphere sv' in
  snd (update h sv p)
  = Normal (mkPoints (rotation_y pts) (scale pts) (quaternion pts)
              (fold_left (morph_body (time p) ps' (morphLerp sv'))
                 (seq 0 (DOT_COUNT ps')) (position_array pts))
              (fold_left (blink_body (time p)) (seq 0 (DOT_COUNT ps'))
                 (color_array pts))).
Proof. intros Hp. unfold update. rewrite Hp. reflexivity. Qed.

Lemma wave_bound (a b radius lerp : R) :
  Rabs ((sin a + cos b) * 0.5 * (radius * 0.15) * lerp)
  <= 0.15 * Rabs radius * Rabs lerp.
Proof.
  pose proof (SIN_bound a) as [Hs1 Hs2]. pose proof (COS_bound b) as [Hc1 Hc2].
  replace ((sin a + cos b) * 0.5 * (radius * 0.15) * lerp)
    with ((sin a + cos b) * 0.5 * 0.15 * (radius * lerp)) by ring.
  rewrite Rabs_mult, (Rabs_mult radius lerp).
  assert (Hw : Rabs ((sin a + cos b) * 0.5 * 0.15) <= 0.15).
  { apply Rabs_le. lra. }
  pose proof (Rabs_pos radius) as Hr. pose proof (Rabs_pos lerp) as Hl.
  assert (Hp : 0 <= Rabs radius * Rabs lerp) by (apply Rmult_le_pos; assumption).
  replace (0.15 * Rabs radius * Rabs lerp) with (0.15 * (Rabs radius * Rabs lerp)) by ring.
  apply Rmult_le_compat_r; assumption.
Qed.

(** X16: the position buffer after [update].  With a position buffer of
    three numbers a dot, [update] returns normally and leaves the rotation
    and the scale of the points object alone; every dot is drawn at its home
    direction times a radius [r], plus its offset, and [r] differs from
    [RADIUS] by at most [0.15 * RADIUS * morphLerp], in absolute values. *)
Theorem drawn_positions (h : Host) (sv : Service) (p : FrameParams) (pts : Points) :
  wf (particleSphere sv) -> points p = Some pts ->
  length (position_array pts) = (DOT_COUNT (particleSphere sv) * 3)%nat ->
  let sv' := fst (update h sv p) in
  let ps' := particleSphere sv' in
  exists pts' : Points,
    snd (update h sv p) = Normal pts' /\
    rotation_y pts' = rotation_y pts /\ scale pts' = scale pts /\
    quaternion pts' = quaternion pts /\
    length (position_array pts') = length (position_array pts) /\
    forall i : nat, (i < DOT_COUNT ps')%nat ->
      exists r : R,
        Rabs (r - RADIUS ps') <= 0.15 * Rabs (RADIUS ps') * Rabs (morphLerp sv') /\
        tripleAt (position_array pts') i
        = V3.add (V3.multiplyScalar (V3.divideScalar (originalOf ps' i) (RADIUS ps')) r)
            (offsetOf ps' i).
Proof.
  intros Hwf Hp Hlen sv' ps'.
  destruct (update_spec h sv p Hwf) as (_ & (Hc & _) & _).
  fold sv' in Hc. fold ps' in Hc.
  pose proof (update_with_points h sv p pts Hp) as Hu. cbn zeta in Hu.
  fold sv' in Hu. fold ps' in Hu.
  eexists. split; [exact Hu|]. cbn [rotation_y scale quaternion position_array].
  split; [reflexivity|]. split; [reflexivity|]. split; [reflexivity|].
  set (rad := fun i : nat =>
         RADIUS ps'
         + (sin (time p * 0.002
                 + acos (clamp (originalPositions ps' !!! (i * 3 + 1)%nat / RADIUS ps')
                           (-1) 1) * 5
                 + Math_atan2 (originalPositions ps' !!! (i * 3 + 2)%nat / RADIUS ps')
                     (originalPositions ps' !!! (i * 3)%nat / RADIUS ps') * 3)
            + cos (time p * 0.001
                   + acos (clamp (originalPositions ps' !!! (i * 3 + 1)%nat / RADIUS ps')
                             (-1) 1) * 3
                   - Math_atan2 (originalPositions ps' !!! (i * 3 + 2)%nat / RADIUS ps')
                       (originalPositions ps' !!! (i * 3)%nat / RADIUS ps') * 2))
           * 0.5 * (RADIUS ps' * 0.15) * morphLerp sv').
  destruct (fold_triples (morph_body (time p) ps' (morphLerp sv'))
              (fun i => V3.add (V3.multiplyScalar
                                  (V3.divideScalar (originalOf ps' i) (RADIUS ps')) (rad i))
                          (offsetOf ps' i)))
    with (n := DOT_COUNT ps') (arr := position_array pts) as (Hl & Hdone & _).
  { intros arr i. unfold morph_body, rad, V3.divideScalar, originalOf, offsetOf.
    cbn [V3.add V3.multiplyScalar vx vy vz].
    f_equal; [|f_equal; [|f_equal]]; f_equal; unfold Rdiv; ring. }
  { rewrite Hc, Hlen. lia. }
  split; [exact Hl|].
  intros i Hi. exists (rad i). split; [|apply Hdone, Hi].
  unfold rad. replace (RADIUS ps' + _ - RADIUS ps') with
    ((sin (time p * 0.002
           + acos (clamp (originalPositions ps' !!! (i * 3 + 1)%nat / RADIUS ps')
                     (-1) 1) * 5
           + Math_atan2 (originalPositions ps' !!! (i * 3 + 2)%nat / RADIUS ps')
               (originalPositions ps' !!! (i * 3)%nat / RADIUS ps') * 3)
      + cos (time p * 0.001
             + acos (clamp (originalPositions ps' !!! (i * 3 + 1)%nat / RADIUS ps')
                       (-1) 1) * 3
             - Math_atan2 (originalPositions ps' !!! (i * 3 + 2)%nat / RADIUS ps')
                 (originalPositions ps' !!! (i * 3)%nat / RADIUS ps') * 2))
     * 0.5 * (RADIUS ps' * 0.15) * morphLerp sv') by ring.
  apply wave_bound.
Qed.

Lemma drawn_positions_witness :
  let sv := newService facingDots in
  let sv' := fst (update pinholeHost sv swipeFrame) in
  let ps' := particleSphere sv' in
  wf (particleSphere sv) /\ points swipeFrame = Some stillPoints /\
  length (position_array stillPoints) = (DOT_COUNT (particleSphere sv) * 3)%nat /\
  exists pts' : Points,
    snd (update pinholeHost sv swipeFrame) = Normal pts' /\
    rotation_y pts' = rotation_y stillPoints /\ scale pts' = scale stillPoints /\
    quaternion pts' = quaternion stillPoints /\
    length (position_array pts') = length (position_array stillPoints) /\
    forall i : nat, (i < DOT_COUNT ps')%nat ->
      exists r : R,
        Rabs (r - RADIUS ps') <= 0.15 * Rabs (RADIUS ps') * Rabs (morphLerp sv') /\
        tripleAt (position_array pts') i
        = V3.add (V3.multiplyScalar (V3.divideScalar (originalOf ps' i) (RADIUS ps')) r)
            (offsetOf ps' i).
Proof.
  intros sv sv' ps'.
  split; [exact facingDots_wf|]. split; [reflexivity|]. split; [reflexivity|].
  exact (drawn_positions pinholeHost sv swipeFrame stillPoints facingDots_wf
           eq_refl eq_refl).
Defined.

(** X17: the colour buffer after [update].  With a colour buffer of three
    numbers a dot, every dot is blue, (0.1176, 0.5647, 1.0), in a frame in
    which [sin (time * 0.01 + i)] is positive, and white otherwise; the
    colours of the dots do not disturb one another. *)
Theorem drawn_colors (h : Host) (sv : Service) (p : FrameParams) (pts : Points) :
  wf (particleSphere sv) -> points p = Some pts ->
  length (color_array pts) = (DOT_COUNT (particleSphere sv) * 3)%nat ->
  exists pts' : Points,
    snd (update h sv p) = Normal pts' /\
    length (color_array pts') = length (color_array pts) /\
    forall i : nat, (i < DOT_COUNT (particleSphere sv))%nat ->
      tripleAt (color_array pts') i
      = if decide (sin (time p * 0.01 + INR i) > 0)
        then Vec3 0.1176 0.5647 1.0 else Vec3 1.0 1.0 1.0.
Proof.
  intros Hwf Hp Hlen.
  destruct (update_spec h sv p Hwf) as (_ & (Hc & _) & _).
  pose proof (update_with_points h sv p pts Hp) as Hu. cbn zeta in Hu.
  eexists. split; [exact Hu|]. cbn [color_array]. rewrite Hc.
  destruct (fold_triples (blink_body (time p))
              (fun i => if decide (sin (time p * 0.01 + INR i) > 0)
                        then Vec3 0.1176 0.5647 1.0 else Vec3 1.0 1.0 1.0))
    with (n := DOT_COUNT (particleSphere sv)) (arr := color_array pts)
    as (Hl & Hdone & _).
  { intros arr i. unfold blink_body.
    destruct (decide (sin (time p * 0.01 + INR i) > 0)); reflexivity. }
  { rewrite Hlen. lia. }
  split; [exact Hl | exact Hdone].
Qed.

Lemma drawn_colors_witness :
  let sv := newService facingDots in
  wf (particleSphere sv) /\ points swipeFrame = Some stillPoints /\
  length (color_array stillPoints) = (DOT_COUNT (particleSphere sv) * 3)%nat /\
  exists pts' : Points,
    snd (update pinholeHost sv swipeFrame) = Normal pts' /\
    length (color_array pts') = length (color_array stillPoints) /\
    forall i : nat, (i < DOT_COUNT (particleSphere sv))%nat ->
      tripleAt (color_array pts') i
      = if decide (sin (time swipeFrame * 0.01 + INR i) > 0)
        then Vec3 0.1176 0.5647 1.0 else Vec3 1.0 1.0 1.0.
Proof.
  intros sv.
  split; [exact facingDots_wf|]. split; [reflexivity|]. split; [reflexivity|].
  exact (drawn_colors pinholeHost sv swipeFrame stillPoints facingDots_wf
           eq_refl eq_refl).
Defined.

(** ** The host: events and frames *)

Lemma animate_pointer (h : Host) (t : R) (app : App) :
  app_pointer (animate h t app) = app_pointer app /\
  app_lastPointer (animate h t app) = app_lastPointer app /\
  app_lastPointerEvent (animate h t app) = app_lastPointerEvent app /\
  app_camera (animate h t app) = app_camera app.
Proof. unfold animate. destruct (snd (update _ _ _)); cbn; done. Qed.

Lemma handle_pointer (h : Host) (app : App) (e : HostEvent) :
  app_camera (handle h app e) = app_camera app /\
  (isPointerMove e = false ->
     app_pointer (handle h app e) = app_pointer app /\
     app_lastPointer (handle h app e) = app_lastPointer app /\
     app_lastPointerEvent (handle h app e) = app_lastPointerEvent app) /\
  (app_pointer app <> None \/ isPointerMove e = true ->
     app_pointer (handle h app e) <> None).
Proof.
  destruct e as [t|c|x y]; cbn [handle isPointerMove].
  - destruct (animate_pointer h t app) as (A & B & C & D).
    rewrite A, B, C, D. split; [reflexivity|]. split; [done|].
    intros [H|H]; [exact H | discriminate].
  - cbn. split; [reflexivity|]. split; [done|].
    intros [H|H]; [exact H | discriminate].
  - cbn. split; [reflexivity|]. split; [discriminate|]. intros _. discriminate.
Qed.

(** X18: the host never clears the pointer, and a frame does not age it.
    The camera is never changed.  Without a [pointermove] among the events
    the current and the previous sample are what they were, so that every
    frame until the next [pointermove] sees the same two samples, and with
    them the same force.  Once a sample is there, there is one from then
    on.  A [pointermove] makes the current sample the previous one. *)
Theorem pointer_samples_persist (h : Host) (es : list HostEvent) (app : App) :
  let app' := run h app es in
  app_camera app' = app_camera app /\
  (existsb isPointerMove es = false ->
     app_pointer app' = app_pointer app /\
     app_lastPointer app' = app_lastPointer app /\
     app_lastPointerEvent app' = app_lastPointerEvent app) /\
  (app_pointer app <> None \/ existsb isPointerMove es = true ->
     app_pointer app' <> None) /\
  (forall x y : R,
     let app2 := run h app (es ++ [PointerMove x y]) in
     app_pointer app2 = Some (Vec2 x y) /\
     app_lastPointer app2 = app_pointer app' /\
     app_lastPointerEvent app2 = true).
Proof.
  revert app. induction es as [|e es IH]; intros app app'.
  - unfold app'. cbn [run fold_left existsb]. split; [reflexivity|].
    split; [done|]. split; [intros [H|H]; [exact H | discriminate]|].
    intros x y. cbn. done.
  - destruct (IH (handle h app e)) as (Hc & Hsame & Hsome & Hmove).
    change (run h (handle h app e) es) with app' in Hc, Hsame, Hsome, Hmove.
    destruct (handle_pointer h app e) as (Ec & Es & En).
    split; [congruence|]. split; [|split].
    + cbn [existsb]. intros Hno. apply orb_false_iff in Hno as [He1 Hno].
      destruct (Hsame Hno) as (A & B & C). destruct (Es He1) as (A' & B' & C').
      rewrite A, B, C. done.
    + cbn [existsb]. intros Hor. apply Hsome.
      destruct (isPointerMove e) eqn:Ee.
      * left. apply En. right. reflexivity.
      * destruct Hor as [H|H]; [left; apply En; left; exact H | right; exact H].
    + exact Hmove.
Qed.

Lemma animate_points (h : Host) (t : R) (app : App) :
  let ry := rotation_y (app_points app) + 0.002 in
  rotation_y (app_points (animate h t app)) = ry /\
  quaternion (app_points (animate h t app)) = Quat 0 (sin (ry / 2)) 0 (cos (ry / 2)).
Proof.
  unfold animate, update. cbn [points snd fst].
  destruct (enableMorph (interactionService app)); cbn; done.
Qed.

(** X19: the sphere turns by 0.002 about the y axis in every frame, and by
    nothing else: after the events the angle is the angle before plus 0.002
    for every frame among them.  From the first frame on, the quaternion
    that [update] reads is the rotation by that angle about the y axis, a
    unit quaternion. *)
Theorem rotation_of_run (h : Host) (es : list HostEvent) (app : App) :
  let app' := run h app es in
  let ry' := rotation_y (app_points app') in
  ry' = rotation_y (app_points app) + 0.002 * INR (frameCount es) /\
  ((0 < frameCount es)%nat ->
     quaternion (app_points app') = Quat 0 (sin (ry' / 2)) 0 (cos (ry' / 2)) /\
     unitQuat (quaternion (app_points app'))).
Proof.
  assert (G : forall (es : list HostEvent) (app : App),
            let app' := run h app es in
            let ry' := rotation_y (app_points app') in
            ry' = rotation_y (app_points app) + 0.002 * INR (frameCount es) /\
            ((0 < frameCount es)%nat \/
             quaternion (app_points app)
             = Quat 0 (sin (rotation_y (app_points app) / 2)) 0
                 (cos (rotation_y (app_points app) / 2)) ->
             quaternion (app_points app') = Quat 0 (sin (ry' / 2)) 0 (cos (ry' / 2)))).
  { clear es app. induction es as [|e es IH]; intros app app' ry'.
    - unfold ry', app'. cbn [run fold_left frameCount List.filter length INR].
      split; [lra|]. intros [H|H]; [lia | exact H].
    - destruct (IH (handle h app e)) as (Hr & Hq).
      change (run h (handle h app e) es) with app' in Hr, Hq.
      fold ry' in Hr, Hq.
      destruct e as [t|c|x y]; unfold frameCount in *;
        cbn [handle List.filter isFrame length] in *.
      + destruct (animate_points h t app) as (Ha & Hb). cbn zeta in Ha, Hb.
        rewrite S_INR. split; [rewrite Hr, Ha; lra|].
        intros _. apply Hq. right. rewrite Hb, Ha. reflexivity.
      + split; [exact Hr|]. exact Hq.
      + split; [exact Hr|]. exact Hq. }
  intros app' ry'. destruct (G es app) as (Hr & Hq).
  fold app' in Hr, Hq. fold ry' in Hr, Hq.
  split; [exact Hr|]. intros Hn.
  assert (E := Hq (or_introl Hn)). split; [exact E|].
  rewrite E. unfold unitQuat. cbn [qx qy qz qw].
  pose proof (sin2_cos2 (ry' / 2)) as H2. unfold Rsqr in H2. lra.
Qed.

Lemma rotation_of_run_witness :
  let app := startApp poles stillPoints sceneCamera false in
  let es := [Frame 0; PointerMove 400 300; Frame 16] in
  let app' := run pinholeHost app es in
  (0 < frameCount es)%nat /\
  rotation_y (app_points app') = 0.004 /\
  unitQuat (quaternion (app_points app')).
Proof.
  intros app es app'.
  assert (Hn : (0 < frameCount es)%nat) by (cbn; lia).
  destruct (rotation_of_run pinholeHost es app) as (A & B).
  destruct (B Hn) as (_ & C).
  split; [exact Hn|]. split; [|exact C].
  fold app' in A. rewrite A. cbn. lra.
Defined.

(** ** The constructor, for every number of dots *)

Lemma flat_map_zeros (n : nat) :
  flat_map (fun _ : nat => [0; 0; 0]) (seq 0 n) = replicate (n * 3) 0.
Proof.
  assert (G : forall s : nat,
            flat_map (fun _ : nat => [0; 0; 0]) (seq s n) = replicate (n * 3) 0).
  { induction n as [|n IH]; intros s; [reflexivity|].
    cbn [seq flat_map app Nat.mul Nat.add replicate]. rewrite IH. reflexivity. }
  apply G.
Qed.

Lemma map_const_replicate {A : Type} (a : A) (n : nat) :
  map (fun _ : nat => a) (seq 0 n) = replicate n a.
Proof.
  assert (G : forall s : nat, map (fun _ : nat => a) (seq s n) = replicate n a).
  { induction n as [|n IH]; intros s; [reflexivity|].
    cbn [seq map replicate]. rewrite IH. reflexivity. }
  apply G.
Qed.

(** X20: what the constructor builds, for every [dotCount] and radius: the
    count and the radius as given; [positions] and [originalPositions] the
    same list of three numbers a dot; every offset and timer 0, every kick
    progress 1, every kick start and direction the zero vector.  For two
    dots or more the positions are finite numbers, and the field read as
    real numbers is well formed, with every dot at home and at rest. *)
Theorem constructor_arrays (count : nat) (radius : R) :
  let ps := Construction.new count radius in
  DOT_COUNT ps = count /\ RADIUS ps = radius /\
  positions ps = originalPositions ps /\
  length (originalPositions ps) = (count * 3)%nat /\
  spreadOffsets ps = replicate (count * 3) 0 /\
  spreadTimers ps = replicate count 0 /\
  spreadKickT ps = replicate count 1 /\
  spreadKickDir ps = replicate count (Vec3 0 0 0) /\
  spreadKickStart ps = replicate count (Vec3 0 0 0) /\
  ((2 <= count)%nat ->
   exists rs : ParticleSphere,
     Construction.finiteField ps = Some rs /\
     DOT_COUNT rs = count /\ RADIUS rs = radius /\
     wf rs /\ allDots restDot rs /\ allDots regimeOk rs).
Proof.
  intros ps.
  destruct (initParticles_fold (seq 0 count)
              (mkParticleSphere count radius [] [] [] [] [] [] []))
    as (Hcount & Hrad & Horig & Hoff & Htm & Hk).
  destruct (initParticles_vectors (seq 0 count)
              (mkParticleSphere count radius [] [] [] [] [] [] []))
    as (Hpos & Hkd & Hks).
  cbn [DOT_COUNT RADIUS positions originalPositions spreadOffsets spreadTimers
       spreadKickT spreadKickDir spreadKickStart app] in *.
  change (fold_left Construction.initParticles_body (seq 0 count)
            (mkParticleSphere count radius [] [] [] [] [] [] [])) with ps in *.
  split; [exact Hcount|]. split; [exact Hrad|].
  split; [rewrite Hpos, Horig; reflexivity|].
  split; [rewrite Horig; apply flat_map_seq_length; reflexivity|].
  split; [rewrite Hoff; apply flat_map_zeros|].
  split; [rewrite Htm; apply map_const_replicate|].
  split; [rewrite Hk; apply map_const_replicate|].
  split; [rewrite Hkd; apply map_const_replicate|].
  split; [rewrite Hks; apply map_const_replicate|].
  intros Hc. destruct (constructed_field count radius Hc)
    as (rs & A & B & C & _ & D & E & F).
  exists rs. done.
Qed.

(** ** The dot under the cursor *)



(** ** The path of a kick *)

(** X22: a kick pushes the dot away from the sample that kicked it, along
    the line from the sample through the home of the dot.  After a turn that
    kicks a dot, the point [home + kickStart + kickDir * e] of the
    path of the kick lies, in the world, at
    [CURSOR_RADIUS + 0.001 + spreadAmt * e] from the sample, for every
    [e >= 0]: at the boundary of the zone when the kick starts ([e = 0]) and
    [spreadAmt] beyond it when it ends ([e = 1]). *)
Theorem kick_path_radial (pointer : Vector2) (lastPointer : option Vector2)
    (q : Quaternion) (cw ic : Vector3) (st : StepState) (i : nat) (e : R) :
  let ps := st_ps st in
  let force := pointerForce pointer lastPointer in
  let spreadAmt :=
    clamp (0.7 * Math_pow (Math_max 0 (force - 1.0)) 1.15) 0 (RADIUS ps * 0.7) in
  let st' := spreadDots_dot pointer lastPointer q cw ic st i in
  let onPath :=
    V3.add (originalOf ps i)
      (V3.add (spreadKickStart (st_ps st') !!! i)
         (V3.multiplyScalar (spreadKickDir (st_ps st') !!! i) e)) in
  wf ps -> (i < DOT_COUNT ps)%nat ->
  length (touchedThisFrame st) = DOT_COUNT ps ->
  unitQuat q -> 0 <= RADIUS ps ->
  ~ spreadKickT ps !!! i < 1 ->
  0 < cursorDistance q ic (originalOf ps i) < RADIUS ps * 0.38 ->
  force > 0.5 -> (kicksThisStep st < MAX_KICKS_PER_STEP)%nat ->
  0 <= e ->
  V3.length (V3.sub (V3.applyQuaternion onPath q) ic)
  = RADIUS ps * 0.38 + 0.001 + spreadAmt * e.
Proof.
  intros ps force spreadAmt st' onPath Hwf Hi Hlen Hq Hr Hk [Hpos Hin] Hf Hc He.
  unfold cursorDistance in Hpos, Hin.
  destruct (spreadDots_dot_spec pointer lastPointer q cw ic st i Hwf Hi Hlen)
    as (_ & _ & _ & Hspec).
  fold st' in Hspec. fold ps in Hspec.
  unfold spreadDot in Hspec. cbn [dotOf kickT timer] in Hspec.
  destruct (decide (spreadKickT ps !!! i < 1)) as [|_]; [contradiction|].
  destruct (decide (V3.length (V3.sub (V3.applyQuaternion (originalOf ps i) q) ic)
                    < RADIUS ps * 0.38)) as [_|N]; [|contradiction].
  fold (pointerForce pointer lastPointer) in Hspec. fold force in Hspec.
  rewrite (bool_decide_eq_true_2 _ Hf), (bool_decide_eq_true_2 _ Hc) in Hspec.
  cbn [andb] in Hspec. fold spreadAmt in Hspec.
  pose proof (spreadAmt_range force (RADIUS ps) Hr) as Hrange. fold spreadAmt in Hrange.
  clearbody spreadAmt.
  set (n := V3.normalize (V3.sub (V3.applyQuaternion (originalOf ps i) q) ic)) in *.
  assert (Hn : V3.dot n n = 1) by (apply normalize_unit; lra).
  clearbody n.
  pose proof (f_equal (fun x => fst (fst x)) Hspec) as Ed. cbn [fst] in Ed.
  pose proof (f_equal kickStart Ed) as Eks. pose proof (f_equal kickDir Ed) as Ekd.
  cbn [kickStart kickDir dotOf] in Eks, Ekd.
  unfold onPath. rewrite Eks, Ekd.
  assert (E : V3.add (originalOf ps i)
                (V3.add
                   (V3.sub (V3.applyQuaternion
                              (V3.add ic (V3.multiplyScalar n (RADIUS ps * 0.38 + 0.001)))
                              (invert q)) (originalOf ps i))
                   (V3.multiplyScalar
                      (V3.applyQuaternion (V3.multiplyScalar n spreadAmt) (invert q)) e))
              = V3.applyQuaternion
                  (V3.add ic (V3.multiplyScalar n
                                (RADIUS ps * 0.38 + 0.001 + spreadAmt * e)))
                  (invert q)).
  { apply vec3_eq;
      cbn [V3.add V3.sub V3.multiplyScalar V3.applyQuaternion vx vy vz invert
           qx qy qz qw]; ring. }
  rewrite E.
  apply (offset_distance q ic n (RADIUS ps * 0.38 + 0.001 + spreadAmt * e) Hq Hn).
  assert (0 <= spreadAmt * e) by (apply Rmult_le_pos; [apply Hrange | exact He]).
  lra.
Qed.

Lemma kick_path_radial_witness :
  let pointer := Vec2 400 300 in
  let lastPointer := Some (Vec2 390 300) in
  let q := Quat 0 0 0 1 in
  let ic := Vec3 0.3 0 2 in
  let st := mkStep facingDots [false; false] 0 in
  let spreadAmt :=
    clamp (0.7 * Math_pow (Math_max 0 (pointerForce pointer lastPointer - 1.0)) 1.15)
      0 (RADIUS facingDots * 0.7) in
  let st' := spreadDots_dot pointer lastPointer q (Vec3 0 0 2) ic st 0 in
  let onPath :=
    V3.add (originalOf facingDots 0)
      (V3.add (spreadKickStart (st_ps st') !!! 0%nat)
         (V3.multiplyScalar (spreadKickDir (st_ps st') !!! 0%nat) 1)) in
  (wf facingDots /\ unitQuat q /\
   0 < cursorDistance q ic (originalOf facingDots 0) < RADIUS facingDots * 0.38 /\
   pointerForce pointer lastPointer > 0.5) /\
  V3.length (V3.sub (V3.applyQuaternion onPath q) ic)
  = RADIUS facingDots * 0.38 + 0.001 + spreadAmt * 1.
Proof.
  intros pointer lastPointer q ic st spreadAmt st' onPath.
  assert (Hd : cursorDistance q ic (originalOf facingDots 0) = 0.3).
  { unfold cursorDistance. apply length_of_sq; [lra|]. unfold V3.dot. simpl. lra. }
  assert (Hq : unitQuat q) by (unfold unitQuat; simpl; lra).
  assert (Hk : ~ spreadKickT facingDots !!! 0%nat < 1) by (simpl; lra).
  assert (Hin : 0 < cursorDistance q ic (originalOf facingDots 0)
                < RADIUS facingDots * 0.38)
    by (rewrite Hd; simpl; lra).
  assert (Hf : pointerForce pointer lastPointer > 0.5).
  { unfold pointer, lastPointer. rewrite force_of_step; lra. }
  assert (Hr : 0 <= RADIUS facingDots) by (simpl; lra).
  assert (Hc : (kicksThisStep st < MAX_KICKS_PER_STEP)%nat)
    by (unfold MAX_KICKS_PER_STEP; simpl; lia).
  split; [split; [exact facingDots_wf | split; [exact Hq | split; [exact Hin | exact Hf]]]|].
  exact (kick_path_radial pointer lastPointer q (Vec3 0 0 2) ic st 0 1
           facingDots_wf ltac:(simpl; lia) eq_refl Hq Hr Hk Hin Hf Hc ltac:(lra)).
Defined.
